(** * amixer: percentage volume and stereo balance over ALSA mixer controls

    A shallow embedding of [amixer.cpp] (classes [VolumeController],
    [VolumeControllerDb], [VolumeControllerLinear], [VolumeControllerDummy],
    [AMVolume] and [AMixer]) and of the program of [amixer_sample.cpp], and
    the proofs of its specification.

    Conventions of the embedding:
    - [int] is a 32-bit and [long] a 64-bit two's complement integer (LP64
      Linux, the platform of ALSA), carried as [Z] with the wrap-around
      written out ([int_of_Z], [long_of_Z]);
    - [double] is IEEE 754 binary64.  Every value the program computes is
      finite, so a double is carried as the rational number it denotes and
      every operation is the exact result rounded to the nearest binary64,
      ties to even ([Double.rnd]);
    - alsa-lib is not part of the repository: the functions the program calls
      are the fields of the class [Alsa], and the state of the sound hardware
      is threaded through a small state monad. *)

From Stdlib Require Import ZArith QArith Qround Qabs Qpower Qreduction.
From Stdlib Require Import Lia Lqa Bool List String.
From Stdlib Require Import SpecFloat DecimalString Permutation.
Import ListNotations.

Local Open Scope Z_scope.

(** ** Machine integers *)

Module Machine.

(** The value of [z] read as a [w]-bit two's complement integer. *)
Definition wrap (w : Z) (z : Z) : Z :=
  (z + 2 ^ (w - 1)) mod 2 ^ w - 2 ^ (w - 1).

Definition int_of_Z (z : Z) : Z := wrap 32 z.
Definition long_of_Z (z : Z) : Z := wrap 64 z.

Definition INT_MIN : Z := - 2 ^ 31.
Definition INT_MAX : Z := 2 ^ 31 - 1.
Definition LONG_MIN : Z := - 2 ^ 63.
Definition LONG_MAX : Z := 2 ^ 63 - 1.

Definition in_int (z : Z) : Prop := INT_MIN <= z <= INT_MAX.
Definition in_long (z : Z) : Prop := LONG_MIN <= z <= LONG_MAX.

(** [long] addition and subtraction. *)
Definition long_add (a b : Z) : Z := long_of_Z (a + b).
Definition long_sub (a b : Z) : Z := long_of_Z (a - b).

(** [int] subtraction. *)
Definition int_sub (a b : Z) : Z := int_of_Z (a - b).

(** [abs] on [int]. *)
Definition abs (a : Z) : Z := int_of_Z (Z.abs a).

(** [std::clamp(v, lo, hi)] on integers:
    [(v < lo) ? lo : (hi < v) ? hi : v]. *)
Definition clamp (v lo hi : Z) : Z :=
  if v <? lo then lo else if hi <? v then hi else v.

(** [std::max]: [(a < b) ? b : a]. *)
Definition max (a b : Z) : Z := if a <? b then b else a.

End Machine.

(** ** IEEE 754 binary64 *)

Module Double.

Local Open Scope Q_scope.

(** A finite double, as the rational it denotes. *)
Definition double : Type := Q.

Definition prec : Z := 53.
Definition emin : Z := -1074.

(** [floor (log2 x)] for [0 < x]. *)
Definition ilog2 (x : Q) : Z :=
  let l := (Z.log2 (Qnum x) - Z.log2 (Zpos (Qden x)))%Z in
  if Qle_bool (2 ^ l) x then l else (l - 1)%Z.

(** Exponent of the unit in the last place of the binade of [x]:
    53 significant bits, and no exponent below that of the subnormals. *)
Definition ulp_exp (x : Q) : Z := Z.max (ilog2 (Qabs x) - (prec - 1)) emin.

(** Nearest integer, ties to the even one. *)
Definition round_half_even (x : Q) : Z :=
  let f := Qfloor x in
  match Qcompare (x - inject_Z f) (1 # 2) with
  | Lt => f
  | Gt => (f + 1)%Z
  | Eq => if Z.even f then f else (f + 1)%Z
  end.

Definition rnd_core (y : Q) : Q :=
  if Qeq_bool y 0 then 0
  else let q := 2 ^ ulp_exp y in inject_Z (round_half_even (y / q)) * q.

(** Round to nearest binary64, ties to even.  The result is kept in lowest
    terms, so that equal doubles are equal terms.  Overflow to infinity
    (at [2 ^ 1024]) is not modelled: no value of the program comes near. *)
Definition rnd (x : Q) : double := Qred (rnd_core (Qred x)).

(** The arithmetic operators of C++ on [double]. *)
Definition fadd (a b : double) : double := rnd (a + b).
Definition fsub (a b : double) : double := rnd (a - b).
Definition fmul (a b : double) : double := rnd (a * b).
Definition fdiv (a b : double) : double := rnd (a / b).

(** Conversion of an [int] or a [long] to [double]. *)
Definition of_Z (z : Z) : double := rnd (inject_Z z).

(** [a < b] on doubles. *)
Definition fltb (a b : double) : bool := negb (Qle_bool b a).

(** [std::clamp(v, lo, hi)] on doubles. *)
Definition clamp (v lo hi : double) : double :=
  if fltb v lo then lo else if fltb hi v then hi else v.

(** Nearest integer, halfway cases away from zero. *)
Definition round_half_away (x : Q) : Z :=
  if Qle_bool 0 x then Qfloor (x + (1 # 2)) else Qceiling (x - (1 # 2)).

(** [lround]: [round_half_away] as a [long].  C leaves the result
    unspecified when the rounded value is no [long]; it is then [LONG_MIN],
    the result of glibc on x86-64. *)
Definition lround (x : double) : Z :=
  let n := round_half_away x in
  if (Machine.LONG_MIN <=? n)%Z && (n <=? Machine.LONG_MAX)%Z then n
  else Machine.LONG_MIN.

(** The unit roundoff [2 ^ -53], the least normal double, and two bounds
    on the relative error of a few roundings in a row: [3 * 2 ^ -53] and
    [2 ^ -50]. *)
Definition eps : Q := 1 # 9007199254740992.
Definition tiny : Q := 2 ^ (-1022).
Definition c3 : Q := 3 # 9007199254740992.
Definition c8 : Q := 1 # 1125899906842624.

(** The value of a finite [spec_float] of the Standard Library, used to
    cross-check [rnd] against the library's own binary64 operations. *)
Definition SF2Q (f : spec_float) : Q :=
  match f with
  | S754_finite s m e => Qred (inject_Z (if s then Zneg m else Zpos m) * 2 ^ e)
  | _ => 0
  end.

Definition SFofZ (z : Z) : spec_float := binary_normalize 53 1024 z 0 false.

End Double.

(** ** The alsa-lib collaborator *)

(** [snd_mixer_selem_channel_id_t]: an enumeration of alsa-lib. *)
Definition snd_mixer_selem_channel_id_t : Type := Z.

(** The functions of alsa-lib that the program calls on a mixer element.
    [hw] is the state of the sound hardware.  A query that returns a value
    through a pointer is an [option]: [None] when the return code is not 0.
    A setter returns its return code and the new state.  The three channel
    selectors are constants of alsa-lib's headers. *)
Class Alsa : Type := {
  snd_mixer_elem_t : Type;
  hw : Type;
  SND_MIXER_SCHN_FRONT_LEFT : snd_mixer_selem_channel_id_t;
  SND_MIXER_SCHN_FRONT_RIGHT : snd_mixer_selem_channel_id_t;
  SND_MIXER_SCHN_MONO : snd_mixer_selem_channel_id_t;
  snd_mixer_selem_get_name : snd_mixer_elem_t -> string;
  snd_mixer_selem_is_active : snd_mixer_elem_t -> bool;
  snd_mixer_selem_has_playback_volume : snd_mixer_elem_t -> bool;
  snd_mixer_selem_has_playback_channel :
    snd_mixer_elem_t -> snd_mixer_selem_channel_id_t -> bool;
  snd_mixer_selem_get_playback_dB_range : snd_mixer_elem_t -> option (Z * Z);
  snd_mixer_selem_get_playback_volume_range :
    snd_mixer_elem_t -> option (Z * Z);
  snd_mixer_selem_get_playback_dB :
    snd_mixer_elem_t -> snd_mixer_selem_channel_id_t -> hw -> option Z;
  snd_mixer_selem_set_playback_dB :
    snd_mixer_elem_t -> snd_mixer_selem_channel_id_t -> Z -> Z -> hw -> Z * hw;
  snd_mixer_selem_get_playback_volume :
    snd_mixer_elem_t -> snd_mixer_selem_channel_id_t -> hw -> option Z;
  snd_mixer_selem_set_playback_volume :
    snd_mixer_elem_t -> snd_mixer_selem_channel_id_t -> Z -> hw -> Z * hw
}.

(** ** Methods as state transformers over the hardware *)

Definition State (S T : Type) : Type := S -> T * S.

Definition ret {S T : Type} (x : T) : State S T := fun s => (x, s).

Definition bind {S T U : Type} (c : State S T) (k : T -> State S U)
  : State S U :=
  fun s => let (x, s') := c s in k x s'.

Declare Scope state_scope.
Delimit Scope state_scope with state.
Notation "x <- c ;; k" := (bind c (fun x => k))
  (at level 61, c at next level, right associativity) : state_scope.
Notation "c ;; k" := (bind c (fun _ => k))
  (at level 61, right associativity) : state_scope.

(** The value a method returns and the hardware state it leaves. *)
Definition result {S T : Type} (c : State S T) (s : S) : T := fst (c s).
Definition after {S T : Type} (c : State S T) (s : S) : S := snd (c s).

(** ** class VolumeController and its three implementations *)

Module VolumeController.
Section WithAlsa.
Context {alsa : Alsa}.
Import Machine Double.
Local Open Scope state_scope.

(** The calls into alsa-lib, as actions.  A getter leaves the hardware as
    it is; the return code of a setter is what the action returns. *)
Definition get_playback_dB (e : snd_mixer_elem_t)
  (ch : snd_mixer_selem_channel_id_t) : State hw (option Z) :=
  fun s => (snd_mixer_selem_get_playback_dB e ch s, s).

Definition set_playback_dB (e : snd_mixer_elem_t)
  (ch : snd_mixer_selem_channel_id_t) (dB dir : Z) : State hw Z :=
  snd_mixer_selem_set_playback_dB e ch dB dir.

Definition get_playback_volume (e : snd_mixer_elem_t)
  (ch : snd_mixer_selem_channel_id_t) : State hw (option Z) :=
  fun s => (snd_mixer_selem_get_playback_volume e ch s, s).

Definition set_playback_volume (e : snd_mixer_elem_t)
  (ch : snd_mixer_selem_channel_id_t) (vol : Z) : State hw Z :=
  snd_mixer_selem_set_playback_volume e ch vol.

(** An object of one of the three derived classes, with its fields.
    [mixer_elem] is a pointer: [None] is the null pointer. *)
Inductive t : Type :=
| VolumeControllerDb (mixer_elem : option snd_mixer_elem_t)
    (channel : snd_mixer_selem_channel_id_t) (dbMin dbMax dbRange : Z)
| VolumeControllerLinear (mixer_elem : option snd_mixer_elem_t)
    (channel : snd_mixer_selem_channel_id_t) (volMin volMax volRange : Z)
| VolumeControllerDummy (mixer_elem : option snd_mixer_elem_t)
    (channel : snd_mixer_selem_channel_id_t).

(** The constructors of the derived classes. *)
Definition new_VolumeControllerDb (elem : option snd_mixer_elem_t)
  (ch : snd_mixer_selem_channel_id_t) : t :=
  match elem with
  | None => VolumeControllerDb elem ch 0 0 0
  | Some e =>
      match snd_mixer_selem_get_playback_dB_range e with
      | Some (dbMin, dbMax) =>
          VolumeControllerDb elem ch dbMin dbMax (long_sub dbMax dbMin)
      | None => VolumeControllerDb elem ch 0 0 0
      end
  end.

Definition new_VolumeControllerLinear (elem : option snd_mixer_elem_t)
  (ch : snd_mixer_selem_channel_id_t) : t :=
  match elem with
  | None => VolumeControllerLinear elem ch 0 0 0
  | Some e =>
      match snd_mixer_selem_get_playback_volume_range e with
      | Some (volMin, volMax) =>
          VolumeControllerLinear elem ch volMin volMax (long_sub volMax volMin)
      | None => VolumeControllerLinear elem ch 0 0 0
      end
  end.

Definition new_VolumeControllerDummy (elem : option snd_mixer_elem_t)
  (ch : snd_mixer_selem_channel_id_t) : t :=
  VolumeControllerDummy elem ch.

(** [volume / 100.0] clamped to [0.0, 1.0]. *)
Definition volumeNorm (volume : Z) : double :=
  Double.clamp (fdiv (of_Z volume) 100%Q) 0%Q 1%Q.

(** [min + lround(volumeNorm * range)], the native value written. *)
Definition native_of (min range volume : Z) : Z :=
  long_add min (lround (fmul (volumeNorm volume) (of_Z range))).

(** [clamp(static_cast<int>(lround(volumeNorm * 100.0)), 0, 100)] where
    [volumeNorm = double(native - min) / double(range)]. *)
Definition percent_of (min range native : Z) : Z :=
  let volumeNorm := fdiv (of_Z (long_sub native min)) (of_Z range) in
  Machine.clamp (int_of_Z (lround (fmul volumeNorm 100%Q))) 0 100.

(** [void setVolume(int volume)] *)
Definition setVolume (c : t) (volume : Z) : State hw unit :=
  match c with
  | VolumeControllerDb mixer_elem channel dbMin _ dbRange =>
      match mixer_elem with
      | None => ret tt
      | Some e =>
          if dbRange <=? 0 then ret tt
          else
            let dB := native_of dbMin dbRange volume in
            set_playback_dB e channel dB 0 ;; ret tt
      end
  | VolumeControllerLinear mixer_elem channel volMin _ volRange =>
      match mixer_elem with
      | None => ret tt
      | Some e =>
          if volRange <=? 0 then ret tt
          else
            let vol := native_of volMin volRange volume in
            set_playback_volume e channel vol ;; ret tt
      end
  | VolumeControllerDummy _ _ => ret tt
  end.

(** [int getVolume()] *)
Definition getVolume (c : t) : State hw Z :=
  match c with
  | VolumeControllerDb mixer_elem channel dbMin _ dbRange =>
      match mixer_elem with
      | None => ret 0
      | Some e =>
          if dbRange <=? 0 then ret 0
          else
            r <- get_playback_dB e channel ;;
            match r with
            | None => ret 0
            | Some dB => ret (percent_of dbMin dbRange dB)
            end
      end
  | VolumeControllerLinear mixer_elem channel volMin _ volRange =>
      match mixer_elem with
      | None => ret 0
      | Some e =>
          if volRange <=? 0 then ret 0
          else
            r <- get_playback_volume e channel ;;
            match r with
            | None => ret 0
            | Some vol => ret (percent_of volMin volRange vol)
            end
      end
  | VolumeControllerDummy _ _ => ret 0
  end.

(** [static VolumeController::create(elem, ch)] *)
Definition create (elem : option snd_mixer_elem_t)
  (ch : snd_mixer_selem_channel_id_t) : t :=
  match elem with
  | None => new_VolumeControllerDummy elem ch
  | Some e =>
      if match snd_mixer_selem_get_playback_dB_range e with
         | Some (dBMin, dBMax) => dBMax >? dBMin
         | None => false
         end
      then new_VolumeControllerDb elem ch
      else if match snd_mixer_selem_get_playback_volume_range e with
              | Some (volMin, volMax) => volMax >? volMin
              | None => false
              end
      then new_VolumeControllerLinear elem ch
      else new_VolumeControllerDummy elem ch
  end.

(** Which of the three classes an object belongs to. *)
Inductive variant : Type := Decibel | Linear | Unsupported.

Definition variant_of (c : t) : variant :=
  match c with
  | VolumeControllerDb _ _ _ _ _ => Decibel
  | VolumeControllerLinear _ _ _ _ _ => Linear
  | VolumeControllerDummy _ _ => Unsupported
  end.

(** The fields [mixer_elem] and [channel] of the base class, and the cached
    minimum and range of a Decibel or Linear controller. *)
Definition mixer_elem (c : t) : option snd_mixer_elem_t :=
  match c with
  | VolumeControllerDb e _ _ _ _ => e
  | VolumeControllerLinear e _ _ _ _ => e
  | VolumeControllerDummy e _ => e
  end.

Definition channel (c : t) : snd_mixer_selem_channel_id_t :=
  match c with
  | VolumeControllerDb _ ch _ _ _ => ch
  | VolumeControllerLinear _ ch _ _ _ => ch
  | VolumeControllerDummy _ ch => ch
  end.

Definition cached_min (c : t) : Z :=
  match c with
  | VolumeControllerDb _ _ m _ _ => m
  | VolumeControllerLinear _ _ m _ _ => m
  | VolumeControllerDummy _ _ => 0
  end.

Definition cached_range (c : t) : Z :=
  match c with
  | VolumeControllerDb _ _ _ _ r => r
  | VolumeControllerLinear _ _ _ _ r => r
  | VolumeControllerDummy _ _ => 0
  end.

(** The native value of the controller's channel as the hardware reports
    it, and the hardware after a native value is written to it, on the
    controller's own scale. *)
Definition read_native (c : t) (s : hw) : option Z :=
  match c, mixer_elem c with
  | VolumeControllerDb _ ch _ _ _, Some e =>
      snd_mixer_selem_get_playback_dB e ch s
  | VolumeControllerLinear _ ch _ _ _, Some e =>
      snd_mixer_selem_get_playback_volume e ch s
  | _, _ => None
  end.

Definition write_native (c : t) (native : Z) (s : hw) : hw :=
  match c, mixer_elem c with
  | VolumeControllerDb _ ch _ _ _, Some e =>
      snd (snd_mixer_selem_set_playback_dB e ch native 0 s)
  | VolumeControllerLinear _ ch _ _ _, Some e =>
      snd (snd_mixer_selem_set_playback_volume e ch native s)
  | _, _ => s
  end.

End WithAlsa.
End VolumeController.

(** ** class AMVolume *)

Module AMVolume.
Section WithAlsa.
Context {alsa : Alsa}.
Import Machine Double.
Local Open Scope state_scope.

Record t : Type := {
  name : string;
  hasLeft : bool;
  hasRight : bool;
  card : Z;
  leftVolumeController : VolumeController.t;
  rightVolumeController : VolumeController.t;
  monoVolumeController : VolumeController.t
}.

(** [AMVolume(int card, snd_mixer_elem_t *elem)] *)
Definition new_AMVolume (card : Z) (elem : snd_mixer_elem_t) : t :=
  {| name := snd_mixer_selem_get_name elem;
     hasLeft :=
       snd_mixer_selem_has_playback_channel elem SND_MIXER_SCHN_FRONT_LEFT;
     hasRight :=
       snd_mixer_selem_has_playback_channel elem SND_MIXER_SCHN_FRONT_RIGHT;
     card := card;
     leftVolumeController :=
       VolumeController.create (Some elem) SND_MIXER_SCHN_FRONT_LEFT;
     rightVolumeController :=
       VolumeController.create (Some elem) SND_MIXER_SCHN_FRONT_RIGHT;
     monoVolumeController :=
       VolumeController.create (Some elem) SND_MIXER_SCHN_MONO |}.

(** [const std::string getName()] *)
Definition getName (v : t) : State hw string := ret (name v).

(** [int getVolume()] *)
Definition getVolume (v : t) : State hw Z :=
  left <- VolumeController.getVolume (leftVolumeController v) ;;
  right <- VolumeController.getVolume (rightVolumeController v) ;;
  mono <- VolumeController.getVolume (monoVolumeController v) ;;
  let resultInt := Machine.max (Machine.max left right) mono in
  ret resultInt.

(** [int getBalance()] *)
Definition getBalance (v : t) : State hw Z :=
  if negb (hasLeft v) || negb (hasRight v) then ret 0
  else
    left <- VolumeController.getVolume (leftVolumeController v) ;;
    right <- VolumeController.getVolume (rightVolumeController v) ;;
    let delta := int_sub right left in
    ret delta.

(** The three-way assignment shared by [setVolume] and [setBalance]:
    the louder side gets [volume], the other side
    [lround(volume * balanceNorm)], passed as an [int]. *)
Definition assign (v : t) (balance volume : Z) (balanceNorm : double)
  : State hw unit :=
  if balance <? 0 then
    VolumeController.setVolume (leftVolumeController v) volume ;;
    VolumeController.setVolume (rightVolumeController v)
      (int_of_Z (lround (fmul (of_Z volume) balanceNorm)))
  else if balance >? 0 then
    VolumeController.setVolume (leftVolumeController v)
      (int_of_Z (lround (fmul (of_Z volume) balanceNorm))) ;;
    VolumeController.setVolume (rightVolumeController v) volume
  else
    VolumeController.setVolume (leftVolumeController v) volume ;;
    VolumeController.setVolume (rightVolumeController v) volume.

(** [void setVolume(int volume)] *)
Definition setVolume (v : t) (volume : Z) : State hw unit :=
  let volume := Machine.clamp volume 0 100 in
  if hasLeft v && hasRight v then
    balance <- getBalance v ;;
    let balanceNorm := fsub 1%Q (fdiv (of_Z (Machine.abs balance)) 100%Q) in
    assign v balance volume balanceNorm
  else
    VolumeController.setVolume (monoVolumeController v) volume.

(** [void setBalance(int balance)] *)
Definition setBalance (v : t) (balance : Z) : State hw unit :=
  if negb (hasLeft v) || negb (hasRight v) then ret tt
  else
    let balance := Machine.clamp balance (-100) 100 in
    let balanceNorm := fdiv (fsub 100%Q (of_Z (Machine.abs balance))) 100%Q in
    volume <- getVolume v ;;
    assign v balance volume balanceNorm.

End WithAlsa.
End AMVolume.

(** The fraction and the percentage of the quieter side as
    [AMVolume::setBalance] computes them, in doubles:
    [balanceNorm = (100.0 - abs(balance)) / 100.0] for [a = abs(balance)],
    and the value of [lround(volume * balanceNorm)]. *)

Module SetBalance.
Import Double.

Definition balanceNorm (a : Z) : double :=
  fdiv (fsub 100%Q (of_Z a)) 100%Q.

Definition other_side (volume balance : Z) : Z :=
  round_half_away (fmul (of_Z volume) (balanceNorm (Z.abs balance))).

End SetBalance.

(** ** class AMixer *)

Module AMixer.
Section WithAlsa.
Context {alsa : Alsa}.

(** What alsa-lib presents for one sound card: its index, whether
    [snd_mixer_open] yields a mixer, whether [snd_mixer_attach],
    [snd_mixer_selem_register] and [snd_mixer_load] return 0 on it, and the
    elements [snd_mixer_first_elem] / [snd_mixer_elem_next] enumerate. *)
Record device : Type := {
  dev_card : Z;
  dev_open : bool;
  dev_attach : bool;
  dev_register : bool;
  dev_load : bool;
  dev_elems : list snd_mixer_elem_t
}.

(** One call of [snd_card_next]: a negative return code, or the next card.
    The end of the sequence of calls stands for the card index -1. *)
Inductive snd_card_next_result : Type :=
| card_error
| card_found (d : device).

(** The fields of the object: [channelsList] and the mixers kept open
    (a mixer is named by the index of its card). *)
Record t : Type := {
  channelsList : list AMVolume.t;
  mixers : list Z
}.

(** The [for] loop over the elements of a loaded mixer. *)
Fixpoint add_elems (card : Z) (elems : list snd_mixer_elem_t)
  (channelsList : list AMVolume.t) : list AMVolume.t :=
  match elems with
  | [] => channelsList
  | elem :: rest =>
      if negb (snd_mixer_selem_is_active elem) then
        add_elems card rest channelsList
      else if negb (snd_mixer_selem_has_playback_volume elem) then
        add_elems card rest channelsList
      else
        let vol := AMVolume.new_AMVolume card elem in
        add_elems card rest (channelsList ++ [vol])
  end.

(** The body of the [while] loop for one card.  A mixer that was opened and
    not loaded is closed and not kept. *)
Definition add_card (d : device) (m : t) : t :=
  if dev_open d then
    if dev_attach d && dev_register d && dev_load d then
      {| channelsList := add_elems (dev_card d) (dev_elems d) (channelsList m);
         mixers := mixers m ++ [dev_card d] |}
    else m
  else m.

(** The [while] loop: it ends when [snd_card_next] fails or reports no
    further card. *)
Fixpoint enumerate (cards : list snd_card_next_result) (m : t) : t :=
  match cards with
  | [] => m
  | card_error :: _ => m
  | card_found d :: rest => enumerate rest (add_card d m)
  end.

(** [AMixer()] *)
Definition new_AMixer (cards : list snd_card_next_result) : t :=
  enumerate cards {| channelsList := []; mixers := [] |}.

(** [channels()] *)
Definition channels (m : t) : list AMVolume.t := channelsList m.

(** The registry as the specification words it: the devices presented
    before enumeration stops, a channel for each active element with
    playback volume of each device that opens, attaches, registers and
    loads, in order. *)
Fixpoint presented (cards : list snd_card_next_result) : list device :=
  match cards with
  | [] => []
  | card_error :: _ => []
  | card_found d :: rest => d :: presented rest
  end.

Definition loaded (d : device) : bool :=
  dev_open d && dev_attach d && dev_register d && dev_load d.

Definition eligible (elem : snd_mixer_elem_t) : bool :=
  snd_mixer_selem_is_active elem && snd_mixer_selem_has_playback_volume elem.

Definition channels_of_device (d : device) : list AMVolume.t :=
  if loaded d then
    map (AMVolume.new_AMVolume (dev_card d)) (filter eligible (dev_elems d))
  else [].

Definition registry_spec (cards : list snd_card_next_result)
  : list AMVolume.t :=
  flat_map channels_of_device (presented cards).

End WithAlsa.
End AMixer.

(** ** The mixers of an [AMixer] over its lifetime *)

Module Lifetime.
Section WithAlsa.
Context {alsa : Alsa}.
Import AMixer.

(** A call of [snd_mixer_open] that yields a mixer, and a call of
    [snd_mixer_close]; a mixer is named by the index of its card. *)
Inductive mixer_call : Type :=
| snd_mixer_open (card : Z)
| snd_mixer_close (card : Z).

(** The calls the body of the [while] loop makes for one card: a mixer that
    does not attach, register and load is closed at once. *)
Definition add_card_calls (d : device) : list mixer_call :=
  if dev_open d then
    snd_mixer_open (dev_card d) ::
    (if dev_attach d && dev_register d && dev_load d then []
     else [snd_mixer_close (dev_card d)])
  else [].

(** The same for the whole constructor [AMixer()]. *)
Fixpoint new_AMixer_calls (cards : list snd_card_next_result)
  : list mixer_call :=
  match cards with
  | [] => []
  | card_error :: _ => []
  | card_found d :: rest => add_card_calls d ++ new_AMixer_calls rest
  end.

(** [~AMixer()]: every mixer kept is closed (none of them is null) and
    [mixers] is cleared. *)
Definition delete_AMixer (m : AMixer.t) : list mixer_call * AMixer.t :=
  (map snd_mixer_close (mixers m),
   {| channelsList := channelsList m; mixers := [] |}).

(** The cards whose mixer a sequence of calls opens, and closes. *)
Fixpoint opened (calls : list mixer_call) : list Z :=
  match calls with
  | [] => []
  | snd_mixer_open c :: rest => c :: opened rest
  | snd_mixer_close _ :: rest => opened rest
  end.

Fixpoint closed (calls : list mixer_call) : list Z :=
  match calls with
  | [] => []
  | snd_mixer_open _ :: rest => closed rest
  | snd_mixer_close c :: rest => c :: closed rest
  end.

End WithAlsa.
End Lifetime.

(** ** amixer_sample.cpp *)

Module Sample.
Section WithAlsa.
Context {alsa : Alsa}.
Import Machine.
Local Open Scope state_scope.
Local Open Scope string_scope.

(** The running program: the sound hardware, the function-local static
    [alsaMixer] of [IMixer::alsaInstance] ([None] before the first call), and
    the lines printed so far. *)
Record process : Type := {
  hardware : hw;
  alsaMixer : option AMixer.t;
  stdout : list string
}.

(** A method of the library called by the program acts on the hardware. *)
Definition call {T : Type} (c : State hw T) : State process T :=
  fun p =>
    let (x, h) := c (hardware p) in
    (x, {| hardware := h; alsaMixer := alsaMixer p; stdout := stdout p |}).

(** [std::println] *)
Definition println (line : string) : State process unit :=
  fun p =>
    (tt, {| hardware := hardware p; alsaMixer := alsaMixer p;
            stdout := stdout p ++ [line] |}).

(** An [int] formatted by [{}]. *)
Definition format_int (z : Z) : string := NilZero.string_of_int (Z.to_int z).

(** [IMixer::alsaInstance()]: the static [AMixer] is constructed by the first
    call, from the cards alsa-lib presents then. *)
Definition alsaInstance (cards : list AMixer.snd_card_next_result)
  : State process AMixer.t :=
  fun p =>
    match alsaMixer p with
    | Some m => (m, p)
    | None =>
        let m := AMixer.new_AMixer cards in
        (m, {| hardware := hardware p; alsaMixer := Some m;
               stdout := stdout p |})
    end.

(** [std::ranges::find_if]: the first element on which the predicate
    returns true, [None] for the end iterator. *)
Fixpoint find_if {S A : Type} (pred : A -> State S bool) (l : list A)
  : State S (option A) :=
  match l with
  | [] => ret None
  | x :: rest =>
      b <- pred x ;;
      if b then ret (Some x) else find_if pred rest
  end.

(** The line the program prints for a channel.  The order in which C++
    evaluates the three arguments is not fixed; the three methods leave the
    hardware as it is, so that it does not matter. *)
Definition print_channel (v : AMVolume.t) : State process unit :=
  name <- call (AMVolume.getName v) ;;
  volume <- call (AMVolume.getVolume v) ;;
  balance <- call (AMVolume.getBalance v) ;;
  println ("Name: '" ++ name ++ "' volume: " ++ format_int volume
           ++ " balance: " ++ format_int balance).

(** [int main()] *)
Definition main (cards : list AMixer.snd_card_next_result)
  : State process Z :=
  println "Hello, World!" ;;
  mixer <- alsaInstance cards ;;
  vi <- find_if
          (fun vol => name <- call (AMVolume.getName vol) ;;
                      ret (name =? "Speaker"))
          (AMixer.channels mixer) ;;
  match vi with
  | None => ret 1
  | Some v =>
      print_channel v ;;
      volume <- call (AMVolume.getVolume v) ;;
      call (AMVolume.setVolume v (int_sub volume 2)) ;;
      print_channel v ;;
      ret 0
  end.

(** The line [print_channel] prints for a channel on hardware [h]. *)
Definition line_of (v : AMVolume.t) (h : hw) : string :=
  "Name: '" ++ AMVolume.name v ++ "' volume: "
  ++ format_int (result (AMVolume.getVolume v) h)
  ++ " balance: " ++ format_int (result (AMVolume.getBalance v) h).

(** The program when it starts. *)
Definition start (h : hw) : process :=
  {| hardware := h; alsaMixer := None; stdout := [] |}.

End WithAlsa.
End Sample.

(** ** A simulated sound card

    An instance of [Alsa] on which the methods can be run: one element with
    a register per channel and scale.  A write stores the value and returns
    0; a read returns the stored value, and fails on an empty register.
    The channel identifiers are those of alsa-lib's [mixer.h], where
    [SND_MIXER_SCHN_MONO] is another name of [SND_MIXER_SCHN_FRONT_LEFT]. *)

Module Sim.

Record elem : Type := {
  el_name : string;
  el_active : bool;
  el_playback_volume : bool;
  el_channels : list Z;
  el_dB_range : option (Z * Z);
  el_volume_range : option (Z * Z)
}.

Record state : Type := {
  dB_reg : Z -> option Z;
  volume_reg : Z -> option Z
}.

Definition store (reg : Z -> option Z) (ch x : Z) : Z -> option Z :=
  fun c => if c =? ch then Some x else reg c.

Definition has_channel (e : elem) (ch : Z) : bool :=
  existsb (Z.eqb ch) (el_channels e).

Definition set_dB (e : elem) (ch dB dir : Z) (s : state) : Z * state :=
  (0, {| dB_reg := store (dB_reg s) ch dB; volume_reg := volume_reg s |}).

Definition set_volume (e : elem) (ch vol : Z) (s : state) : Z * state :=
  (0, {| dB_reg := dB_reg s; volume_reg := store (volume_reg s) ch vol |}).

#[export] Instance alsa : Alsa := {|
  snd_mixer_elem_t := elem;
  hw := state;
  SND_MIXER_SCHN_FRONT_LEFT := 0;
  SND_MIXER_SCHN_FRONT_RIGHT := 1;
  SND_MIXER_SCHN_MONO := 0;
  snd_mixer_selem_get_name := el_name;
  snd_mixer_selem_is_active := el_active;
  snd_mixer_selem_has_playback_volume := el_playback_volume;
  snd_mixer_selem_has_playback_channel := has_channel;
  snd_mixer_selem_get_playback_dB_range := el_dB_range;
  snd_mixer_selem_get_playback_volume_range := el_volume_range;
  snd_mixer_selem_get_playback_dB := fun _ ch s => dB_reg s ch;
  snd_mixer_selem_set_playback_dB := set_dB;
  snd_mixer_selem_get_playback_volume := fun _ ch s => volume_reg s ch;
  snd_mixer_selem_set_playback_volume := set_volume
|}.

(** A stereo element with the decibel range of the specification's
    scenario, a mono element with a coarse linear range, a stereo element
    with a linear range of 100 steps, the mono element of the
    specification's second scenario, one without volume, and two stereo
    elements with linear ranges of 25 and of 40 steps. *)
Definition speaker : elem :=
  {| el_name := "Speaker"; el_active := true; el_playback_volume := true;
     el_channels := [0; 1]; el_dB_range := Some (-5100, 0);
     el_volume_range := Some (0, 87) |}.

Definition beep : elem :=
  {| el_name := "Beep"; el_active := true; el_playback_volume := true;
     el_channels := [0]; el_dB_range := None;
     el_volume_range := Some (0, 3) |}.

Definition pcm : elem :=
  {| el_name := "PCM"; el_active := true; el_playback_volume := true;
     el_channels := [0; 1]; el_dB_range := None;
     el_volume_range := Some (0, 100) |}.

Definition master : elem :=
  {| el_name := "Master"; el_active := true; el_playback_volume := true;
     el_channels := [0]; el_dB_range := Some (-6000, 0);
     el_volume_range := Some (0, 64) |}.

Definition switch : elem :=
  {| el_name := "Auto-Mute"; el_active := true; el_playback_volume := false;
     el_channels := []; el_dB_range := None; el_volume_range := None |}.

Definition mic : elem :=
  {| el_name := "Mic"; el_active := true; el_playback_volume := true;
     el_channels := [0; 1]; el_dB_range := None;
     el_volume_range := Some (0, 25) |}.

Definition headphone : elem :=
  {| el_name := "Headphone"; el_active := true; el_playback_volume := true;
     el_channels := [0; 1]; el_dB_range := None;
     el_volume_range := Some (0, 40) |}.

(** The hardware with every register empty, and with every register at
    a given value. *)
Definition silent : state :=
  {| dB_reg := fun _ => None; volume_reg := fun _ => None |}.

Definition all_at (x : Z) : state :=
  {| dB_reg := fun _ => Some x; volume_reg := fun _ => Some x |}.

(** Controllers and channels built on these elements by [create] and by
    the constructor of [AMVolume]. *)
Definition speaker_left : VolumeController.t :=
  VolumeController.create (Some speaker) SND_MIXER_SCHN_FRONT_LEFT.

Definition beep_mono : VolumeController.t :=
  VolumeController.create (Some beep) SND_MIXER_SCHN_MONO.

Definition pcm_left : VolumeController.t :=
  VolumeController.create (Some pcm) SND_MIXER_SCHN_FRONT_LEFT.

Definition speaker_volume : AMVolume.t := AMVolume.new_AMVolume 0 speaker.
Definition beep_volume : AMVolume.t := AMVolume.new_AMVolume 0 beep.

Definition master_volume : AMVolume.t := AMVolume.new_AMVolume 0 master.

Definition switch_left : VolumeController.t :=
  VolumeController.create (Some switch) SND_MIXER_SCHN_FRONT_LEFT.

Definition mic_left : VolumeController.t :=
  VolumeController.create (Some mic) SND_MIXER_SCHN_FRONT_LEFT.

Definition headphone_left : VolumeController.t :=
  VolumeController.create (Some headphone) SND_MIXER_SCHN_FRONT_LEFT.

(** The hardware with the registers of the left channel (0) and of the
    right channel (1) at given values and every other register empty. *)
Definition sides_at (l r : Z) : state :=
  {| dB_reg := fun ch => if ch =? 0 then Some l
                         else if ch =? 1 then Some r else None;
     volume_reg := fun ch => if ch =? 0 then Some l
                             else if ch =? 1 then Some r else None |}.

Definition stereo_at (x : Z) : state := sides_at x x.

(** What alsa-lib presents on a machine with two sound cards: the mixer of
    the first does not attach, the second loads with five elements. *)
Definition card0 : AMixer.device :=
  {| AMixer.dev_card := 0; AMixer.dev_open := true;
     AMixer.dev_attach := false; AMixer.dev_register := true;
     AMixer.dev_load := true; AMixer.dev_elems := [master] |}.

Definition card1 : AMixer.device :=
  {| AMixer.dev_card := 1; AMixer.dev_open := true;
     AMixer.dev_attach := true; AMixer.dev_register := true;
     AMixer.dev_load := true;
     AMixer.dev_elems := [switch; master; speaker; pcm; beep] |}.

Definition cards : list AMixer.snd_card_next_result :=
  [AMixer.card_found card0; AMixer.card_found card1].

(** The channels of the registry, all on the second card. *)
Definition master_on_card1 : AMVolume.t := AMVolume.new_AMVolume 1 master.
Definition speaker_on_card1 : AMVolume.t := AMVolume.new_AMVolume 1 speaker.
Definition pcm_on_card1 : AMVolume.t := AMVolume.new_AMVolume 1 pcm.
Definition beep_on_card1 : AMVolume.t := AMVolume.new_AMVolume 1 beep.

End Sim.

(** ** Bounded checks *)

(** [P] holds of every integer from 0 below [n]. *)
Fixpoint all_below (n : nat) (P : Z -> bool) : bool :=
  match n with
  | O => true
  | S k => P (Z.of_nat k) && all_below k P
  end.

(** [P] holds of some integer from 0 below [n]. *)
Fixpoint exists_below (n : nat) (P : Z -> bool) : bool :=
  match n with
  | O => false
  | S k => P (Z.of_nat k) || exists_below k P
  end.

(** ** The specification's formulas

    Written from the words of the specification, to be compared with the
    methods above.  The arithmetic is exact: a fraction is a rational
    number, and [round] is the nearest integer, halves away from zero. *)

Module Spec.
Import Machine Double.
Local Open Scope Q_scope.

(** "clamps input to [0,100] ... normalize to [0,1] fraction, compute
    native = min + round(fraction * range)". *)
Definition native (min range volume : Z) : Z :=
  let percentage := Machine.clamp volume 0 100 in
  let fraction := inject_Z percentage / 100 in
  (min + round_half_away (fraction * inject_Z range))%Z.

(** "computes fraction = (native - min) / range, converts to percentage via
    round(fraction * 100), clamps to [0,100]". *)
Definition rounded_percentage (min range native : Z) : Z :=
  let fraction := inject_Z (native - min) / inject_Z range in
  round_half_away (fraction * 100).

Definition percentage (min range native : Z) : Z :=
  Machine.clamp (rounded_percentage min range native) 0 100.

(** "round-half-away-from-zero": the nearest integer, the one of larger
    magnitude when two are as near. *)
Definition nearest_half_away (x : Q) (n : Z) : Prop :=
  (0 <= x -> x - (1 # 2) < inject_Z n <= x + (1 # 2)) /\
  (x < 0 -> x - (1 # 2) <= inject_Z n < x + (1 # 2)).

(** "Compute balanceFraction = (100 - |balance|)/100", for [a = |balance|];
    "the other side to round(percentage * balanceFraction)". *)
Definition balanceFraction (a : Z) : Q := (100 - inject_Z a) / 100.

Definition other_side (volume balance : Z) : Z :=
  round_half_away (inject_Z volume * balanceFraction (Z.abs balance)).

Local Close Scope Q_scope.

(** "query ... succeeds and yields a strictly positive range". *)
Definition positive_range (query : option (Z * Z)) : Prop :=
  exists min max, query = Some (min, max) /\ 0 < max - min.

Section WithAlsa.
Context {alsa : Alsa}.
Import VolumeController.

(** "the hardware read returning exactly the value just written": the
    read that follows [setVolume c p] yields the native value it wrote. *)
Definition reads_back_written (c : VolumeController.t) (p : Z) (s : hw)
  : Prop :=
  read_native c (after (setVolume c p) s)
  = Some (native_of (cached_min c) (cached_range c) p).

(** On the channel of [c], a read that succeeds after a write returns the
    value written. *)
Definition channel_reads_back (c : VolumeController.t) : Prop :=
  forall x s native,
    read_native c (write_native c x s) = Some native -> native = x.

(** The hardware state of one channel: what the getters report for it. *)
Definition same_channel_state (ch : snd_mixer_selem_channel_id_t) (s s' : hw)
  : Prop :=
  forall e,
    snd_mixer_selem_get_playback_dB e ch s'
    = snd_mixer_selem_get_playback_dB e ch s /\
    snd_mixer_selem_get_playback_volume e ch s'
    = snd_mixer_selem_get_playback_volume e ch s.

(** A write to one channel leaves the state of every other channel. *)
Definition writes_are_local : Prop :=
  forall e ch x dir s ch', ch' <> ch ->
    same_channel_state ch' s
      (snd (snd_mixer_selem_set_playback_dB e ch x dir s)) /\
    same_channel_state ch' s
      (snd (snd_mixer_selem_set_playback_volume e ch x s)).

End WithAlsa.
End Spec.

(** ** Assumptions on the sound hardware *)

Module Hardware.
Section WithAlsa.
Context {alsa : Alsa}.

(** A write is stored: the read that follows it on the same element,
    channel and scale succeeds and returns the value written. *)
Definition stores_writes : Prop :=
  forall e ch x s,
    (forall dir,
       snd_mixer_selem_get_playback_dB e ch
         (snd (snd_mixer_selem_set_playback_dB e ch x dir s)) = Some x) /\
    snd_mixer_selem_get_playback_volume e ch
      (snd (snd_mixer_selem_set_playback_volume e ch x s)) = Some x.

(** Writes are stored and touch no other channel; left and right are two
    channels. *)
Definition faithful : Prop :=
  stores_writes /\ Spec.writes_are_local /\
  SND_MIXER_SCHN_FRONT_LEFT <> SND_MIXER_SCHN_FRONT_RIGHT.

(** The cached range of a controller is one the doubles resolve: positive
    and at most [2 ^ 42], with the minimum and the maximum in [long]. *)
Definition range_fits (c : VolumeController.t) : Prop :=
  1 <= VolumeController.cached_range c <= 2 ^ 42 /\
  Machine.in_long (VolumeController.cached_min c) /\
  Machine.in_long
    (VolumeController.cached_min c + VolumeController.cached_range c).

(** The range is fine: at least 100 native steps, so that every percentage
    has a native value of its own. *)
Definition fine_range (c : VolumeController.t) : Prop :=
  100 <= VolumeController.cached_range c /\ range_fits c.

End WithAlsa.
End Hardware.

(** * Facts about the machine arithmetic *)

Section MachineFacts.
Import Machine.

Lemma long_of_Z_small (z : Z) : in_long z -> long_of_Z z = z.
Proof.
  unfold in_long, LONG_MIN, LONG_MAX, long_of_Z, wrap. intros H.
  rewrite Z.mod_small; lia.
Qed.

Lemma int_of_Z_small (z : Z) : in_int z -> int_of_Z z = z.
Proof.
  unfold in_int, INT_MIN, INT_MAX, int_of_Z, wrap. intros H.
  rewrite Z.mod_small; lia.
Qed.

Lemma long_sub_add (m k : Z) : long_sub (long_add m k) m = long_of_Z k.
Proof.
  unfold long_sub, long_add, long_of_Z, wrap. f_equal.
  replace ((m + k + 2 ^ (64 - 1)) mod 2 ^ 64 - 2 ^ (64 - 1) - m + 2 ^ (64 - 1))
    with ((m + k + 2 ^ (64 - 1)) mod 2 ^ 64 - m) by lia.
  rewrite Zminus_mod_idemp_l. f_equal. lia.
Qed.

Lemma clamp_range (v lo hi : Z) : lo <= hi -> lo <= Machine.clamp v lo hi <= hi.
Proof.
  intros H. unfold Machine.clamp.
  destruct (Z.ltb_spec v lo); [lia|]. destruct (Z.ltb_spec hi v); lia.
Qed.

Lemma clamp_id (v lo hi : Z) : lo <= v <= hi -> Machine.clamp v lo hi = v.
Proof.
  intros H. unfold Machine.clamp.
  destruct (Z.ltb_spec v lo); [lia|]. destruct (Z.ltb_spec hi v); lia.
Qed.


Lemma max_is_Zmax (a b : Z) : Machine.max a b = Z.max a b.
Proof. unfold Machine.max. destruct (Z.ltb_spec a b); lia. Qed.

Lemma long_add_long_of_Z (m k : Z) : long_add m (long_of_Z k) = long_of_Z (m + k).
Proof.
  unfold long_add, long_of_Z, wrap. f_equal.
  replace (m + ((k + 2 ^ (64 - 1)) mod 2 ^ 64 - 2 ^ (64 - 1)) + 2 ^ (64 - 1))
    with (m + (k + 2 ^ (64 - 1)) mod 2 ^ 64) by lia.
  rewrite Zplus_mod_idemp_r. f_equal. lia.
Qed.

Lemma lround_small (x : Q) :
  in_long (Double.round_half_away x) ->
  Double.lround x = Double.round_half_away x.
Proof.
  unfold in_long, Double.lround. intros [H1 H2].
  apply Z.leb_le in H1, H2. rewrite H1, H2. reflexivity.
Qed.

Lemma all_below_spec (n : nat) (P : Z -> bool) :
  all_below n P = true -> forall z, 0 <= z < Z.of_nat n -> P z = true.
Proof.
  induction n as [|k IH]; intros H z Hz; [lia|].
  cbn [all_below] in H. apply andb_prop in H as [Hk Hrest].
  destruct (Z.eq_dec z (Z.of_nat k)) as [->|Hne]; [exact Hk|].
  apply IH; [exact Hrest | lia].
Qed.

End MachineFacts.

(** * Facts about binary64 rounding

    The standard model of rounding error: in the normal range the rounded
    value is within a relative [eps = 2 ^ -53] of the exact one. *)

Section RoundingFacts.
Import Machine Double.
Local Open Scope Q_scope.

Ltac div100 := unfold Qdiv in *; change (/ 100) with (1 # 100) in *.

Lemma pow2_pos (e : Z) : 0 < 2 ^ e.
Proof. apply Qpower_0_lt. reflexivity. Qed.

Lemma pow2_add (a b : Z) : 2 ^ (a + b) == 2 ^ a * 2 ^ b.
Proof. apply Qpower_plus. discriminate. Qed.

Lemma pow2_le (a b : Z) : (a <= b)%Z -> 2 ^ a <= 2 ^ b.
Proof. intros H. apply Qpower_le_compat_l; [exact H | discriminate]. Qed.

Lemma pow2_lt_inv (a b : Z) : 2 ^ a < 2 ^ b -> (a < b)%Z.
Proof. intros H. apply (Qpower_lt_compat_l_inv 2); [exact H | reflexivity]. Qed.

Lemma pow2_inject (n : Z) : (0 <= n)%Z -> inject_Z (2 ^ n) == 2 ^ n.
Proof. intros H. apply (Zpower_Qpower 2 n H). Qed.

Lemma pow2_sub (a b : Z) : 2 ^ (a - b) == 2 ^ a / 2 ^ b.
Proof. apply Qpower_minus. discriminate. Qed.

(** ratio of integers *)
Lemma Zratio_le (a b c d : Z) :
  (0 < b)%Z -> (0 < d)%Z -> (a * d <= c * b)%Z ->
  inject_Z a / inject_Z b <= inject_Z c / inject_Z d.
Proof.
  intros Hb Hd H.
  destruct b as [|b|b]; try lia. destruct d as [|d|d]; try lia.
  rewrite <- !Qmake_Qdiv. unfold Qle; simpl. exact H.
Qed.

Lemma Zratio_lt (a b c d : Z) :
  (0 < b)%Z -> (0 < d)%Z -> (a * d < c * b)%Z ->
  inject_Z a / inject_Z b < inject_Z c / inject_Z d.
Proof.
  intros Hb Hd H.
  destruct b as [|b|b]; try lia. destruct d as [|d|d]; try lia.
  rewrite <- !Qmake_Qdiv. unfold Qlt; simpl. exact H.
Qed.

Lemma Qpos_num (x : Q) : 0 < x -> (0 < Qnum x)%Z.
Proof. destruct x as [n d]. unfold Qlt; simpl. lia. Qed.

Lemma ilog2_lower (x : Q) : 0 < x -> 2 ^ ilog2 x <= x.
Proof.
  intros Hx. unfold ilog2.
  destruct (Qle_bool _ x) eqn:E.
  - apply Qle_bool_iff in E. exact E.
  - pose proof (Qpos_num x Hx) as Hn.
    destruct x as [n d]; cbn [Qnum Qden] in *.
    pose proof (Z.log2_spec n Hn) as [Hn1 _].
    pose proof (Z.log2_spec (Zpos d) eq_refl) as [_ Hd2].
    pose proof (Z.log2_nonneg n). pose proof (Z.log2_nonneg (Zpos d)).
    replace (Z.log2 n - Z.log2 (Zpos d) - 1)%Z
      with (Z.log2 n - Z.succ (Z.log2 (Zpos d)))%Z by lia.
    rewrite pow2_sub.
    rewrite <- (pow2_inject (Z.log2 n)), <- (pow2_inject (Z.succ _)) by lia.
    rewrite (Qmake_Qdiv n d).
    apply Zratio_le; try lia.
    assert (0 < 2 ^ Z.log2 n)%Z by (apply Z.pow_pos_nonneg; lia).
    nia.
Qed.

Lemma ilog2_upper (x : Q) : 0 < x -> x < 2 ^ (ilog2 x + 1).
Proof.
  intros Hx. unfold ilog2.
  destruct (Qle_bool _ x) eqn:E.
  - pose proof (Qpos_num x Hx) as Hn.
    destruct x as [n d]; cbn [Qnum Qden] in *.
    pose proof (Z.log2_spec n Hn) as [_ Hn2].
    pose proof (Z.log2_spec (Zpos d) eq_refl) as [Hd1 _].
    pose proof (Z.log2_nonneg n). pose proof (Z.log2_nonneg (Zpos d)).
    replace (Z.log2 n - Z.log2 (Zpos d) + 1)%Z
      with (Z.succ (Z.log2 n) - Z.log2 (Zpos d))%Z by lia.
    rewrite pow2_sub.
    rewrite <- (pow2_inject (Z.succ _)), <- (pow2_inject (Z.log2 (Zpos d))) by lia.
    rewrite (Qmake_Qdiv n d).
    apply Zratio_lt; try lia.
    assert (0 < 2 ^ Z.log2 (Zpos d))%Z by (apply Z.pow_pos_nonneg; lia).
    nia.
  - replace (Z.log2 (Qnum x) - Z.log2 (Zpos (Qden x)) - 1 + 1)%Z
      with (Z.log2 (Qnum x) - Z.log2 (Zpos (Qden x)))%Z by lia.
    apply Qnot_le_lt. intros H. apply Qle_bool_iff in H. congruence.
Qed.

Lemma round_half_even_error (y : Q) :
  y - (1 # 2) <= inject_Z (round_half_even y) <= y + (1 # 2).
Proof.
  unfold round_half_even.
  pose proof (Qfloor_le y) as Hl. pose proof (Qlt_floor y) as Hu.
  rewrite inject_Z_plus in Hu. change (inject_Z 1) with 1 in Hu.
  destruct (Qcompare_spec (y - inject_Z (Qfloor y)) (1 # 2)) as [E|E|E].
  - destruct (Z.even (Qfloor y));
      rewrite ?inject_Z_plus; change (inject_Z 1) with 1; lra.
  - lra.
  - rewrite inject_Z_plus. change (inject_Z 1) with 1. lra.
Qed.

Lemma rnd_eq (x y : Q) : x == y -> rnd x = rnd y.
Proof. intros H. unfold rnd. rewrite (Qred_complete x y H). reflexivity. Qed.

Lemma rnd_zero (x : Q) : x == 0 -> rnd x = 0.
Proof. intros H. rewrite (rnd_eq x 0 H). reflexivity. Qed.

Lemma ilog2_normal (y : Q) : tiny <= y -> (-1022 <= ilog2 y)%Z.
Proof.
  intros H.
  assert (0 < y) as Hy.
  { apply Qlt_le_trans with tiny; [apply pow2_pos | exact H]. }
  pose proof (ilog2_upper y Hy) as Hu.
  assert (2 ^ (-1022) < 2 ^ (ilog2 y + 1)) as Hlt.
  { apply Qle_lt_trans with y; assumption. }
  apply pow2_lt_inv in Hlt. lia.
Qed.

Lemma rnd_core_error (y : Q) :
  tiny <= Qabs y -> Qabs (rnd_core y - y) <= Qabs y * eps.
Proof.
  intros H.
  assert (0 < Qabs y) as Hy.
  { apply Qlt_le_trans with tiny; [apply pow2_pos | exact H]. }
  unfold rnd_core.
  destruct (Qeq_bool y 0) eqn:E.
  { apply Qeq_bool_iff in E. rewrite E in Hy. discriminate Hy. }
  pose proof (ilog2_normal _ H) as He.
  pose proof (ilog2_lower _ Hy) as Hlo.
  unfold ulp_exp, prec, emin.
  rewrite Z.max_l by lia.
  set (e := ilog2 (Qabs y)) in *.
  replace (e - (53 - 1))%Z with (e + (-52))%Z by lia.
  pose proof (pow2_pos e) as HP.
  pose proof (pow2_add e (-52)) as Hq.
  set (q := 2 ^ (e + -52)) in *.
  set (P := 2 ^ e) in *.
  assert (q == P * (1 # 4503599627370496)) as Hq' by (rewrite Hq; reflexivity).
  assert (0 < q) as Hqpos by (rewrite Hq'; lra).
  pose proof (round_half_even_error (y / q)) as [H1 H2].
  set (m := inject_Z (round_half_even (y / q))) in *.
  assert (y == (y / q) * q) as Hyq by (field; lra).
  set (t := y / q) in *.
  assert (- (q * (1 # 2)) <= (m - t) * q <= q * (1 # 2)) as [H3 H4].
  { split; nra. }
  apply Qabs_Qle_condition. unfold eps.
  split.
  - setoid_replace (m * q - y) with ((m - t) * q) by (rewrite Hyq at 1; ring).
    lra.
  - setoid_replace (m * q - y) with ((m - t) * q) by (rewrite Hyq at 1; ring).
    lra.
Qed.

Lemma rnd_error (x : Q) :
  tiny <= Qabs x -> Qabs (rnd x - x) <= Qabs x * eps.
Proof.
  intros H. unfold rnd.
  pose proof (Qred_correct x) as Hy.
  set (y := Qred x) in *.
  assert (tiny <= Qabs y) as H' by (rewrite Hy; exact H).
  pose proof (rnd_core_error y H') as Hc.
  rewrite Qred_correct. rewrite <- Hy. exact Hc.
Qed.

Lemma normal_of_ge (x : Q) : (1 # 2 ^ 70) <= x -> tiny <= x.
Proof.
  intros H. apply Qle_trans with (1 # 2 ^ 70); [|exact H].
  vm_compute. discriminate.
Qed.

(** For a non-negative argument. *)
Lemma rnd_bounds (x : Q) :
  x == 0 \/ (1 # 2 ^ 70) <= x ->
  x * (1 - eps) <= rnd x <= x * (1 + eps).
Proof.
  intros [H|H].
  - rewrite (rnd_zero x H). rewrite H. split; discriminate.
  - assert (0 < x) as Hx by (apply Qlt_le_trans with (1 # 2 ^ 70); [reflexivity | exact H]).
    pose proof (rnd_error x) as He.
    rewrite (Qabs_pos x) in He by lra.
    specialize (He (normal_of_ge x H)).
    apply Qabs_Qle_condition in He. unfold eps in *. lra.
Qed.

Lemma rnd_bounds_neg (x : Q) :
  x <= - (1 # 2 ^ 70) ->
  x * (1 + eps) <= rnd x <= x * (1 - eps).
Proof.
  intros H.
  pose proof (rnd_error x) as He.
  rewrite (Qabs_neg x) in He.
  2:{ apply Qle_trans with (- (1 # 2 ^ 70)); [exact H | discriminate]. }
  assert (tiny <= - x) as Ht.
  { apply normal_of_ge. lra. }
  specialize (He Ht).
  apply Qabs_Qle_condition in He. unfold eps in *. lra.
Qed.

Lemma round_half_away_error (x : Q) :
  x - (1 # 2) <= inject_Z (round_half_away x) <= x + (1 # 2).
Proof.
  unfold round_half_away. destruct (Qle_bool 0 x).
  - pose proof (Qfloor_le (x + (1 # 2))). pose proof (Qlt_floor (x + (1 # 2))) as Hu.
    rewrite inject_Z_plus in Hu. change (inject_Z 1) with 1 in Hu. lra.
  - pose proof (Qle_ceiling (x - (1 # 2))). pose proof (Qceiling_lt (x - (1 # 2))) as Hu.
    unfold Z.sub in Hu. rewrite inject_Z_plus in Hu. change (inject_Z (- (1))) with (- (1)) in Hu. lra.
Qed.

Lemma round_half_away_eq (x y : Q) :
  x == y -> round_half_away x = round_half_away y.
Proof.
  intros H. unfold round_half_away.
  assert (Qle_bool 0 x = Qle_bool 0 y) as ->.
  { apply eq_true_iff_eq. rewrite !Qle_bool_iff, H. reflexivity. }
  destruct (Qle_bool 0 y); rewrite H; reflexivity.
Qed.

Lemma round_half_away_nonneg (x : Q) : 0 <= x -> (0 <= round_half_away x)%Z.
Proof.
  intros H. unfold round_half_away.
  apply Qle_bool_iff in H. rewrite H. apply Qle_bool_iff in H.
  change 0%Z with (Qfloor 0). apply Qfloor_resp_le. lra.
Qed.

(** The integer nearest to a rational within a half of an integer. *)
Lemma round_half_away_near (x : Q) (lo hi : Z) :
  inject_Z lo - (1 # 2) <= x -> x < inject_Z hi + (1 # 2) -> 0 <= x ->
  (lo <= round_half_away x <= hi)%Z.
Proof.
  intros Hl Hh H0. unfold round_half_away.
  apply Qle_bool_iff in H0. rewrite H0.
  split.
  - rewrite <- (Qfloor_Z lo). apply Qfloor_resp_le. lra.
  - assert (Qfloor (x + (1 # 2)) < hi + 1)%Z; [|lia].
    rewrite Zlt_Qlt. apply Qle_lt_trans with (x + (1 # 2)); [apply Qfloor_le|].
    rewrite inject_Z_plus. change (inject_Z 1) with 1. lra.
Qed.


Lemma of_Z_bounds (z : Z) :
  (0 <= z)%Z -> inject_Z z * (1 - eps) <= of_Z z <= inject_Z z * (1 + eps).
Proof.
  intros H. unfold of_Z. apply rnd_bounds.
  destruct (Z.eq_dec z 0) as [->|Hz].
  - left. reflexivity.
  - right. apply Qle_trans with 1; [discriminate|].
    change 1 with (inject_Z 1). rewrite <- Zle_Qle. lia.
Qed.

Lemma of_Z_neg (z : Z) : (z < 0)%Z -> of_Z z <= inject_Z z * (1 - eps).
Proof.
  intros H. unfold of_Z. apply rnd_bounds_neg.
  apply Qle_trans with (- (1)); [|discriminate].
  change (- (1)) with (inject_Z (-1)). rewrite <- Zle_Qle. lia.
Qed.

Lemma of_Z_zero : of_Z 0 = 0.
Proof. reflexivity. Qed.

Lemma mul_le_mono (a b c d : Q) :
  0 <= a -> 0 <= b -> a <= c -> b <= d -> a * b <= c * d.
Proof.
  intros Ha Hb Hac Hbd.
  apply Qle_trans with (c * b).
  - apply Qmult_le_compat_r; assumption.
  - rewrite (Qmult_comm c b), (Qmult_comm c d).
    apply Qmult_le_compat_r; [assumption | lra].
Qed.

Lemma fltb_false (a b : Q) : b <= a -> fltb a b = false.
Proof. intros H. unfold fltb. apply Qle_bool_iff in H. rewrite H. reflexivity. Qed.

Lemma fltb_true (a b : Q) : a < b -> fltb a b = true.
Proof.
  intros H. unfold fltb. destruct (Qle_bool b a) eqn:E; [|reflexivity].
  apply Qle_bool_iff in E. lra.
Qed.

Lemma fltb_spec (a b : Q) : BoolSpec (a < b) (b <= a) (fltb a b).
Proof.
  unfold fltb. destruct (Qle_bool b a) eqn:E; constructor.
  - apply Qle_bool_iff. exact E.
  - apply Qnot_le_lt. intros H. apply Qle_bool_iff in H. congruence.
Qed.

Lemma fraction_bounds (p : Z) :
  (0 <= p <= 100)%Z ->
  let f := fdiv (of_Z p) 100 in
  inject_Z p / 100 * (1 - c3) <= f <= inject_Z p / 100 * (1 + c3).
Proof.
  intros Hp f.
  pose proof (of_Z_bounds p (proj1 Hp)) as [A1 A2].
  assert (0 <= inject_Z p) as Hp0.
  { change 0 with (inject_Z 0). rewrite <- Zle_Qle. lia. }
  assert (of_Z p / 100 == 0 \/ (1 # 2 ^ 70) <= of_Z p / 100) as Hn.
  { destruct (Z.eq_dec p 0) as [->|Hz].
    - left. reflexivity.
    - right. assert (1 <= inject_Z p).
      { change 1 with (inject_Z 1). rewrite <- Zle_Qle. lia. }
      unfold eps in *.
      apply Qle_trans with ((1 - (1 # 9007199254740992)) / 100); [discriminate|].
      div100. lra. }
  pose proof (rnd_bounds _ Hn) as [F1 F2]. fold (fdiv (of_Z p) 100) in F1, F2. fold f in F1, F2.
  unfold eps, c3 in *. div100. split; lra.
Qed.

Lemma volumeNorm_bounds (p : Z) :
  (0 <= p <= 100)%Z ->
  let vn := VolumeController.volumeNorm p in
  inject_Z p / 100 * (1 - c3) <= vn <= inject_Z p / 100 * (1 + c3) /\
  0 <= vn <= 1.
Proof.
  intros Hp vn.
  pose proof (fraction_bounds p Hp) as [F1 F2]. cbv zeta in F1, F2.
  assert (0 <= inject_Z p <= 100) as [Hp0 Hp1].
  { split; [change 0 with (inject_Z 0) | change 100 with (inject_Z 100)];
      rewrite <- Zle_Qle; lia. }
  subst vn. unfold VolumeController.volumeNorm, Double.clamp.
  set (f := fdiv (of_Z p) 100) in *.
  unfold c3 in *. div100.
  destruct (fltb_spec f 0); [lra|].
  destruct (fltb_spec 1 f); split; lra.
Qed.

Lemma inject_Z_nonneg (z : Z) : (0 <= z)%Z -> 0 <= inject_Z z.
Proof. intros H. change 0 with (inject_Z 0). rewrite <- Zle_Qle. exact H. Qed.

Lemma inject_Z_ge1 (z : Z) : (1 <= z)%Z -> 1 <= inject_Z z.
Proof. intros H. change 1 with (inject_Z 1). rewrite <- Zle_Qle. exact H. Qed.

Lemma product_bounds (p r : Z) :
  (0 <= p <= 100)%Z -> (1 <= r)%Z ->
  let X := fmul (VolumeController.volumeNorm p) (of_Z r) in
  0 <= X /\
  inject_Z p * inject_Z r * (1 - c8) <= 100 * X <=
  inject_Z p * inject_Z r * (1 + c8).
Proof.
  intros Hp Hr X.
  pose proof (volumeNorm_bounds p Hp) as [[V1 V2] [V3 V4]]. cbv zeta in *.
  pose proof (of_Z_bounds r ltac:(lia)) as [R1 R2].
  pose proof (inject_Z_nonneg p (proj1 Hp)) as Hp0.
  pose proof (inject_Z_ge1 r Hr) as Hr1.
  set (vn := VolumeController.volumeNorm p) in *.
  set (R := of_Z r) in *. set (P := inject_Z p) in *. set (r' := inject_Z r) in *.
  unfold eps, c3, c8 in *. div100.
  assert (vn * R <= (P * (1 # 100) * (1 + (3 # 9007199254740992))) *
                    (r' * (1 + (1 # 9007199254740992)))) as U.
  { apply mul_le_mono; lra. }
  assert ((P * (1 # 100) * (1 - (3 # 9007199254740992))) *
          (r' * (1 - (1 # 9007199254740992))) <= vn * R) as L.
  { apply mul_le_mono; lra. }
  assert (0 <= P * r') as HPr by (apply Qmult_le_0_compat; lra).
  assert (vn * R == 0 \/ (1 # 2 ^ 70) <= vn * R) as Hn.
  { destruct (Z.eq_dec p 0) as [->|Hz].
    - left. change (inject_Z 0) with 0 in *. subst P.
      assert (vn == 0) as -> by lra. ring.
    - right. assert (1 <= P) by (apply inject_Z_ge1; lia).
      eapply Qle_trans; [|apply L].
      apply Qle_trans with
        ((1 * (1 # 100) * (1 - (3 # 9007199254740992))) *
         (1 * (1 - (1 # 9007199254740992)))); [discriminate|].
      apply mul_le_mono; lra. }
  pose proof (rnd_bounds _ Hn) as [X1 X2].
  fold (fmul vn R) in X1, X2. fold X in X1, X2.
  unfold eps in *.
  assert (0 <= vn * R) by (apply Qmult_le_0_compat; lra).
  split; [lra|]. split; lra.
Qed.

Lemma percent_bounds (k r : Z) :
  (0 <= k)%Z -> (1 <= r <= 2 ^ 63)%Z ->
  let y := fmul (fdiv (of_Z k) (of_Z r)) 100 in
  0 <= y /\
  100 * inject_Z k * (1 - c8) <= y * inject_Z r <=
  100 * inject_Z k * (1 + c8).
Proof.
  intros Hk Hr y.
  pose proof (of_Z_bounds k Hk) as [K1 K2].
  pose proof (of_Z_bounds r ltac:(lia)) as [R1 R2].
  pose proof (inject_Z_nonneg k Hk) as Hk0.
  pose proof (inject_Z_ge1 r (proj1 Hr)) as Hr1.
  assert (inject_Z r <= 9223372036854775808) as Hr2.
  { change 9223372036854775808 with (inject_Z (2 ^ 63)). rewrite <- Zle_Qle. lia. }
  subst y. unfold fdiv.
  set (K := of_Z k) in *. set (R := of_Z r) in *.
  set (k' := inject_Z k) in *. set (r' := inject_Z r) in *.
  unfold eps, c8 in *.
  assert (0 < R) as HR by lra.
  set (t := K / R).
  assert (t * R == K) as HtR by (unfold t; field; lra).
  assert (0 <= t) as Ht.
  { unfold t. apply Qle_shift_div_l; lra. }
  assert (t == 0 \/ (1 # 2 ^ 69) <= t) as Hn.
  { destruct (Z.eq_dec k 0) as [->|Hz].
    - left. unfold t. subst K. rewrite of_Z_zero. unfold Qdiv. ring.
    - right. assert (1 <= k') by (apply inject_Z_ge1; lia).
      unfold t. apply Qle_shift_div_l; [lra|].
      apply Qle_trans with ((1 # 2 ^ 69) * (9223372036854775808 * (1 + (1 # 9007199254740992)))).
      + apply mul_le_mono; [discriminate | lra | apply Qle_refl | lra].
      + apply Qle_trans with (1 - (1 # 9007199254740992)); [discriminate | lra]. }
  assert (t == 0 \/ (1 # 2 ^ 70) <= t) as Hn'.
  { destruct Hn as [Hn|Hn]; [left; exact Hn | right].
    apply Qle_trans with (1 # 2 ^ 69); [discriminate | exact Hn]. }
  pose proof (rnd_bounds t Hn') as [Y1 Y2].
  set (y1 := rnd t) in *. unfold eps in *.
  assert (0 <= y1) as Hy1 by lra.
  assert (y1 * 100 == 0 \/ (1 # 2 ^ 70) <= y1 * 100) as Hm.
  { destruct Hn as [Hn|Hn].
    - left. assert (y1 == 0) as -> by lra. ring.
    - right. apply Qle_trans with ((1 # 2 ^ 69) * (1 - (1 # 9007199254740992)) * 100);
        [discriminate | lra]. }
  pose proof (rnd_bounds _ Hm) as [Z1 Z2].
  fold (fmul y1 100) in Z1, Z2. set (y := fmul y1 100) in *. unfold eps in *.
  assert (0 <= y) as Hy by lra.
  assert (y * R <= (t * (1 + (1 # 9007199254740992)) * 100 * (1 + (1 # 9007199254740992))) * R) as U.
  { apply Qmult_le_compat_r; lra. }
  assert ((t * (1 - (1 # 9007199254740992)) * 100 * (1 - (1 # 9007199254740992))) * R <= y * R) as L.
  { apply Qmult_le_compat_r; lra. }
  assert (y * (r' * (1 - (1 # 9007199254740992))) <= y * R) as U'.
  { rewrite !(Qmult_comm y). apply Qmult_le_compat_r; lra. }
  assert (y * R <= y * (r' * (1 + (1 # 9007199254740992)))) as L'.
  { rewrite !(Qmult_comm y). apply Qmult_le_compat_r; lra. }
  split; [exact Hy|]. split; lra.
Qed.

Lemma percent_of_native_of (min range p : Z) :
  (0 <= p <= 100)%Z -> (34 <= range <= 2 ^ 62)%Z ->
  (p - 1 <= VolumeController.percent_of min range
              (VolumeController.native_of min range p) <= p + 1)%Z.
Proof.
  intros Hp Hr.
  pose proof (product_bounds p range Hp ltac:(lia)) as [X0 [X1 X2]].
  cbv zeta in *.
  set (X := fmul (VolumeController.volumeNorm p) (of_Z range)) in *.
  pose proof (round_half_away_error X) as [k1 k2].
  pose proof (round_half_away_nonneg X X0) as k0.
  pose proof (inject_Z_nonneg p (proj1 Hp)) as Hp0.
  assert (inject_Z p <= 100) as Hp1.
  { change 100 with (inject_Z 100). rewrite <- Zle_Qle. lia. }
  assert (34 <= inject_Z range <= 4611686018427387904) as [Hr1 Hr2].
  { split; [change 34 with (inject_Z 34) |
            change 4611686018427387904 with (inject_Z (2 ^ 62))];
      rewrite <- Zle_Qle; lia. }
  assert (inject_Z p * inject_Z range <= 100 * inject_Z range) as Hpr.
  { apply Qmult_le_compat_r; lra. }
  assert (0 <= inject_Z p * inject_Z range) as Hpr0.
  { apply Qmult_le_0_compat; lra. }
  set (k := round_half_away X) in *.
  assert (in_long k) as Hk.
  { unfold in_long, LONG_MIN, LONG_MAX. split; [lia|].
    assert (inject_Z k < inject_Z (2 ^ 63)); [|rewrite <- Zlt_Qlt in *; lia].
    change (inject_Z (2 ^ 63)) with 9223372036854775808.
    unfold c8 in *. lra. }
  assert (VolumeController.native_of min range p = long_add min k) as ->.
  { unfold VolumeController.native_of. fold X.
    rewrite (lround_small X Hk). reflexivity. }
  pose proof (percent_bounds k range k0 ltac:(lia)) as [Y0 [Y1 Y2]].
  cbv zeta in *.
  set (y := fmul (fdiv (of_Z k) (of_Z range)) 100) in *.
  assert (inject_Z (p - 1) - (1 # 2) <= y /\ y < inject_Z (p + 1) + (1 # 2))
    as [L U].
  { unfold Z.sub. rewrite !inject_Z_plus.
    change (inject_Z 1) with 1. change (inject_Z (- (1))) with (- (1)).
    unfold c8 in *. split.
    - apply (Qmult_le_r _ _ (inject_Z range)); [lra|]. lra.
    - apply (Qmult_lt_r _ _ (inject_Z range)); [lra|]. lra. }
  pose proof (round_half_away_near y (p - 1) (p + 1) L U Y0) as Hq.
  set (q := round_half_away y) in *.
  assert (VolumeController.percent_of min range (long_add min k)
          = Machine.clamp q 0 100) as ->.
  { unfold VolumeController.percent_of.
    rewrite long_sub_add, (long_of_Z_small k Hk). fold y.
    rewrite lround_small by (fold q; unfold in_long, LONG_MIN, LONG_MAX; lia).
    fold q.
    rewrite int_of_Z_small by (unfold in_int, INT_MIN, INT_MAX; lia).
    reflexivity. }
  unfold Machine.clamp.
  destruct (Z.ltb_spec q 0); [lia|]. destruct (Z.ltb_spec 100 q); lia.
Qed.

End RoundingFacts.

(** * Facts about the balance fraction *)

Section BalanceFacts.
Import Machine Double.

Lemma balanceFraction_range (a : Z) :
  0 <= a <= 100 ->
  (0 <= SetBalance.balanceNorm a <= 1 /\
   (SetBalance.balanceNorm a == 0 \/ (1 # 128) <= SetBalance.balanceNorm a))%Q.
Proof.
  intros Ha.
  assert (all_below 101
            (fun a => Qle_bool 0 (SetBalance.balanceNorm a) && Qle_bool (SetBalance.balanceNorm a) 1
                      && (Qeq_bool (SetBalance.balanceNorm a) 0
                          || Qle_bool (1 # 128) (SetBalance.balanceNorm a))) = true) as H
    by (vm_compute; reflexivity).
  pose proof (all_below_spec _ _ H a ltac:(lia)) as Hb. cbv beta in Hb.
  apply andb_prop in Hb as [Hb H3]. apply andb_prop in Hb as [H1 H2].
  apply Qle_bool_iff in H1, H2. split; [split; assumption|].
  apply orb_prop in H3 as [H3|H3].
  - left. apply Qeq_bool_iff. exact H3.
  - right. apply Qle_bool_iff. exact H3.
Qed.

Lemma other_side_range (volume b : Z) :
  0 <= volume <= 100 -> -100 <= b <= 100 ->
  0 <= SetBalance.other_side volume b <= 100.
Proof.
  intros Hv Hb. unfold SetBalance.other_side.
  fold (SetBalance.balanceNorm (Z.abs b)).
  pose proof (balanceFraction_range (Z.abs b) ltac:(lia)) as [[B0 B1] Bn].
  set (bn := SetBalance.balanceNorm (Z.abs b)) in *.
  pose proof (of_Z_bounds volume (proj1 Hv)) as [V1 V2].
  assert (0 <= inject_Z volume <= 100)%Q as [Hv0 Hv1].
  { split; [change 0%Q with (inject_Z 0) | change 100%Q with (inject_Z 100)];
      rewrite <- Zle_Qle; lia. }
  set (V := of_Z volume) in *. unfold eps in *.
  assert (0 <= V * bn)%Q as P0 by (apply Qmult_le_0_compat; lra).
  assert (V * bn <= (100 * (1 + (1 # 9007199254740992))) * 1)%Q as P1.
  { apply mul_le_mono; lra. }
  assert (V * bn == 0 \/ (1 # 2 ^ 70) <= V * bn)%Q as Hn.
  { destruct (Z.eq_dec volume 0) as [->|Hz].
    - left. subst V. rewrite of_Z_zero. ring.
    - destruct Bn as [Bz|Bp].
      + left. rewrite Bz. ring.
      + right. assert (1 <= inject_Z volume)%Q by (apply inject_Z_ge1; lia).
        apply Qle_trans with ((1 - (1 # 9007199254740992)) * (1 # 128))%Q;
          [discriminate|].
        apply mul_le_mono; lra. }
  pose proof (rnd_bounds _ Hn) as [X1 X2]. fold (fmul V bn) in X1, X2.
  unfold eps in *.
  apply round_half_away_near.
  - change (inject_Z 0) with 0%Q. lra.
  - change (inject_Z 100) with 100%Q. lra.
  - lra.
Qed.

End BalanceFacts.

(** * The specification's formulas in integers *)

Section ExactRounding.
Import Machine Double.

(** The nearest integer to a quotient of integers, halves upwards. *)
Lemma round_half_away_ratio (a b : Z) :
  0 <= a -> 0 < b ->
  round_half_away (inject_Z a / inject_Z b) = (2 * a + b) / (2 * b).
Proof.
  intros Ha Hb.
  assert (0 < inject_Z b)%Q as Hb'.
  { change 0%Q with (inject_Z 0). rewrite <- Zlt_Qlt. exact Hb. }
  assert (0 <= inject_Z a)%Q as Ha' by (apply inject_Z_nonneg; exact Ha).
  assert (0 <= inject_Z a / inject_Z b)%Q as H0.
  { apply Qle_shift_div_l; [exact Hb'|]. lra. }
  unfold round_half_away. apply Qle_bool_iff in H0. rewrite H0.
  rewrite Zdiv_Qdiv. apply Qfloor_comp.
  rewrite inject_Z_plus, !inject_Z_mult. change (inject_Z 2) with 2%Q.
  field. lra.
Qed.

Lemma half_of_hundredths (x : Z) : (2 * x + 100) / (2 * 100) = (x + 50) / 100.
Proof.
  replace (2 * x + 100) with (2 * (x + 50)) by ring.
  apply Z.div_mul_cancel_l; lia.
Qed.

(** [Spec.native], [Spec.rounded_percentage] and [Spec.other_side] round
    quotients of integers. *)
Lemma spec_native_eq (min r volume : Z) :
  0 <= r ->
  Spec.native min r volume
  = min + (Machine.clamp volume 0 100 * r + 50) / 100.
Proof.
  intros Hr. unfold Spec.native. f_equal.
  pose proof (clamp_range volume 0 100 ltac:(lia)) as Hp.
  set (p := Machine.clamp volume 0 100) in *.
  rewrite <- half_of_hundredths, <- round_half_away_ratio by nia.
  apply round_half_away_eq. rewrite inject_Z_mult.
  change (inject_Z 100) with 100%Q. field.
Qed.

Lemma spec_rounded_percentage_eq (min r native : Z) :
  0 < r -> min <= native ->
  Spec.rounded_percentage min r native
  = (200 * (native - min) + r) / (2 * r).
Proof.
  intros Hr Hn. unfold Spec.rounded_percentage.
  replace (200 * (native - min)) with (2 * (100 * (native - min))) by ring.
  rewrite <- round_half_away_ratio by lia.
  apply round_half_away_eq. rewrite inject_Z_mult.
  change (inject_Z 100) with 100%Q.
  assert (0 < inject_Z r)%Q.
  { change 0%Q with (inject_Z 0). rewrite <- Zlt_Qlt. exact Hr. }
  field. lra.
Qed.

Lemma spec_other_side_eq (volume b : Z) :
  0 <= volume -> -100 <= b <= 100 ->
  Spec.other_side volume b = (volume * (100 - Z.abs b) + 50) / 100.
Proof.
  intros Hv Hb. unfold Spec.other_side, Spec.balanceFraction.
  rewrite <- half_of_hundredths, <- round_half_away_ratio by nia.
  apply round_half_away_eq. rewrite inject_Z_mult.
  unfold Z.sub. rewrite inject_Z_plus, inject_Z_opp.
  change (inject_Z 100) with 100%Q. field.
Qed.

(** An integer within a half of [a / 100] is the rounded quotient or, at a
    half, the integer below it; the same for [100 * k / r]. *)
Lemma nearest_hundredth_bounds (a k : Z) :
  100 * k - 50 <= a <= 100 * k + 50 ->
  (a + 50) / 100 - 1 <= k <= (a + 50) / 100.
Proof.
  intros H.
  pose proof (Z.div_mod (a + 50) 100 ltac:(lia)) as D.
  pose proof (Z.mod_pos_bound (a + 50) 100 ltac:(lia)) as B.
  lia.
Qed.

Lemma nearest_ratio_bounds (k r q : Z) :
  0 < r -> 2 * r * q - r <= 200 * k <= 2 * r * q + r ->
  (200 * k + r) / (2 * r) - 1 <= q <= (200 * k + r) / (2 * r).
Proof.
  intros Hr H.
  pose proof (Z.div_mod (200 * k + r) (2 * r) ltac:(lia)) as D.
  pose proof (Z.mod_pos_bound (200 * k + r) (2 * r) ltac:(lia)) as B.
  set (Q := (200 * k + r) / (2 * r)) in *.
  set (m := (200 * k + r) mod (2 * r)) in *.
  split; nia.
Qed.

(** The nearest integer is determined unless the exact value lies half-way
    between two integers. *)
Lemma nearest_hundredth (a k : Z) :
  100 * k - 50 <= a <= 100 * k + 50 -> a mod 100 <> 50 ->
  k = (a + 50) / 100.
Proof.
  intros H Hm.
  pose proof (Z.div_mod a 100 ltac:(lia)) as D.
  pose proof (Z.mod_pos_bound a 100 ltac:(lia)) as B.
  apply Z.div_unique with (r := a + 50 - 100 * k); lia.
Qed.

Lemma nearest_ratio (k r q : Z) :
  0 < r -> 2 * r * q - r <= 200 * k <= 2 * r * q + r ->
  (200 * k + r) mod (2 * r) <> 0 ->
  q = (200 * k + r) / (2 * r).
Proof.
  intros Hr H Hm.
  assert (200 * k + r <> 2 * r * q + 2 * r) as Hne.
  { intros E. apply Hm. rewrite E.
    replace (2 * r * q + 2 * r) with ((q + 1) * (2 * r)) by ring.
    apply Z.mod_mul. lia. }
  apply Z.div_unique with (r := 200 * k + r - 2 * r * q); lia.
Qed.

End ExactRounding.

(** * The side that [setBalance] turns down *)

Section QuieterSide.
Import Machine Double.

(** [(100.0 - a) / 100.0] is [(100 - a) / 100] up to a relative
    [2 ^ -50]. *)
Lemma balanceNorm_accuracy (a : Z) :
  0 <= a <= 100 ->
  (inject_Z (100 - a) * (1 # 100) * (1 - c8) <= SetBalance.balanceNorm a /\
   SetBalance.balanceNorm a <= inject_Z (100 - a) * (1 # 100) * (1 + c8))%Q.
Proof.
  intros Ha.
  assert (all_below 101
            (fun a =>
               Qle_bool (inject_Z (100 - a) * (1 # 100) * (1 - c8))
                 (SetBalance.balanceNorm a)
               && Qle_bool (SetBalance.balanceNorm a)
                    (inject_Z (100 - a) * (1 # 100) * (1 + c8))) = true) as H
    by (vm_compute; reflexivity).
  pose proof (all_below_spec _ _ H a ltac:(lia)) as Hb. cbv beta in Hb.
  apply andb_prop in Hb as [H1 H2].
  apply Qle_bool_iff in H1, H2. split; assumption.
Qed.

(** The percentage [setBalance] hands to the quieter side is a nearest
    integer to [volume * (100 - |balance|) / 100]. *)
Lemma other_side_nearest (volume b : Z) :
  0 <= volume <= 100 -> -100 <= b <= 100 ->
  let o := SetBalance.other_side volume b in
  100 * o - 50 <= volume * (100 - Z.abs b) <= 100 * o + 50.
Proof.
  intros Hv Hb o.
  pose proof (balanceFraction_range (Z.abs b) ltac:(lia)) as [[B0 B1] Bn].
  pose proof (balanceNorm_accuracy (Z.abs b) ltac:(lia)) as [A1 A2].
  unfold o, SetBalance.other_side.
  set (bn := SetBalance.balanceNorm (Z.abs b)) in *.
  pose proof (of_Z_bounds volume (proj1 Hv)) as [V1 V2].
  assert (0 <= inject_Z volume <= 100)%Q as [Hv0 Hv1].
  { split; [change 0%Q with (inject_Z 0) | change 100%Q with (inject_Z 100)];
      rewrite <- Zle_Qle; lia. }
  assert (0 <= inject_Z (100 - Z.abs b) <= 100)%Q as [Hm0 Hm1].
  { split; [change 0%Q with (inject_Z 0) | change 100%Q with (inject_Z 100)];
      rewrite <- Zle_Qle; lia. }
  set (V := of_Z volume) in *. set (v' := inject_Z volume) in *.
  set (m := inject_Z (100 - Z.abs b)) in *.
  unfold eps, c8 in *.
  assert (0 <= V * bn)%Q as P0 by (apply Qmult_le_0_compat; lra).
  assert (V * bn == 0 \/ (1 # 2 ^ 70) <= V * bn)%Q as Hn.
  { destruct (Z.eq_dec volume 0) as [E|Hz].
    - left. unfold V. rewrite E, of_Z_zero. ring.
    - destruct Bn as [Bz|Bp].
      + left. rewrite Bz. ring.
      + right. assert (1 <= v')%Q by (apply inject_Z_ge1; lia).
        apply Qle_trans with ((1 - (1 # 9007199254740992)) * (1 # 128))%Q;
          [discriminate|].
        apply mul_le_mono; lra. }
  pose proof (rnd_bounds _ Hn) as [X1 X2]. fold (fmul V bn) in X1, X2.
  unfold eps in *.
  set (X := fmul V bn) in *.
  assert ((v' * (1 - (1 # 9007199254740992)))
          * (m * (1 # 100) * (1 - (1 # 1125899906842624))) <= V * bn)%Q as PL
    by (apply mul_le_mono; lra).
  assert (V * bn <= (v' * (1 + (1 # 9007199254740992)))
                    * (m * (1 # 100) * (1 + (1 # 1125899906842624))))%Q as PU
    by (apply mul_le_mono; lra).
  assert (0 <= v' * m <= 10000)%Q as [T0 T1].
  { split; [apply Qmult_le_0_compat; lra|].
    apply Qle_trans with (100 * 100)%Q; [|discriminate].
    apply mul_le_mono; lra. }
  assert (inject_Z (volume * (100 - Z.abs b)) == v' * m)%Q as ET
    by (rewrite inject_Z_mult; reflexivity).
  set (t := (v' * m)%Q) in *.
  assert ((v' * (1 - (1 # 9007199254740992)))
          * (m * (1 # 100) * (1 - (1 # 1125899906842624)))
          == t * ((1 - (1 # 9007199254740992)) * (1 # 100)
                  * (1 - (1 # 1125899906842624))))%Q as EL
    by (unfold t; ring).
  assert ((v' * (1 + (1 # 9007199254740992)))
          * (m * (1 # 100) * (1 + (1 # 1125899906842624)))
          == t * ((1 + (1 # 9007199254740992)) * (1 # 100)
                  * (1 + (1 # 1125899906842624))))%Q as EU
    by (unfold t; ring).
  rewrite EL in PL. rewrite EU in PU.
  pose proof (round_half_away_error X) as [K1 K2].
  set (k := round_half_away X) in *.
  split.
  - assert (inject_Z (100 * k) < inject_Z (volume * (100 - Z.abs b) + 51))%Q
      as H.
    { rewrite inject_Z_plus, (inject_Z_mult 100 k), ET.
      change (inject_Z 100) with 100%Q. change (inject_Z 51) with 51%Q. lra. }
    rewrite <- Zlt_Qlt in H. lia.
  - assert (inject_Z (volume * (100 - Z.abs b)) < inject_Z (100 * k + 51))%Q
      as H.
    { rewrite inject_Z_plus, (inject_Z_mult 100 k), ET.
      change (inject_Z 100) with 100%Q. change (inject_Z 51) with 51%Q. lra. }
    rewrite <- Zlt_Qlt in H. lia.
Qed.

(** It is the specification's [round (volume * balanceFraction)], or the
    integer below it when [volume * (100 - |balance|) / 100] lies half-way
    between two integers. *)
Lemma other_side_spec (volume b : Z) :
  0 <= volume <= 100 -> -100 <= b <= 100 ->
  let o := SetBalance.other_side volume b in
  let e := Spec.other_side volume b in
  e - 1 <= o <= e /\
  ((volume * (100 - Z.abs b)) mod 100 <> 50 -> o = e).
Proof.
  intros Hv Hb o e.
  pose proof (other_side_nearest volume b Hv Hb) as N. cbv zeta in N.
  fold o in N.
  unfold e. rewrite (spec_other_side_eq volume b) by lia.
  split.
  - apply nearest_hundredth_bounds. exact N.
  - intros Hm. apply nearest_hundredth; assumption.
Qed.

End QuieterSide.

(** * Cross-checks against the Standard Library's binary64

    [rnd] agrees with [SFdiv], [SFsub] and [SFmul] of [SpecFloat] at
    precision 53 and exponent bound 1024, on every fraction the program
    forms from a percentage and on a sample of ranges. *)

Section CrossChecks.
Import Machine Double.
Local Open Scope Q_scope.

Example fraction_agrees_with_SpecFloat :
  all_below 101
    (fun p => Qeq_bool (fdiv (of_Z p) 100)
                (SF2Q (SFdiv 53 1024 (SFofZ p) (SFofZ 100)))) = true.
Proof. vm_compute. reflexivity. Qed.

Example balanceFraction_agrees_with_SpecFloat :
  all_below 101
    (fun a => Qeq_bool (SetBalance.balanceNorm a)
                (SF2Q (SFdiv 53 1024
                         (SFsub 53 1024 (SFofZ 100) (SFofZ a))
                         (SFofZ 100)))) = true.
Proof. vm_compute. reflexivity. Qed.

Example product_agrees_with_SpecFloat :
  forallb
    (fun r =>
       all_below 101
         (fun p => Qeq_bool (fmul (fdiv (of_Z p) 100) (of_Z r))
                     (SF2Q (SFmul 53 1024
                              (SFdiv 53 1024 (SFofZ p) (SFofZ 100))
                              (SFofZ r)))))
    [1; 3; 25; 33; 34; 50; 87; 100; 5100; 6000; 65536;
     9007199254740993; 4611686018427387904]%Z = true.
Proof. vm_compute. reflexivity. Qed.

Example percentage_agrees_with_SpecFloat :
  forallb
    (fun r =>
       all_below 101
         (fun k => Qeq_bool (fmul (fdiv (of_Z k) (of_Z r)) 100)
                     (SF2Q (SFmul 53 1024
                              (SFdiv 53 1024 (SFofZ k) (SFofZ r))
                              (SFofZ 100)))))
    [1; 3; 25; 33; 34; 40; 87; 100; 5100; 6000; 65536]%Z = true.
Proof. vm_compute. reflexivity. Qed.

Example other_side_agrees_with_SpecFloat :
  forallb
    (fun v =>
       all_below 101
         (fun a => Qeq_bool (fmul (of_Z v) (SetBalance.balanceNorm a))
                     (SF2Q (SFmul 53 1024 (SFofZ v)
                              (SFdiv 53 1024
                                 (SFsub 53 1024 (SFofZ 100) (SFofZ a))
                                 (SFofZ 100))))))
    [1; 5; 25; 33; 45; 50; 67; 75; 90; 99; 100]%Z = true.
Proof. vm_compute. reflexivity. Qed.

End CrossChecks.

(** * The scale controllers: the round trip (claim C1) *)

Section ScaleControllerClaims.
Context {alsa : Alsa}.
Import Machine Double VolumeController.

Lemma after_setVolume (c : VolumeController.t) (volume : Z) (s : hw) :
  after (setVolume c volume) s =
  if cached_range c <=? 0 then s
  else write_native c (native_of (cached_min c) (cached_range c) volume) s.
Proof.
  destruct c as [[e|] ch mn mx r | [e|] ch mn mx r | e ch]; cbn;
    try (destruct (r <=? 0); reflexivity); try reflexivity.
  - destruct (r <=? 0); [reflexivity|]. unfold after, bind, set_playback_dB, ret; cbn.
    destruct (snd_mixer_selem_set_playback_dB _ _ _ _ _). reflexivity.
  - destruct (r <=? 0); [reflexivity|]. unfold after, bind, set_playback_volume, ret; cbn.
    destruct (snd_mixer_selem_set_playback_volume _ _ _ _). reflexivity.
Qed.

Lemma result_getVolume (c : VolumeController.t) (s : hw) :
  result (getVolume c) s =
  if cached_range c <=? 0 then 0
  else match read_native c s with
       | None => 0
       | Some native => percent_of (cached_min c) (cached_range c) native
       end.
Proof.
  destruct c as [[e|] ch mn mx r | [e|] ch mn mx r | e ch]; cbn;
    try (destruct (r <=? 0); reflexivity); try reflexivity.
  - destruct (r <=? 0); [reflexivity|]. unfold result, bind, get_playback_dB, ret; cbn.
    destruct (snd_mixer_selem_get_playback_dB _ _ _); reflexivity.
  - destruct (r <=? 0); [reflexivity|]. unfold result, bind, get_playback_volume, ret; cbn.
    destruct (snd_mixer_selem_get_playback_volume _ _ _); reflexivity.
Qed.

Lemma after_getVolume (c : VolumeController.t) (s : hw) :
  after (getVolume c) s = s.
Proof.
  destruct c as [[e|] ch mn mx r | [e|] ch mn mx r | e ch]; cbn;
    try (destruct (r <=? 0); reflexivity); try reflexivity.
  - destruct (r <=? 0); [reflexivity|]. unfold after, bind, get_playback_dB, ret; cbn.
    destruct (snd_mixer_selem_get_playback_dB _ _ _); reflexivity.
  - destruct (r <=? 0); [reflexivity|]. unfold after, bind, get_playback_volume, ret; cbn.
    destruct (snd_mixer_selem_get_playback_volume _ _ _); reflexivity.
Qed.

Lemma percent_of_range (min range native : Z) :
  0 <= percent_of min range native <= 100.
Proof. unfold percent_of. apply clamp_range. lia. Qed.

Lemma result_getVolume_range (c : VolumeController.t) (s : hw) :
  0 <= result (getVolume c) s <= 100.
Proof.
  rewrite result_getVolume.
  destruct (cached_range c <=? 0); [lia|].
  destruct (read_native c s); [apply percent_of_range | lia].
Qed.

(** Claim C1, amended.  For every percentage [p] in [0,100] and every
    Decibel or Linear controller whose cached range is at least 34 (and at
    most [2 ^ 62], which keeps [lround] within [long]), [setVolume p] followed
    by [getVolume], the hardware read returning exactly the value just
    written, yields a percentage within 1 of [p].  A controller that reads
    nothing (Dummy, or without element) does not meet the hypothesis on the
    read. *)
Theorem roundtrip_within_one (c : VolumeController.t) (p : Z) (s : hw) :
  34 <= cached_range c <= 2 ^ 62 ->
  0 <= p <= 100 ->
  Spec.reads_back_written c p s ->
  p - 1 <= result (getVolume c) (after (setVolume c p) s) <= p + 1.
Proof.
  intros Hr Hp Hrb. unfold Spec.reads_back_written in Hrb.
  rewrite result_getVolume.
  destruct (Z.leb_spec (cached_range c) 0); [lia|].
  rewrite Hrb. apply percent_of_native_of; assumption.
Qed.


Lemma volumeNorm_clamped (volume : Z) :
  volumeNorm volume = fdiv (of_Z (Machine.clamp volume 0 100)) 100%Q.
Proof.
  unfold volumeNorm, Machine.clamp, Double.clamp.
  destruct (Z.ltb_spec volume 0) as [Hneg|Hnn].
  - pose proof (of_Z_neg volume Hneg) as HA.
    assert (inject_Z volume <= - (1))%Q as Hv.
    { change (- (1))%Q with (inject_Z (-1)). rewrite <- Zle_Qle. lia. }
    assert (of_Z volume / 100 <= - (1 # 2 ^ 70))%Q as Hn.
    { unfold eps in HA. unfold Qdiv. change (/ 100)%Q with (1 # 100)%Q.
      apply Qle_trans with (- (1 # 200))%Q; [lra | discriminate]. }
    pose proof (rnd_bounds_neg _ Hn) as [_ HF].
    fold (fdiv (of_Z volume) 100%Q) in HF.
    rewrite fltb_true; [reflexivity|].
    unfold eps in *. unfold Qdiv in HF. change (/ 100)%Q with (1 # 100)%Q in HF. lra.
  - destruct (Z.ltb_spec 100 volume) as [Hbig|Hsmall].
    + pose proof (of_Z_bounds volume ltac:(lia)) as [HA _].
      assert (101 <= inject_Z volume)%Q as Hv.
      { change 101%Q with (inject_Z 101). rewrite <- Zle_Qle. lia. }
      assert (of_Z volume / 100 == 0 \/ (1 # 2 ^ 70) <= of_Z volume / 100)%Q as Hn.
      { right. unfold eps in HA. unfold Qdiv. change (/ 100)%Q with (1 # 100)%Q.
        apply Qle_trans with 1%Q; [discriminate | lra]. }
      pose proof (rnd_bounds _ Hn) as [HF _].
      fold (fdiv (of_Z volume) 100%Q) in HF.
      unfold eps in *. unfold Qdiv in HF. change (/ 100)%Q with (1 # 100)%Q in HF.
      rewrite fltb_false by lra. rewrite fltb_true by lra. reflexivity.
    + pose proof (fraction_bounds volume ltac:(lia)) as [F1 F2]. cbv zeta in *.
      assert (0 <= inject_Z volume)%Q as Hv0 by (apply inject_Z_nonneg; lia).
      unfold c3 in *. unfold Qdiv in F1, F2. change (/ 100)%Q with (1 # 100)%Q in F1, F2.
      rewrite fltb_false by lra.
      destruct (Z.eq_dec volume 100) as [->|Hne].
      * reflexivity.
      * assert (inject_Z volume <= 99)%Q as Hv1.
        { change 99%Q with (inject_Z 99). rewrite <- Zle_Qle. lia. }
        rewrite fltb_false by lra. reflexivity.
Qed.

Lemma round_half_away_nearest (x : Q) :
  Spec.nearest_half_away x (round_half_away x).
Proof.
  unfold Spec.nearest_half_away, round_half_away.
  destruct (Qle_bool 0 x) eqn:E.
  - apply Qle_bool_iff in E.
    pose proof (Qfloor_le (x + (1 # 2))) as H1.
    pose proof (Qlt_floor (x + (1 # 2))) as H2.
    rewrite inject_Z_plus in H2. change (inject_Z 1) with 1%Q in H2.
    split; intros; [split; lra | lra].
  - assert (x < 0)%Q as Hx.
    { apply Qnot_le_lt. intros H. apply Qle_bool_iff in H. congruence. }
    pose proof (Qle_ceiling (x - (1 # 2))) as H1.
    pose proof (Qceiling_lt (x - (1 # 2))) as H2.
    unfold Z.sub in H2. rewrite inject_Z_plus in H2.
    change (inject_Z (- (1))) with (- (1))%Q in H2.
    split; intros; [lra | split; lra].
Qed.

(** A controller without a strictly positive cached range, the Dummy
    controller among them, is inert: [setVolume] does nothing and
    [getVolume] returns 0, whatever the hardware holds. *)
Lemma unsupported_controller_is_inert (c : VolumeController.t)
  (volume : Z) (s : hw) :
  cached_range c <= 0 ->
  after (setVolume c volume) s = s /\ result (getVolume c) s = 0.
Proof.
  intros H. rewrite after_setVolume, result_getVolume.
  destruct (Z.leb_spec (cached_range c) 0); [split; reflexivity | lia].
Qed.

(** On a range of at most [2 ^ 62] the rounded product is a [long], and
    [lround] returns it. *)
Lemma offset_in_long (p range : Z) :
  0 <= p <= 100 -> 1 <= range <= 2 ^ 62 ->
  in_long (round_half_away (fmul (volumeNorm p) (of_Z range))).
Proof.
  intros Hp Hr.
  pose proof (product_bounds p range Hp ltac:(lia)) as [X0 [_ X2]].
  cbv zeta in *.
  set (X := fmul (volumeNorm p) (of_Z range)) in *.
  pose proof (round_half_away_error X) as [_ k2].
  pose proof (round_half_away_nonneg X X0) as k0.
  pose proof (inject_Z_nonneg p (proj1 Hp)) as Hp0.
  assert (inject_Z p <= 100)%Q as Hp1.
  { change 100%Q with (inject_Z 100). rewrite <- Zle_Qle. lia. }
  assert (1 <= inject_Z range <= 4611686018427387904)%Q as [Hr1 Hr2].
  { split; [change 1%Q with (inject_Z 1) |
            change 4611686018427387904%Q with (inject_Z (2 ^ 62))];
      rewrite <- Zle_Qle; lia. }
  assert (inject_Z p * inject_Z range <= 100 * inject_Z range)%Q as Hpr
    by (apply Qmult_le_compat_r; lra).
  set (k := round_half_away X) in *.
  unfold in_long, LONG_MIN, LONG_MAX. split; [lia|].
  assert (inject_Z k < inject_Z (2 ^ 63))%Q; [|rewrite <- Zlt_Qlt in *; lia].
  change (inject_Z (2 ^ 63)) with 9223372036854775808%Q.
  unfold c8 in *. lra.
Qed.

(** How far the double product can carry the native value from the exact
    [p * range / 100]: on a range from 1 to [2 ^ 62] the offset that
    [lround] returns is within a half, and a relative [2 ^ -50], of it. *)
Lemma native_offset_accuracy (p range : Z) :
  0 <= p <= 100 -> 1 <= range <= 2 ^ 62 ->
  let k := lround (fmul (volumeNorm p) (of_Z range)) in
  (inject_Z p * inject_Z range * (1 - c8) - 50 <= 100 * inject_Z k /\
   100 * inject_Z k <= inject_Z p * inject_Z range * (1 + c8) + 50)%Q.
Proof.
  intros Hp Hr k.
  pose proof (product_bounds p range Hp ltac:(lia)) as [_ [X1 X2]].
  cbv zeta in *.
  pose proof (round_half_away_error (fmul (volumeNorm p) (of_Z range)))
    as [K1 K2].
  unfold k. rewrite (lround_small _ (offset_in_long p range Hp Hr)).
  split; lra.
Qed.

End ScaleControllerClaims.

Section ChannelVolumeClaims.
Context {alsa : Alsa}.
Import Machine Double AMVolume.

Lemma run_getVolume (c : VolumeController.t) (s : hw) :
  VolumeController.getVolume c s = (result (VolumeController.getVolume c) s, s).
Proof.
  pose proof (after_getVolume c s) as H. unfold after, result in *.
  destruct (VolumeController.getVolume c s) as [x s']. cbn in *. congruence.
Qed.

Lemma run_setVolume (c : VolumeController.t) (x : Z) (s : hw) :
  VolumeController.setVolume c x s = (tt, after (VolumeController.setVolume c x) s).
Proof.
  unfold after. destruct (VolumeController.setVolume c x s) as [[] s']. reflexivity.
Qed.

Lemma result_AMVolume_getVolume (v : AMVolume.t) (s : hw) :
  result (getVolume v) s =
  Z.max (Z.max (result (VolumeController.getVolume (leftVolumeController v)) s)
               (result (VolumeController.getVolume (rightVolumeController v)) s))
        (result (VolumeController.getVolume (monoVolumeController v)) s).
Proof.
  unfold result at 1. unfold getVolume, bind, ret.
  rewrite !run_getVolume. cbn. rewrite !max_is_Zmax. reflexivity.
Qed.

Lemma after_AMVolume_getVolume (v : AMVolume.t) (s : hw) :
  after (getVolume v) s = s.
Proof.
  unfold after, getVolume, bind, ret. rewrite !run_getVolume. reflexivity.
Qed.

Lemma run_AMVolume_getVolume (v : AMVolume.t) (s : hw) :
  getVolume v s = (result (getVolume v) s, s).
Proof.
  pose proof (after_AMVolume_getVolume v s) as H. unfold after, result in *.
  destruct (getVolume v s) as [x s']. cbn in *. congruence.
Qed.

Lemma result_AMVolume_getVolume_range (v : AMVolume.t) (s : hw) :
  0 <= result (getVolume v) s <= 100.
Proof.
  rewrite result_AMVolume_getVolume.
  pose proof (result_getVolume_range (leftVolumeController v) s).
  pose proof (result_getVolume_range (rightVolumeController v) s).
  pose proof (result_getVolume_range (monoVolumeController v) s).
  lia.
Qed.

Lemma stereo_test (v : AMVolume.t) :
  negb (hasLeft v) || negb (hasRight v) = negb (hasLeft v && hasRight v).
Proof. destruct (hasLeft v), (hasRight v); reflexivity. Qed.

Lemma result_getBalance (v : AMVolume.t) (s : hw) :
  result (getBalance v) s =
  if hasLeft v && hasRight v then
    result (VolumeController.getVolume (rightVolumeController v)) s
    - result (VolumeController.getVolume (leftVolumeController v)) s
  else 0.
Proof.
  unfold result at 1. unfold getBalance. rewrite stereo_test.
  destruct (hasLeft v && hasRight v); cbn [negb]; [|reflexivity].
  unfold bind, ret. rewrite !run_getVolume. cbn.
  pose proof (result_getVolume_range (leftVolumeController v) s).
  pose proof (result_getVolume_range (rightVolumeController v) s).
  unfold int_sub. apply int_of_Z_small. unfold in_int, INT_MIN, INT_MAX. lia.
Qed.

Lemma after_getBalance (v : AMVolume.t) (s : hw) : after (getBalance v) s = s.
Proof.
  unfold after, getBalance.
  destruct (negb (hasLeft v) || negb (hasRight v)); [reflexivity|].
  unfold bind, ret. rewrite !run_getVolume. reflexivity.
Qed.

Lemma run_getBalance (v : AMVolume.t) (s : hw) :
  getBalance v s = (result (getBalance v) s, s).
Proof.
  pose proof (after_getBalance v s) as H. unfold after, result in *.
  destruct (getBalance v s) as [x s']. cbn in *. congruence.
Qed.

(** Claim C5.  For every channel and every hardware state, [getVolume]
    returns the maximum of what [getVolume] of the left, the right and the
    mono controller return, in the same way for mono and stereo channels;
    it writes nothing. *)
Theorem getVolume_is_maximum (v : AMVolume.t) (s : hw) :
  result (getVolume v) s =
    Z.max (Z.max (result (VolumeController.getVolume (leftVolumeController v)) s)
                 (result (VolumeController.getVolume (rightVolumeController v)) s))
          (result (VolumeController.getVolume (monoVolumeController v)) s) /\
  after (getVolume v) s = s.
Proof.
  split; [apply result_AMVolume_getVolume | apply after_AMVolume_getVolume].
Qed.

(** Claim C6.  For every channel and every hardware state, [getBalance]
    returns 0 when the channel is not stereo, and otherwise the right
    controller's [getVolume] minus the left controller's, a value within
    [-100,100]. *)
Theorem getBalance_is_difference (v : AMVolume.t) (s : hw) :
  result (getBalance v) s =
    (if hasLeft v && hasRight v then
       result (VolumeController.getVolume (rightVolumeController v)) s
       - result (VolumeController.getVolume (leftVolumeController v)) s
     else 0) /\
  -100 <= result (getBalance v) s <= 100.
Proof.
  split; [apply result_getBalance|].
  rewrite result_getBalance.
  pose proof (result_getVolume_range (leftVolumeController v) s).
  pose proof (result_getVolume_range (rightVolumeController v) s).
  destruct (hasLeft v && hasRight v); lia.
Qed.

Lemma clamp_idem (x lo hi : Z) :
  lo <= hi -> Machine.clamp (Machine.clamp x lo hi) lo hi = Machine.clamp x lo hi.
Proof. intros H. apply clamp_id. apply clamp_range. exact H. Qed.

Lemma setVolume_clamps (v : AMVolume.t) (volume : Z) :
  setVolume v volume = setVolume v (Machine.clamp volume 0 100).
Proof. unfold setVolume. rewrite clamp_idem by lia. reflexivity. Qed.

Lemma setBalance_clamps (v : AMVolume.t) (balance : Z) :
  setBalance v balance = setBalance v (Machine.clamp balance (-100) 100).
Proof. unfold setBalance. rewrite clamp_idem by lia. reflexivity. Qed.

(** Claim C8.  For every channel and every hardware state, [setVolume 150]
    leaves the hardware as [setVolume 100] does, [setVolume (-10)] as
    [setVolume 0], [setBalance 150] as [setBalance 100] and
    [setBalance (-150)] as [setBalance (-100)]; in general each setter acts
    as on its clamped argument. *)
Theorem setters_clamp (v : AMVolume.t) (s : hw) :
  after (setVolume v 150) s = after (setVolume v 100) s /\
  after (setVolume v (-10)) s = after (setVolume v 0) s /\
  after (setBalance v 150) s = after (setBalance v 100) s /\
  after (setBalance v (-150)) s = after (setBalance v (-100)) s /\
  (forall volume,
     after (setVolume v volume) s
     = after (setVolume v (Machine.clamp volume 0 100)) s) /\
  (forall balance,
     after (setBalance v balance) s
     = after (setBalance v (Machine.clamp balance (-100) 100)) s).
Proof.
  split; [rewrite (setVolume_clamps v 150); reflexivity|].
  split; [rewrite (setVolume_clamps v (-10)); reflexivity|].
  split; [rewrite (setBalance_clamps v 150); reflexivity|].
  split; [rewrite (setBalance_clamps v (-150)); reflexivity|].
  split.
  - intros volume. rewrite <- setVolume_clamps. reflexivity.
  - intros balance. rewrite <- setBalance_clamps. reflexivity.
Qed.


Lemma after_assign (v : AMVolume.t) (b volume : Z) (bn : double) (s : hw) :
  let o := int_of_Z (lround (fmul (of_Z volume) bn)) in
  after (assign v b volume bn) s =
  after (VolumeController.setVolume (rightVolumeController v)
           (if b <? 0 then o else volume))
    (after (VolumeController.setVolume (leftVolumeController v)
              (if b >? 0 then o else volume)) s).
Proof.
  intros o. unfold assign. fold o.
  destruct (Z.ltb_spec b 0) as [Hn|Hn].
  - replace (b >? 0) with false
      by (symmetry; rewrite Z.gtb_ltb; apply Z.ltb_ge; lia).
    unfold after at 1. unfold bind. rewrite !run_setVolume. reflexivity.
  - destruct (b >? 0); unfold after at 1; unfold bind;
      rewrite !run_setVolume; reflexivity.
Qed.

Lemma abs_small (b : Z) : -100 <= b <= 100 -> Machine.abs b = Z.abs b.
Proof.
  intros H. unfold Machine.abs. apply int_of_Z_small.
  unfold in_int, INT_MIN, INT_MAX. lia.
Qed.

Lemma after_setBalance_stereo (v : AMVolume.t) (balance : Z) (s : hw) :
  hasLeft v && hasRight v = true ->
  let b := Machine.clamp balance (-100) 100 in
  let volume := result (getVolume v) s in
  let other := SetBalance.other_side volume b in
  after (setBalance v balance) s =
  after (VolumeController.setVolume (rightVolumeController v)
           (if b <? 0 then other else volume))
    (after (VolumeController.setVolume (leftVolumeController v)
              (if b >? 0 then other else volume)) s).
Proof.
  intros Hst b volume other.
  unfold after at 1. unfold setBalance. rewrite stereo_test, Hst. cbn [negb].
  unfold bind. rewrite run_AMVolume_getVolume. fold b. fold volume.
  pose proof (clamp_range balance (-100) 100 ltac:(lia)) as Hb. fold b in Hb.
  pose proof (result_AMVolume_getVolume_range v s) as Hv. fold volume in Hv.
  rewrite (abs_small b Hb).
  pose proof (after_assign v b volume
                (fdiv (fsub 100%Q (of_Z (Z.abs b))) 100%Q) s) as Ha.
  cbv zeta in Ha. unfold after at 1 in Ha. rewrite Ha.
  pose proof (other_side_range volume b Hv Hb) as Ho. fold other in Ho.
  assert (int_of_Z (lround (fmul (of_Z volume)
            (fdiv (fsub 100%Q (of_Z (Z.abs b))) 100%Q))) = other) as ->.
  { change (fdiv (fsub 100%Q (of_Z (Z.abs b))) 100%Q)
      with (SetBalance.balanceNorm (Z.abs b)).
    rewrite lround_small;
      fold (SetBalance.other_side volume b); fold other.
    - apply int_of_Z_small. unfold in_int, INT_MIN, INT_MAX. lia.
    - unfold in_long, LONG_MIN, LONG_MAX. lia. }
  reflexivity.
Qed.

Lemma other_side_hard_pan (volume : Z) : SetBalance.other_side volume (-100) = 0.
Proof.
  unfold SetBalance.other_side. change (Z.abs (-100)) with 100.
  replace (SetBalance.balanceNorm 100) with 0%Q by (vm_compute; reflexivity).
  unfold fmul. rewrite rnd_zero by ring. reflexivity.
Qed.

Lemma percent_of_native_zero (min range : Z) :
  VolumeController.percent_of min range (VolumeController.native_of min range 0) = 0.
Proof.
  unfold VolumeController.percent_of, VolumeController.native_of.
  replace (VolumeController.volumeNorm 0) with 0%Q by (vm_compute; reflexivity).
  unfold fmul at 2. rewrite (rnd_zero (0 * of_Z range)) by ring.
  change (lround 0%Q) with 0. rewrite long_sub_add.
  change (long_of_Z 0) with 0. rewrite of_Z_zero.
  unfold fdiv. rewrite (rnd_zero (0 / of_Z range)) by (unfold Qdiv; ring).
  reflexivity.
Qed.

Lemma zero_reads_zero (c : VolumeController.t) (s : hw) :
  Spec.channel_reads_back c ->
  result (VolumeController.getVolume c)
    (after (VolumeController.setVolume c 0) s) = 0.
Proof.
  intros Hrb. rewrite result_getVolume.
  destruct (VolumeController.cached_range c <=? 0) eqn:E; [reflexivity|].
  rewrite after_setVolume, E.
  destruct (VolumeController.read_native c _) as [n|] eqn:R; [|reflexivity].
  apply Hrb in R. subst n. apply percent_of_native_zero.
Qed.

(** Claim C4, amended.  For every stereo channel and every balance input,
    [setBalance] clamps the balance to [-100,100], captures the overall
    volume with [getVolume] on the state it starts from, and sets the louder
    side's controller to that volume and the other side's to [other], the
    rounding of the double product [volume * ((100.0 - |balance|) / 100.0)]
    (both sides get the volume at balance 0).  [other] is the
    specification's [round (volume * (100 - |balance|) / 100)], except that
    it may be the integer below it when [volume * (100 - |balance|) / 100]
    lies half-way between two integers.  After a balance of -100 (or less),
    on hardware that reads back what is written to the right channel, the
    right controller reads 0; and on a channel that is not stereo
    [setBalance] does nothing. *)
Theorem setBalance_rebalances (v : AMVolume.t) (balance : Z) (s : hw) :
  (hasLeft v && hasRight v = true ->
   let b := Machine.clamp balance (-100) 100 in
   let volume := result (getVolume v) s in
   let other := SetBalance.other_side volume b in
   after (setBalance v balance) s =
   after (VolumeController.setVolume (rightVolumeController v)
            (if b <? 0 then other else volume))
     (after (VolumeController.setVolume (leftVolumeController v)
               (if b >? 0 then other else volume)) s) /\
   Spec.other_side volume b - 1 <= other <= Spec.other_side volume b /\
   ((volume * (100 - Z.abs b)) mod 100 <> 50 ->
    other = Spec.other_side volume b) /\
   (b = 0 -> other = volume)) /\
  (hasLeft v && hasRight v = true -> balance <= -100 ->
   Spec.channel_reads_back (rightVolumeController v) ->
   result (VolumeController.getVolume (rightVolumeController v))
     (after (setBalance v balance) s) = 0) /\
  (hasLeft v && hasRight v = false -> after (setBalance v balance) s = s).
Proof.
  split; [|split].
  - intros Hst b volume other.
    split; [apply after_setBalance_stereo; exact Hst|].
    pose proof (clamp_range balance (-100) 100 ltac:(lia)) as Hb. fold b in Hb.
    pose proof (result_AMVolume_getVolume_range v s) as Hv. fold volume in Hv.
    pose proof (other_side_spec volume b Hv Hb) as [S1 S2]. cbv zeta in S1, S2.
    fold other in S1, S2.
    split; [exact S1|]. split; [exact S2|].
    intros E. rewrite S2.
    + rewrite (spec_other_side_eq volume b) by lia. rewrite E.
      change (Z.abs 0) with 0.
      replace (volume * (100 - 0) + 50) with (50 + volume * 100) by ring.
      rewrite Z.div_add by lia. reflexivity.
    + rewrite E. change (Z.abs 0) with 0.
      replace (volume * (100 - 0)) with (volume * 100) by ring.
      rewrite Z.mod_mul by lia. discriminate.
  - intros Hst Hb Hrb.
    rewrite (after_setBalance_stereo v balance s Hst).
    assert (Machine.clamp balance (-100) 100 = -100) as ->.
    { unfold Machine.clamp. destruct (Z.ltb_spec balance (-100)); [reflexivity|].
      destruct (Z.ltb_spec 100 balance); lia. }
    change (-100 <? 0) with true. cbv iota.
    rewrite other_side_hard_pan. apply zero_reads_zero. exact Hrb.
  - intros Hm. unfold after, setBalance. rewrite stereo_test, Hm. reflexivity.
Qed.


Lemma same_channel_state_refl (ch : snd_mixer_selem_channel_id_t) (s : hw) :
  Spec.same_channel_state ch s s.
Proof. intros e. split; reflexivity. Qed.

Lemma same_channel_state_trans (ch : snd_mixer_selem_channel_id_t)
  (s1 s2 s3 : hw) :
  Spec.same_channel_state ch s1 s2 -> Spec.same_channel_state ch s2 s3 ->
  Spec.same_channel_state ch s1 s3.
Proof.
  intros H12 H23 e. destruct (H12 e) as [A B], (H23 e) as [C D].
  split; congruence.
Qed.

Lemma setVolume_frame (c : VolumeController.t) (x : Z) (s : hw)
  (ch : snd_mixer_selem_channel_id_t) :
  Spec.writes_are_local -> ch <> VolumeController.channel c ->
  Spec.same_channel_state ch s (after (VolumeController.setVolume c x) s).
Proof.
  intros Hloc Hch. rewrite after_setVolume.
  destruct (VolumeController.cached_range c <=? 0);
    [apply same_channel_state_refl|].
  destruct c as [[e|] c0 mn mx r | [e|] c0 mn mx r | e c0];
    cbn in *; try apply same_channel_state_refl.
  - apply (Hloc e c0 _ 0 s ch Hch).
  - apply (Hloc e c0 _ 0 s ch Hch).
Qed.

Lemma after_setVolume_mono (v : AMVolume.t) (volume : Z) (s : hw) :
  hasLeft v && hasRight v = false ->
  after (setVolume v volume) s =
  after (VolumeController.setVolume (monoVolumeController v)
           (Machine.clamp volume 0 100)) s.
Proof. intros H. unfold setVolume. rewrite H. reflexivity. Qed.

Lemma after_setVolume_stereo (v : AMVolume.t) (volume : Z) (s : hw) :
  hasLeft v && hasRight v = true ->
  exists l r,
    after (setVolume v volume) s =
    after (VolumeController.setVolume (rightVolumeController v) r)
      (after (VolumeController.setVolume (leftVolumeController v) l) s).
Proof.
  intros H. unfold after at 1. unfold setVolume. rewrite H.
  unfold bind. rewrite run_getBalance.
  match goal with
  | |- context [assign v ?b ?vol ?bn s] =>
      pose proof (after_assign v b vol bn s) as Ha
  end.
  cbv zeta in Ha. unfold after at 1 in Ha. rewrite Ha.
  eexists. eexists. reflexivity.
Qed.

(** Claim C10, amended.  On hardware where a write to one channel leaves
    the other channels: on a mono channel [setVolume] is one [setVolume] of
    the mono controller and leaves the state of every channel but the mono
    controller's; on a stereo channel [setVolume] and [setBalance] are a
    [setVolume] of the left then of the right controller and leave the state
    of every channel but theirs; [getVolume], [getBalance] and [getName]
    leave the hardware as it was.  The channels are compared by their
    identifiers: where the mono identifier is the left one, as in alsa-lib,
    the mono write is a write to the left channel, and the left write one to
    the mono channel. *)
Theorem writes_only_designated_controllers (v : AMVolume.t)
  (volume balance : Z) (s : hw) (ch : snd_mixer_selem_channel_id_t) :
  Spec.writes_are_local ->
  (hasLeft v && hasRight v = false ->
   after (setVolume v volume) s =
     after (VolumeController.setVolume (monoVolumeController v)
              (Machine.clamp volume 0 100)) s /\
   (ch <> VolumeController.channel (monoVolumeController v) ->
    Spec.same_channel_state ch s (after (setVolume v volume) s))) /\
  (hasLeft v && hasRight v = true ->
   (exists l r,
      after (setVolume v volume) s =
      after (VolumeController.setVolume (rightVolumeController v) r)
        (after (VolumeController.setVolume (leftVolumeController v) l) s)) /\
   (exists l r,
      after (setBalance v balance) s =
      after (VolumeController.setVolume (rightVolumeController v) r)
        (after (VolumeController.setVolume (leftVolumeController v) l) s)) /\
   (ch <> VolumeController.channel (leftVolumeController v) ->
    ch <> VolumeController.channel (rightVolumeController v) ->
    Spec.same_channel_state ch s (after (setVolume v volume) s) /\
    Spec.same_channel_state ch s (after (setBalance v balance) s))) /\
  after (getVolume v) s = s /\
  after (getBalance v) s = s /\
  after (getName v) s = s.
Proof.
  intros Hloc.
  split; [|split; [|split; [|split]]].
  - intros Hm. split; [apply after_setVolume_mono; exact Hm|].
    intros Hch. rewrite (after_setVolume_mono v volume s Hm).
    apply setVolume_frame; assumption.
  - intros Hst.
    pose proof (after_setVolume_stereo v volume s Hst) as (l & r & Hv).
    pose proof (after_setBalance_stereo v balance s Hst) as Hb. cbv zeta in Hb.
    split; [exists l, r; exact Hv|].
    split; [eexists; eexists; exact Hb|].
    intros Hl Hr. split.
    + rewrite Hv. eapply same_channel_state_trans;
        apply setVolume_frame; assumption.
    + rewrite Hb. eapply same_channel_state_trans;
        apply setVolume_frame; assumption.
  - apply after_AMVolume_getVolume.
  - apply after_getBalance.
  - reflexivity.
Qed.

End ChannelVolumeClaims.

Section FactoryClaims.
Context {alsa : Alsa}.
Import VolumeController.

Lemma positive_range_test (query : option (Z * Z)) :
  match query with
  | Some (min, max) => max >? min
  | None => false
  end = true <-> Spec.positive_range query.
Proof.
  unfold Spec.positive_range. destruct query as [[mn mx]|].
  - rewrite Z.gtb_ltb, Z.ltb_lt. split.
    + intros H. exists mn, mx. split; [reflexivity | lia].
    + intros (a & b & E & H). inversion E; subst. lia.
  - split; [discriminate|]. intros (a & b & E & _). discriminate.
Qed.

(** Claim C7.  For every element and channel selector, [create] yields a
    Decibel controller exactly when the decibel range query succeeds with a
    strictly positive range; otherwise a Linear controller exactly when the
    linear range query succeeds with a strictly positive range; otherwise
    the Dummy (Unsupported) controller.  The controller is on the element
    and the selector given. *)
Theorem create_selects_variant (elem : snd_mixer_elem_t)
  (ch : snd_mixer_selem_channel_id_t) :
  let c := create (Some elem) ch in
  let dB := Spec.positive_range (snd_mixer_selem_get_playback_dB_range elem) in
  let linear :=
    Spec.positive_range (snd_mixer_selem_get_playback_volume_range elem) in
  (variant_of c = Decibel <-> dB) /\
  (variant_of c = Linear <-> ~ dB /\ linear) /\
  (variant_of c = Unsupported <-> ~ dB /\ ~ linear) /\
  mixer_elem c = Some elem /\ channel c = ch.
Proof.
  intros c dB linear. subst c dB linear. unfold create.
  pose proof (positive_range_test (snd_mixer_selem_get_playback_dB_range elem)) as Hd.
  pose proof (positive_range_test (snd_mixer_selem_get_playback_volume_range elem)) as Hl.
  destruct (match snd_mixer_selem_get_playback_dB_range elem with
            | Some (dBMin, dBMax) => dBMax >? dBMin | None => false end).
  - assert (Spec.positive_range (snd_mixer_selem_get_playback_dB_range elem))
      as Hd' by (apply Hd; reflexivity).
    unfold new_VolumeControllerDb.
    destruct (snd_mixer_selem_get_playback_dB_range elem) as [[mn mx]|]; cbn;
      (split; [tauto|]; split; [split; [discriminate | tauto]|];
       split; [split; [discriminate | tauto]|]; split; reflexivity).
  - assert (~ Spec.positive_range (snd_mixer_selem_get_playback_dB_range elem))
      as Hd' by (intros H; apply Hd in H; discriminate).
    destruct (match snd_mixer_selem_get_playback_volume_range elem with
              | Some (volMin, volMax) => volMax >? volMin | None => false end).
    + assert (Spec.positive_range (snd_mixer_selem_get_playback_volume_range elem))
        as Hl' by (apply Hl; reflexivity).
      unfold new_VolumeControllerLinear.
      destruct (snd_mixer_selem_get_playback_volume_range elem) as [[mn mx]|]; cbn;
        (split; [split; [discriminate | tauto]|]; split; [tauto|];
         split; [split; [discriminate | tauto]|]; split; reflexivity).
    + assert (~ Spec.positive_range (snd_mixer_selem_get_playback_volume_range elem))
        as Hl' by (intros H; apply Hl in H; discriminate).
      cbn. split; [split; [discriminate | tauto]|].
      split; [split; [discriminate | tauto]|].
      split; [tauto|]. split; reflexivity.
Qed.

End FactoryClaims.

Section RegistryClaims.
Context {alsa : Alsa}.
Import AMixer.

Lemma add_elems_spec (card : Z) (elems : list snd_mixer_elem_t)
  (acc : list AMVolume.t) :
  add_elems card elems acc =
  acc ++ map (AMVolume.new_AMVolume card) (filter eligible elems).
Proof.
  revert acc. induction elems as [|e rest IH]; intros acc; cbn [add_elems filter].
  - rewrite app_nil_r. reflexivity.
  - unfold eligible at 1.
    destruct (snd_mixer_selem_is_active e); cbn [negb andb].
    + destruct (snd_mixer_selem_has_playback_volume e); cbn [negb].
      * rewrite IH. cbn [map]. rewrite <- app_assoc. reflexivity.
      * apply IH.
    + apply IH.
Qed.

Lemma add_card_spec (d : device) (m : AMixer.t) :
  channelsList (add_card d m) = channelsList m ++ channels_of_device d.
Proof.
  unfold add_card, channels_of_device, loaded.
  destruct (dev_open d); cbn [andb]; [|rewrite app_nil_r; reflexivity].
  destruct (dev_attach d && dev_register d && dev_load d);
    [|rewrite app_nil_r; reflexivity].
  cbn [channelsList]. apply add_elems_spec.
Qed.

Lemma enumerate_spec (cards : list snd_card_next_result) (m : AMixer.t) :
  channelsList (enumerate cards m) = channelsList m ++ registry_spec cards.
Proof.
  revert m. induction cards as [|[|d] rest IH]; intros m;
    cbn [enumerate]; unfold registry_spec; cbn [presented flat_map].
  - rewrite app_nil_r. reflexivity.
  - rewrite app_nil_r. reflexivity.
  - rewrite IH, add_card_spec, <- app_assoc. reflexivity.
Qed.

(** Claim C9.  For every sequence of cards and elements the collaborator
    presents, the constructor yields a registry: its channels are, card
    after card in enumeration order, nothing for a card on which open,
    attach, register or load fails, and otherwise one [AMVolume] per element
    that is active and has playback volume, in the order of the elements;
    enumeration that fails at once, or finds no card, gives the empty
    list. *)
Theorem registry_is_fail_soft (cards : list snd_card_next_result) :
  channels (new_AMixer cards) = registry_spec cards /\
  (forall d rest,
     channels (new_AMixer (card_found d :: rest)) =
     (if loaded d
      then map (AMVolume.new_AMVolume (dev_card d))
             (filter eligible (dev_elems d))
      else []) ++ channels (new_AMixer rest)) /\
  (forall rest, channels (new_AMixer (card_error :: rest)) = []) /\
  channels (new_AMixer []) = [].
Proof.
  assert (forall cs, channels (new_AMixer cs) = registry_spec cs) as H.
  { intros cs. unfold channels, new_AMixer. rewrite enumerate_spec. reflexivity. }
  split; [apply H|]. split; [|split].
  - intros d rest. rewrite !H. reflexivity.
  - intros rest. rewrite H. reflexivity.
  - reflexivity.
Qed.

End RegistryClaims.

(** * The native value and the percentage as nearest integers *)

Section RoundedProducts.
Import Machine Double.

(** The offset [setVolume] adds to the minimum is a nearest integer to
    [p * range / 100]. *)
Lemma offset_nearest (p r : Z) :
  0 <= p <= 100 -> 1 <= r <= 2 ^ 43 ->
  let k := round_half_away (fmul (VolumeController.volumeNorm p) (of_Z r)) in
  0 <= k /\ 100 * k - 50 <= p * r <= 100 * k + 50.
Proof.
  intros Hp Hr k.
  pose proof (product_bounds p r Hp ltac:(lia)) as [X0 [X1 X2]].
  cbv zeta in *.
  set (X := fmul (VolumeController.volumeNorm p) (of_Z r)) in *.
  pose proof (round_half_away_error X) as [k1 k2].
  pose proof (round_half_away_nonneg X X0) as k0.
  fold k in k1, k2, k0.
  assert (0 <= inject_Z (p * r) <= 879609302220800)%Q as [A0 A1].
  { split.
    - apply inject_Z_nonneg. nia.
    - change 879609302220800%Q with (inject_Z (100 * 2 ^ 43)).
      rewrite <- Zle_Qle. nia. }
  rewrite <- inject_Z_mult in X1, X2.
  set (a := inject_Z (p * r)) in *.
  unfold c8 in *.
  split; [exact k0|]. split.
  - assert (inject_Z (100 * k) < inject_Z (p * r + 51))%Q as H.
    { rewrite inject_Z_plus, (inject_Z_mult 100 k). fold a.
      change (inject_Z 100) with 100%Q. change (inject_Z 51) with 51%Q. lra. }
    rewrite <- Zlt_Qlt in H. lia.
  - assert (inject_Z (p * r) < inject_Z (100 * k + 51))%Q as H.
    { rewrite inject_Z_plus, (inject_Z_mult 100 k). fold a.
      change (inject_Z 100) with 100%Q. change (inject_Z 51) with 51%Q. lra. }
    rewrite <- Zlt_Qlt in H. lia.
Qed.

(** The percentage [getVolume] computes from the offset [k] of the native
    value is a nearest integer to [100 * k / range]. *)
Lemma percent_nearest (k r : Z) :
  0 <= k <= r -> 1 <= r <= 2 ^ 42 ->
  let q := round_half_away (fmul (fdiv (of_Z k) (of_Z r)) 100%Q) in
  0 <= q /\ 2 * r * q - r <= 200 * k <= 2 * r * q + r.
Proof.
  intros Hk Hr q.
  pose proof (percent_bounds k r ltac:(lia) ltac:(lia)) as [Y0 [Y1 Y2]].
  cbv zeta in *.
  set (y := fmul (fdiv (of_Z k) (of_Z r)) 100%Q) in *.
  pose proof (round_half_away_error y) as [q1 q2].
  pose proof (round_half_away_nonneg y Y0) as q0.
  fold q in q1, q2, q0.
  assert (0 <= inject_Z k <= 4398046511104)%Q as [A0 A1].
  { split.
    - apply inject_Z_nonneg. lia.
    - change 4398046511104%Q with (inject_Z (2 ^ 42)).
      rewrite <- Zle_Qle. lia. }
  assert (1 <= inject_Z r)%Q as R1 by (apply inject_Z_ge1; lia).
  assert ((y - (1 # 2)) * inject_Z r <= inject_Z q * inject_Z r)%Q as B1.
  { apply Qmult_le_compat_r; lra. }
  assert (inject_Z q * inject_Z r <= (y + (1 # 2)) * inject_Z r)%Q as B2.
  { apply Qmult_le_compat_r; lra. }
  unfold c8 in *.
  split; [exact q0|]. split.
  - assert (inject_Z (2 * (q * r)) < inject_Z (200 * k + r + 1))%Q as H.
    { rewrite !inject_Z_plus, !inject_Z_mult.
      change (inject_Z 2) with 2%Q. change (inject_Z 200) with 200%Q.
      change (inject_Z 1) with 1%Q. lra. }
    rewrite <- Zlt_Qlt in H. lia.
  - assert (inject_Z (200 * k) < inject_Z (2 * (q * r) + r + 1))%Q as H.
    { rewrite !inject_Z_plus, !inject_Z_mult.
      change (inject_Z 2) with 2%Q. change (inject_Z 200) with 200%Q.
      change (inject_Z 1) with 1%Q. lra. }
    rewrite <- Zlt_Qlt in H. lia.
Qed.

End RoundedProducts.

Section NearestIntegers.
Import Machine Double VolumeController.

(** [setVolume] clamps: the native value of a volume is that of the volume
    clamped to [0, 100]. *)
Lemma native_of_clamped (min r v : Z) :
  native_of min r v = native_of min r (Machine.clamp v 0 100).
Proof.
  unfold native_of.
  rewrite (volumeNorm_clamped v), (volumeNorm_clamped (Machine.clamp v 0 100)).
  rewrite clamp_idem by lia. reflexivity.
Qed.

(** For a percentage and a range of at most [2 ^ 43] the native value
    written is [min + k] for a nearest integer [k] to [p * range / 100]. *)
Lemma native_of_nearest (min r p : Z) :
  0 <= p <= 100 -> 1 <= r <= 2 ^ 43 -> in_long min -> in_long (min + r) ->
  exists k,
    native_of min r p = min + k /\
    0 <= k <= r /\ 100 * k - 50 <= p * r <= 100 * k + 50.
Proof.
  intros Hp Hr Hmin Hmax.
  pose proof (offset_nearest p r Hp Hr) as [k0 Hk]. cbv zeta in *.
  set (k := round_half_away (fmul (volumeNorm p) (of_Z r))) in *.
  exists k.
  assert (k <= r) as Hkr by nia.
  split; [|lia].
  unfold native_of.
  unfold in_long, LONG_MIN, LONG_MAX in *.
  rewrite lround_small by (fold k; unfold in_long, LONG_MIN, LONG_MAX; lia).
  fold k. unfold long_add.
  rewrite long_of_Z_small by (unfold in_long, LONG_MIN, LONG_MAX; lia).
  reflexivity.
Qed.

(** For a native value within the range, and a range of at most [2 ^ 42],
    the percentage returned is a nearest integer to
    [100 * (native - min) / range]. *)
Lemma percent_of_nearest (min r n : Z) :
  1 <= r <= 2 ^ 42 -> min <= n <= min + r ->
  let q := percent_of min r n in
  0 <= q <= 100 /\ 2 * r * q - r <= 200 * (n - min) <= 2 * r * q + r.
Proof.
  intros Hr Hn q.
  pose proof (percent_nearest (n - min) r ltac:(lia) Hr) as [q0 Hq].
  cbv zeta in *.
  set (q' := round_half_away (fmul (fdiv (of_Z (n - min)) (of_Z r)) 100%Q)) in *.
  assert (q' <= 100) as Hq100 by nia.
  assert (q = q') as ->; [|lia].
  unfold q, percent_of, long_sub.
  rewrite (long_of_Z_small (n - min))
    by (unfold in_long, LONG_MIN, LONG_MAX; lia).
  rewrite lround_small by (fold q'; unfold in_long, LONG_MIN, LONG_MAX; lia).
  fold q'.
  rewrite int_of_Z_small by (unfold in_int, INT_MIN, INT_MAX; lia).
  apply clamp_id. lia.
Qed.

(** What is written grows with the volume, and what is read with the native
    value. *)
Lemma native_of_monotone (min r v1 v2 : Z) :
  1 <= r <= 2 ^ 43 -> in_long min -> in_long (min + r) -> v1 <= v2 ->
  native_of min r v1 <= native_of min r v2.
Proof.
  intros Hr Hmin Hmax Hv.
  rewrite (native_of_clamped min r v1), (native_of_clamped min r v2).
  pose proof (clamp_range v1 0 100 ltac:(lia)) as H1.
  pose proof (clamp_range v2 0 100 ltac:(lia)) as H2.
  assert (Machine.clamp v1 0 100 <= Machine.clamp v2 0 100) as Hc.
  { unfold Machine.clamp.
    destruct (Z.ltb_spec v1 0), (Z.ltb_spec v2 0), (Z.ltb_spec 100 v1),
      (Z.ltb_spec 100 v2); lia. }
  set (p1 := Machine.clamp v1 0 100) in *.
  set (p2 := Machine.clamp v2 0 100) in *.
  destruct (Z.eq_dec p1 p2) as [->|Hne]; [lia|].
  destruct (native_of_nearest min r p1 H1 Hr Hmin Hmax) as (k1 & -> & _ & K1).
  destruct (native_of_nearest min r p2 H2 Hr Hmin Hmax) as (k2 & -> & _ & K2).
  assert (p1 * r < p2 * r) by nia.
  lia.
Qed.

Lemma percent_of_monotone (min r n1 n2 : Z) :
  1 <= r <= 2 ^ 42 -> min <= n1 -> n1 <= n2 -> n2 <= min + r ->
  percent_of min r n1 <= percent_of min r n2.
Proof.
  intros Hr H1 H12 H2.
  destruct (Z.eq_dec n1 n2) as [->|Hne]; [lia|].
  pose proof (percent_of_nearest min r n1 Hr ltac:(lia)) as [_ Q1].
  pose proof (percent_of_nearest min r n2 Hr ltac:(lia)) as [_ Q2].
  cbv zeta in *. nia.
Qed.

(** From 100 steps on every percentage is read back as it was written; up
    to 100 steps every native value is written back as it was read. *)
Lemma percent_of_native_of_exact (min r p : Z) :
  0 <= p <= 100 -> 100 <= r <= 2 ^ 42 -> in_long min -> in_long (min + r) ->
  percent_of min r (native_of min r p) = p.
Proof.
  intros Hp Hr Hmin Hmax.
  destruct (native_of_nearest min r p Hp ltac:(lia) Hmin Hmax)
    as (k & -> & Hk & K).
  pose proof (percent_of_nearest min r (min + k) ltac:(lia) ltac:(lia))
    as [Hq Q]. cbv zeta in *.
  set (q := percent_of min r (min + k)) in *.
  replace (min + k - min) with k in Q by lia.
  destruct (Z.eq_dec r 100) as [->|Hne]; [lia|].
  nia.
Qed.

Lemma native_of_percent_of_exact (min r n : Z) :
  1 <= r <= 100 -> in_long min -> in_long (min + r) -> min <= n <= min + r ->
  native_of min r (percent_of min r n) = n.
Proof.
  intros Hr Hmin Hmax Hn.
  pose proof (percent_of_nearest min r n ltac:(lia) Hn) as [Hq Q].
  cbv zeta in *.
  set (q := percent_of min r n) in *.
  destruct (native_of_nearest min r q Hq ltac:(lia) Hmin Hmax)
    as (k & -> & Hk & K).
  destruct (Z.eq_dec r 100) as [->|Hne]; [lia|].
  nia.
Qed.

End NearestIntegers.

(** * The scale controllers on their whole range *)

Section BoundedChecks.

Lemma exists_below_spec (n : nat) (P : Z -> bool) :
  exists_below n P = true -> exists z, 0 <= z < Z.of_nat n /\ P z = true.
Proof.
  induction n as [|k IH]; intros H; [discriminate|].
  cbn [exists_below] in H. apply orb_prop in H as [H|H].
  - exists (Z.of_nat k). split; [lia | exact H].
  - destruct (IH H) as (z & Hz & HP). exists z. split; [lia | exact HP].
Qed.

End BoundedChecks.

Section ScaleControllerFacts.
Context {alsa : Alsa}.
Import Machine Double VolumeController.

Lemma roundtrip_shift (min r p : Z) :
  percent_of min r (native_of min r p) = percent_of 0 r (native_of 0 r p).
Proof.
  unfold percent_of, native_of. rewrite !long_sub_add. reflexivity.
Qed.

Lemma range_positive (c : VolumeController.t) :
  1 <= cached_range c -> (cached_range c <=? 0) = false.
Proof. intros H. apply Z.leb_gt. lia. Qed.

(** For every volume, the native value [setVolume] writes is the minimum
    plus a nearest integer [k] to [p * range / 100], [p] being the volume
    clamped to [0, 100]: [100 * k] is within 50 of [p * range].  Unless
    [p * range / 100] lies half-way between two integers, it is
    [min + (p * range + 50) / 100]. *)
Theorem setVolume_writes_nearest_native (c : VolumeController.t)
  (volume : Z) (s : hw) :
  Hardware.range_fits c ->
  let p := Machine.clamp volume 0 100 in
  let n := native_of (cached_min c) (cached_range c) volume in
  let k := n - cached_min c in
  after (setVolume c volume) s = write_native c n s /\
  100 * k - 50 <= p * cached_range c <= 100 * k + 50 /\
  ((p * cached_range c) mod 100 <> 50 ->
   n = cached_min c + (p * cached_range c + 50) / 100).
Proof.
  intros (Hr & Hmin & Hmax) p n k.
  pose proof (clamp_range volume 0 100 ltac:(lia)) as Hp. fold p in Hp.
  split.
  { rewrite after_setVolume, range_positive by lia. reflexivity. }
  destruct (native_of_nearest (cached_min c) (cached_range c) p Hp
              ltac:(lia) Hmin Hmax) as (k' & E & Hk & K).
  assert (k = k') as ->.
  { unfold k, n. rewrite native_of_clamped. fold p. lia. }
  split; [exact K|].
  intros Hm. unfold n. rewrite native_of_clamped. fold p. rewrite E.
  f_equal. apply nearest_hundredth; assumption.
Qed.

(** On a cached range from 1 to [2 ^ 42], the minimum and the maximum being
    [long]s, [setVolume] never writes outside the range of the element: for
    every volume the native value is between the minimum and the maximum;
    it is the minimum for a volume of 0 or less and the maximum for a volume
    of 100 or more. *)
Theorem setVolume_stays_within_range (c : VolumeController.t)
  (volume : Z) (s : hw) :
  Hardware.range_fits c ->
  let n := native_of (cached_min c) (cached_range c) volume in
  after (setVolume c volume) s = write_native c n s /\
  cached_min c <= n <= cached_min c + cached_range c /\
  (volume <= 0 -> n = cached_min c) /\
  (100 <= volume -> n = cached_min c + cached_range c).
Proof.
  intros (Hr & Hmin & Hmax) n.
  split.
  { rewrite after_setVolume, range_positive by lia. reflexivity. }
  pose proof (clamp_range volume 0 100 ltac:(lia)) as Hp.
  destruct (native_of_nearest (cached_min c) (cached_range c) _ Hp
              ltac:(lia) Hmin Hmax) as (k & E & Hk & K).
  unfold n. rewrite native_of_clamped, E.
  split; [lia|]. split; intros Hv.
  - replace (Machine.clamp volume 0 100) with 0 in K; [lia|].
    unfold Machine.clamp. destruct (Z.ltb_spec volume 0); [reflexivity|].
    destruct (Z.ltb_spec 100 volume); lia.
  - replace (Machine.clamp volume 0 100) with 100 in K; [lia|].
    unfold Machine.clamp. destruct (Z.ltb_spec volume 0); [lia|].
    destruct (Z.ltb_spec 100 volume); lia.
Qed.

(** On a cached range from 1 to [2 ^ 42], the minimum and the maximum being
    [long]s, a larger volume never writes a smaller native value. *)
Theorem setVolume_is_monotone (c : VolumeController.t)
  (volume1 volume2 : Z) (s : hw) :
  Hardware.range_fits c -> volume1 <= volume2 ->
  let n1 := native_of (cached_min c) (cached_range c) volume1 in
  let n2 := native_of (cached_min c) (cached_range c) volume2 in
  after (setVolume c volume1) s = write_native c n1 s /\
  after (setVolume c volume2) s = write_native c n2 s /\
  n1 <= n2.
Proof.
  intros (Hr & Hmin & Hmax) Hv n1 n2.
  split; [|split].
  - rewrite after_setVolume, range_positive by lia. reflexivity.
  - rewrite after_setVolume, range_positive by lia. reflexivity.
  - apply native_of_monotone; try assumption. lia.
Qed.

(** For a native value within the range, [getVolume] returns a nearest
    integer [q] to [100 * (native - min) / range]: [2 * range * q] is within
    [range] of [200 * (native - min)].  Unless that quotient lies half-way
    between two integers, it is [(200 * (native - min) + range) / (2 * range)];
    it is 0 at the minimum and 100 at the maximum. *)
Theorem getVolume_returns_nearest_percentage (c : VolumeController.t)
  (s : hw) (native : Z) :
  Hardware.range_fits c ->
  read_native c s = Some native ->
  cached_min c <= native <= cached_min c + cached_range c ->
  let q := result (getVolume c) s in
  let k := native - cached_min c in
  let r := cached_range c in
  2 * r * q - r <= 200 * k <= 2 * r * q + r /\
  ((200 * k + r) mod (2 * r) <> 0 -> q = (200 * k + r) / (2 * r)) /\
  (native = cached_min c -> q = 0) /\
  (native = cached_min c + r -> q = 100).
Proof.
  intros (Hr & Hmin & Hmax) Hread Hn q k r.
  assert (q = percent_of (cached_min c) r native) as Eq.
  { unfold q. rewrite result_getVolume, range_positive, Hread by lia.
    reflexivity. }
  pose proof (percent_of_nearest (cached_min c) r native Hr Hn) as [Hq Q].
  cbv zeta in Hq, Q. rewrite <- Eq in Hq, Q. fold k in Q.
  split; [exact Q|]. split; [|split].
  - intros Hm. apply nearest_ratio; [lia | lia | exact Hm].
  - intros E. assert (k = 0) as K0 by (unfold k; lia). rewrite K0 in Q.
    unfold r in *. nia.
  - intros E. assert (k = r) as Kr by (unfold k; lia). rewrite Kr in Q.
    unfold r in *. nia.
Qed.

(** On a cached range from 1 to [2 ^ 42], the minimum and the maximum being
    [long]s, a larger native value within the range never reads as a smaller
    percentage. *)
Theorem getVolume_is_monotone (c : VolumeController.t)
  (s1 s2 : hw) (native1 native2 : Z) :
  Hardware.range_fits c ->
  read_native c s1 = Some native1 -> read_native c s2 = Some native2 ->
  cached_min c <= native1 -> native1 <= native2 ->
  native2 <= cached_min c + cached_range c ->
  result (getVolume c) s1 <= result (getVolume c) s2.
Proof.
  intros (Hr & Hmin & Hmax) R1 R2 H1 H12 H2.
  rewrite !result_getVolume, range_positive, R1, R2 by lia.
  apply percent_of_monotone; assumption.
Qed.

(** On a range of at least 100 native steps the round trip is exact: for
    every volume, [getVolume] after [setVolume], the hardware reading back
    what was written, returns the volume clamped to [0, 100]. *)
Theorem roundtrip_exact_on_fine_range (c : VolumeController.t)
  (volume : Z) (s : hw) :
  Hardware.fine_range c ->
  Spec.reads_back_written c volume s ->
  result (getVolume c) (after (setVolume c volume) s)
  = Machine.clamp volume 0 100.
Proof.
  intros (Hf & Hr & Hmin & Hmax) Hrb. unfold Spec.reads_back_written in Hrb.
  rewrite result_getVolume, range_positive, Hrb by lia.
  rewrite native_of_clamped.
  apply percent_of_native_of_exact; try assumption; try lia.
  apply clamp_range. lia.
Qed.

(** On a range of at most 100 native steps, [setVolume] of the volume that
    [getVolume] returns writes the native value the hardware reported: to
    read the volume and set it again does not move the control. *)
Theorem getVolume_then_setVolume_rewrites (c : VolumeController.t)
  (s : hw) (native : Z) :
  Hardware.range_fits c -> cached_range c <= 100 ->
  read_native c s = Some native ->
  cached_min c <= native <= cached_min c + cached_range c ->
  after (setVolume c (result (getVolume c) s)) s = write_native c native s.
Proof.
  intros (Hr & Hmin & Hmax) Hc Hread Hn.
  rewrite after_setVolume, result_getVolume, range_positive, Hread by lia.
  rewrite native_of_percent_of_exact; try assumption; try lia.
  reflexivity.
Qed.

(** On a range of 1 to 33 native steps there is a percentage that comes
    back more than 1 off, on all hardware that reads back what was written:
    34 steps are the least for a round trip within 1. *)
Theorem roundtrip_needs_34_steps (c : VolumeController.t) :
  1 <= cached_range c <= 33 ->
  exists p,
    0 <= p <= 100 /\
    forall s,
      Spec.reads_back_written c p s ->
      ~ (p - 1 <= result (getVolume c) (after (setVolume c p) s) <= p + 1).
Proof.
  intros Hr.
  assert (all_below 34
            (fun r =>
               (r =? 0) ||
               exists_below 101
                 (fun p =>
                    let q := percent_of 0 r (native_of 0 r p) in
                    negb ((p - 1 <=? q) && (q <=? p + 1)))) = true) as H
    by (vm_compute; reflexivity).
  pose proof (all_below_spec _ _ H (cached_range c) ltac:(lia)) as Hc.
  cbv beta in Hc. apply orb_prop in Hc as [Hc|Hc];
    [apply Z.eqb_eq in Hc; lia|].
  apply exists_below_spec in Hc as (p & Hp & Hoff). cbv zeta in Hoff.
  exists p. split; [lia|]. intros s Hrb Hin.
  unfold Spec.reads_back_written in Hrb.
  rewrite result_getVolume, range_positive, Hrb, roundtrip_shift in Hin by lia.
  apply negb_true_iff, andb_false_iff in Hoff as [Hoff|Hoff];
    apply Z.leb_gt in Hoff; lia.
Qed.

End ScaleControllerFacts.

Section OutOfRange.
Import Machine Double VolumeController.
Local Open Scope Q_scope.

(** [percent_bounds] for a native value below the minimum. *)
Lemma percent_bounds_neg (k r : Z) :
  (k < 0)%Z -> (1 <= r <= 2 ^ 63)%Z ->
  let y := fmul (fdiv (of_Z k) (of_Z r)) 100 in
  y <= 0 /\
  100 * inject_Z k * (1 + c8) <= y * inject_Z r <=
  100 * inject_Z k * (1 - c8).
Proof.
  intros Hk Hr y.
  assert (inject_Z k <= - (1)) as Hk1.
  { change (- (1)) with (inject_Z (-1)). rewrite <- Zle_Qle. lia. }
  assert (inject_Z k <= - (1 # 2 ^ 70)) as Hk70
    by (apply Qle_trans with (- (1)); [exact Hk1 | discriminate]).
  pose proof (rnd_bounds_neg _ Hk70) as [K1 K2]. fold (of_Z k) in K1, K2.
  pose proof (of_Z_bounds r ltac:(lia)) as [R1 R2].
  pose proof (inject_Z_ge1 r (proj1 Hr)) as Hr1.
  assert (inject_Z r <= 9223372036854775808) as Hr2.
  { change 9223372036854775808 with (inject_Z (2 ^ 63)). rewrite <- Zle_Qle. lia. }
  subst y. unfold fdiv.
  set (K := of_Z k) in *. set (R := of_Z r) in *.
  set (k' := inject_Z k) in *. set (r' := inject_Z r) in *.
  unfold eps, c8 in *.
  assert (0 < R) as HR by lra.
  set (t := K / R).
  assert (t * R == K) as HtR by (unfold t; field; lra).
  assert (t <= - (1 # 2 ^ 69)) as Hn.
  { unfold t. apply Qle_shift_div_r; [exact HR|].
    apply Qle_trans with (- (1 - (1 # 9007199254740992))); [lra|].
    apply Qle_trans with
      (- (1 # 2 ^ 69) * (9223372036854775808 * (1 + (1 # 9007199254740992))));
      [discriminate|].
    assert (R <= 9223372036854775808 * (1 + (1 # 9007199254740992))) by lra.
    set (c := (1 # 2 ^ 69)) in *.
    assert (0 <= c) by discriminate.
    assert (c * R <= c * (9223372036854775808 * (1 + (1 # 9007199254740992)))).
    { rewrite !(Qmult_comm c). apply Qmult_le_compat_r; assumption. }
    lra. }
  assert (t <= - (1 # 2 ^ 70)) as Hn'
    by (apply Qle_trans with (- (1 # 2 ^ 69)); [exact Hn | discriminate]).
  pose proof (rnd_bounds_neg t Hn') as [Y1 Y2].
  set (y1 := rnd t) in *. unfold eps in *.
  assert (y1 <= 0) as Hy1.
  { assert (t <= 0) by (apply Qle_trans with (- (1 # 2 ^ 69));
                         [exact Hn | discriminate]).
    lra. }
  assert (y1 * 100 <= - (1 # 2 ^ 70)) as Hm.
  { apply Qle_trans with (- (1 # 2 ^ 69) * (1 - (1 # 9007199254740992)) * 100);
      [|discriminate].
    assert (y1 <= - (1 # 2 ^ 69) * (1 - (1 # 9007199254740992))); [|lra].
    apply Qle_trans with (t * (1 - (1 # 9007199254740992))); [exact Y2|].
    apply Qmult_le_compat_r; [exact Hn | discriminate]. }
  pose proof (rnd_bounds_neg _ Hm) as [Z1 Z2].
  fold (fmul y1 100) in Z1, Z2. set (y := fmul y1 100) in *. unfold eps in *.
  assert (y <= 0) as Hy by lra.
  assert (y * R <= (t * (1 - (1 # 9007199254740992)) * 100
                    * (1 - (1 # 9007199254740992))) * R) as U.
  { apply Qmult_le_compat_r; lra. }
  assert ((t * (1 + (1 # 9007199254740992)) * 100
           * (1 + (1 # 9007199254740992))) * R <= y * R) as L.
  { apply Qmult_le_compat_r; lra. }
  assert (0 <= - y) as Hy' by lra.
  assert ((- y) * (r' * (1 - (1 # 9007199254740992))) <= (- y) * R) as U'.
  { rewrite !(Qmult_comm (- y)). apply Qmult_le_compat_r; lra. }
  assert ((- y) * R <= (- y) * (r' * (1 + (1 # 9007199254740992)))) as L'.
  { rewrite !(Qmult_comm (- y)). apply Qmult_le_compat_r; lra. }
  split; [exact Hy|]. split; lra.
Qed.

Local Close Scope Q_scope.

(** A native value below the minimum reads as 0 and one above the maximum
    as 100, when it is no more than [10 ^ 6] ranges away. *)
Lemma percent_of_below (min r n : Z) :
  1 <= r <= 2 ^ 42 -> n < min -> min - n <= 1000000 * r ->
  percent_of min r n = 0.
Proof.
  intros Hr Hn Hfar.
  pose proof (percent_bounds_neg (n - min) r ltac:(lia) ltac:(lia))
    as [Y0 [Y1 _]]. cbv zeta in *.
  set (y := fmul (fdiv (of_Z (n - min)) (of_Z r)) 100%Q) in *.
  pose proof (round_half_away_error y) as [q1 q2].
  set (q := round_half_away y) in *.
  assert (1 <= inject_Z r)%Q as R1 by (apply inject_Z_ge1; lia).
  assert (- (1000000) * inject_Z r <= inject_Z (n - min))%Q as K.
  { change (- (1000000))%Q with (inject_Z (-1000000)).
    rewrite <- inject_Z_mult, <- Zle_Qle. lia. }
  assert (- (100000001) <= y)%Q as Ylo.
  { apply (Qmult_le_r _ _ (inject_Z r)); [lra|]. unfold c8 in *.
    set (k' := inject_Z (n - min)) in *. set (r' := inject_Z r) in *. lra. }
  assert (-100000002 < q <= 0) as Hq.
  { split.
    - rewrite Zlt_Qlt. change (inject_Z (-100000002)) with (- (100000002))%Q.
      lra.
    - assert (q < 1); [|lia].
      rewrite Zlt_Qlt. change (inject_Z 1) with 1%Q. lra. }
  unfold percent_of, long_sub.
  rewrite (long_of_Z_small (n - min))
    by (unfold in_long, LONG_MIN, LONG_MAX; lia).
  fold y.
  rewrite lround_small by (fold q; unfold in_long, LONG_MIN, LONG_MAX; lia).
  fold q.
  rewrite int_of_Z_small by (unfold in_int, INT_MIN, INT_MAX; lia).
  unfold Machine.clamp. destruct (Z.ltb_spec q 0); [reflexivity|].
  destruct (Z.ltb_spec 100 q); lia.
Qed.

Lemma percent_of_above (min r n : Z) :
  1 <= r <= 2 ^ 42 -> min + r <= n -> n - min <= 1000000 * r ->
  percent_of min r n = 100.
Proof.
  intros Hr Hn Hfar.
  pose proof (percent_bounds (n - min) r ltac:(lia) ltac:(lia))
    as [Y0 [Y1 Y2]]. cbv zeta in *.
  set (y := fmul (fdiv (of_Z (n - min)) (of_Z r)) 100%Q) in *.
  pose proof (round_half_away_error y) as [q1 q2].
  set (q := round_half_away y) in *.
  assert (1 <= inject_Z r)%Q as R1 by (apply inject_Z_ge1; lia).
  assert (inject_Z r <= inject_Z (n - min) <= 1000000 * inject_Z r)%Q
    as [K1 K2].
  { split.
    - rewrite <- Zle_Qle. lia.
    - change 1000000%Q with (inject_Z 1000000).
      rewrite <- inject_Z_mult, <- Zle_Qle. lia. }
  assert (100 - (1 # 4) <= y <= 100000001)%Q as [Ylo Yhi].
  { unfold c8 in *.
    set (k' := inject_Z (n - min)) in *. set (r' := inject_Z r) in *.
    split; apply (Qmult_le_r _ _ r'); lra. }
  assert (100 <= q < 100000002) as Hq.
  { split.
    - assert (99 < q); [|lia].
      rewrite Zlt_Qlt. change (inject_Z 99) with 99%Q. lra.
    - rewrite Zlt_Qlt. change (inject_Z 100000002) with 100000002%Q. lra. }
  unfold percent_of, long_sub.
  rewrite (long_of_Z_small (n - min))
    by (unfold in_long, LONG_MIN, LONG_MAX; lia).
  fold y.
  rewrite lround_small by (fold q; unfold in_long, LONG_MIN, LONG_MAX; lia).
  fold q.
  rewrite int_of_Z_small by (unfold in_int, INT_MIN, INT_MAX; lia).
  unfold Machine.clamp. destruct (Z.ltb_spec q 0); [lia|].
  destruct (Z.ltb_spec 100 q); lia.
Qed.

End OutOfRange.

Section OutOfRangeReadings.
Context {alsa : Alsa}.
Import Machine VolumeController.

(** On a cached range from 1 to [2 ^ 42], the minimum and the maximum being
    [long]s, [getVolume] clamps what the hardware reports outside the range:
    a native value below the minimum reads as 0 and one above the maximum as
    100, as long as it is no more than [10 ^ 6] ranges away (so that the
    percentage is an [int]).  The value -9999999 that alsa-lib reports for
    a muted control reads as 0 when it is within that distance of the
    minimum. *)
Theorem getVolume_clamps_out_of_range (c : VolumeController.t) (s : hw)
  (native : Z) :
  Hardware.range_fits c ->
  read_native c s = Some native ->
  (native <= cached_min c ->
   cached_min c - native <= 1000000 * cached_range c ->
   result (getVolume c) s = 0) /\
  (cached_min c + cached_range c <= native ->
   native - cached_min c <= 1000000 * cached_range c ->
   result (getVolume c) s = 100).
Proof.
  intros (Hr & Hmin & Hmax) Hread.
  rewrite result_getVolume, Hread.
  replace (cached_range c <=? 0) with false by (symmetry; apply Z.leb_gt; lia).
  split.
  - intros Hn Hfar. destruct (Z.eq_dec native (cached_min c)) as [->|Hne].
    + pose proof (percent_of_nearest (cached_min c) (cached_range c)
                    (cached_min c) Hr ltac:(lia)) as [Hq Q].
      cbv zeta in Hq, Q. nia.
    + apply percent_of_below; lia.
  - intros Hn Hfar. apply percent_of_above; lia.
Qed.

End OutOfRangeReadings.

(** * The scale controllers and the specification's formulas (claims C2, C3) *)

Section SpecificationFormulas.
Import Machine Double VolumeController.

(** The native value written is the specification's
    [min + round (fraction * range)], or the integer below it when
    [p * range / 100] lies half-way between two integers. *)
Lemma native_of_spec (min r volume : Z) :
  1 <= r <= 2 ^ 43 -> in_long min -> in_long (min + r) ->
  let p := Machine.clamp volume 0 100 in
  let n := native_of min r volume in
  let e := Spec.native min r volume in
  e - 1 <= n <= e /\ ((p * r) mod 100 <> 50 -> n = e).
Proof.
  intros Hr Hmin Hmax p n e.
  pose proof (clamp_range volume 0 100 ltac:(lia)) as Hp. fold p in Hp.
  destruct (native_of_nearest min r p Hp Hr Hmin Hmax) as (k & E & Hk & K).
  assert (n = min + k) as ->
    by (unfold n; rewrite native_of_clamped; fold p; exact E).
  unfold e. rewrite spec_native_eq by lia. fold p.
  pose proof (nearest_hundredth_bounds (p * r) k K) as B.
  split; [lia|].
  intros Hm. f_equal. apply nearest_hundredth; assumption.
Qed.

(** The specification's percentage of a native value within the range needs
    no clamping; below the range it is 0 and above it 100. *)
Lemma spec_percentage_within (min r n : Z) :
  0 < r -> min <= n <= min + r ->
  Spec.percentage min r n = (200 * (n - min) + r) / (2 * r).
Proof.
  intros Hr Hn. unfold Spec.percentage.
  rewrite spec_rounded_percentage_eq by lia.
  apply clamp_id. split.
  - apply Z.div_pos; lia.
  - apply Z.lt_succ_r. apply Z.div_lt_upper_bound; lia.
Qed.

Lemma spec_percentage_below (min r n : Z) :
  0 < r -> n <= min -> Spec.percentage min r n = 0.
Proof.
  intros Hr Hn. unfold Spec.percentage, Spec.rounded_percentage.
  set (x := (inject_Z (n - min) / inject_Z r * 100)%Q).
  pose proof (round_half_away_error x) as [_ K].
  assert (0 < inject_Z r)%Q as Hr'.
  { change 0%Q with (inject_Z 0). rewrite <- Zlt_Qlt. exact Hr. }
  assert (inject_Z (n - min) <= 0)%Q as Hk.
  { change 0%Q with (inject_Z 0). rewrite <- Zle_Qle. lia. }
  assert (x <= 0)%Q as Hx.
  { unfold x. assert (inject_Z (n - min) / inject_Z r <= 0)%Q; [|lra].
    apply Qle_shift_div_r; [exact Hr'|]. lra. }
  set (q := round_half_away x) in *.
  assert (q < 1) as Hq.
  { rewrite Zlt_Qlt. change (inject_Z 1) with 1%Q. lra. }
  unfold Machine.clamp. destruct (Z.ltb_spec q 0); [reflexivity|].
  destruct (Z.ltb_spec 100 q); lia.
Qed.

Lemma spec_percentage_above (min r n : Z) :
  0 < r -> min + r <= n -> Spec.percentage min r n = 100.
Proof.
  intros Hr Hn. unfold Spec.percentage, Spec.rounded_percentage.
  set (x := (inject_Z (n - min) / inject_Z r * 100)%Q).
  pose proof (round_half_away_error x) as [K _].
  assert (0 < inject_Z r)%Q as Hr'.
  { change 0%Q with (inject_Z 0). rewrite <- Zlt_Qlt. exact Hr. }
  assert (inject_Z r <= inject_Z (n - min))%Q as Hk.
  { rewrite <- Zle_Qle. lia. }
  assert (100 <= x)%Q as Hx.
  { unfold x. assert (1 <= inject_Z (n - min) / inject_Z r)%Q; [|lra].
    apply Qle_shift_div_l; [exact Hr'|]. lra. }
  set (q := round_half_away x) in *.
  assert (99 < q) as Hq.
  { rewrite Zlt_Qlt. change (inject_Z 99) with 99%Q. lra. }
  unfold Machine.clamp. destruct (Z.ltb_spec q 0); [lia|].
  destruct (Z.ltb_spec 100 q); lia.
Qed.

(** The percentage read is the specification's, or the integer below it
    when [100 * (native - min) / range] lies half-way between two
    integers. *)
Lemma percent_of_spec (min r n : Z) :
  1 <= r <= 2 ^ 42 -> min <= n <= min + r ->
  let q := percent_of min r n in
  let e := Spec.percentage min r n in
  e - 1 <= q <= e /\
  ((200 * (n - min) + r) mod (2 * r) <> 0 -> q = e).
Proof.
  intros Hr Hn q e.
  pose proof (percent_of_nearest min r n Hr Hn) as [_ Q]. cbv zeta in Q.
  fold q in Q.
  unfold e. rewrite spec_percentage_within by lia.
  split.
  - apply nearest_ratio_bounds; [lia | exact Q].
  - intros Hm. apply nearest_ratio; [lia | exact Q | exact Hm].
Qed.

Lemma percent_of_spec_outside (min r n : Z) :
  1 <= r <= 2 ^ 42 -> n < min \/ min + r < n ->
  - (1000000 * r) <= n - min <= 1000000 * r ->
  percent_of min r n = Spec.percentage min r n.
Proof.
  intros Hr [Hn|Hn] Hfar.
  - rewrite percent_of_below, spec_percentage_below by lia. reflexivity.
  - rewrite percent_of_above, spec_percentage_above by lia. reflexivity.
Qed.

End SpecificationFormulas.

Section SpecificationClaims.
Context {alsa : Alsa}.
Import Machine Double VolumeController.

(** Claim C2, amended.  For every input volume, [setVolume] of a scale
    controller is a no-op when the cached range is not strictly positive,
    and otherwise writes one native value [n] to the hardware; it acts as
    on the input clamped to [0,100].  When the range is at most [2 ^ 42]
    and the minimum and the maximum are [long]s, [n] is the native value of
    the specification, [min + round (fraction * range)] for the input
    clamped to [0,100] and normalized to a fraction, except that it may be
    the integer below it when [p * range / 100], [p] the clamped input,
    lies half-way between two integers: the fraction and the product are
    doubles.  The rounding [round] is to the nearest integer, halves away
    from zero; and a Decibel controller with dbMin = -5100 and dbMax = 0
    writes -2550 on [setVolume 50]. *)
Theorem setVolume_writes_native (c : VolumeController.t) (volume : Z) (s : hw) :
  (cached_range c <= 0 -> after (setVolume c volume) s = s) /\
  (0 < cached_range c ->
   after (setVolume c volume) s
   = write_native c (native_of (cached_min c) (cached_range c) volume) s) /\
  after (setVolume c volume) s
  = after (setVolume c (Machine.clamp volume 0 100)) s /\
  (Hardware.range_fits c ->
   let p := Machine.clamp volume 0 100 in
   let n := native_of (cached_min c) (cached_range c) volume in
   let e := Spec.native (cached_min c) (cached_range c) volume in
   e - 1 <= n <= e /\
   ((p * cached_range c) mod 100 <> 50 -> n = e)) /\
  (forall x : Q, Spec.nearest_half_away x (round_half_away x)) /\
  (forall e ch,
     after (setVolume (VolumeControllerDb (Some e) ch (-5100) 0 5100) 50) s
     = snd (snd_mixer_selem_set_playback_dB e ch (-2550) 0 s)).
Proof.
  split; [|split; [|split; [|split; [|split]]]].
  - intros H. rewrite after_setVolume.
    destruct (Z.leb_spec (cached_range c) 0); [reflexivity | lia].
  - intros H. rewrite after_setVolume.
    destruct (Z.leb_spec (cached_range c) 0); [lia | reflexivity].
  - rewrite !after_setVolume, <- native_of_clamped. reflexivity.
  - intros (Hr & Hmin & Hmax).
    apply native_of_spec; try assumption. lia.
  - exact round_half_away_nearest.
  - intros e ch. rewrite after_setVolume. cbn [cached_range cached_min].
    change (5100 <=? 0) with false. cbv iota.
    replace (native_of (-5100) 5100 50) with (-2550)
      by (vm_compute; reflexivity).
    reflexivity.
Qed.

(** Claim C3, amended.  For every hardware state, [getVolume] of a scale
    controller returns 0 when its cached range is not strictly positive or
    when the hardware read fails.  Otherwise, on a range of at most
    [2 ^ 42]: for a native value from [min] to [min + range] it returns the
    specification's [round ((native - min) / range * 100)], which is then
    in [0,100], except that it may return the integer below it when
    [(native - min) * 100 / range] lies half-way between two integers (the
    fraction and the product are doubles); for a native value outside of
    that range and no more than [10 ^ 6] ranges away from [min] it returns
    that rounding clamped to [0,100].  In every case the result is a
    percentage in [0,100], the hardware is left as it was, and nothing but
    that percentage reaches the caller. *)
Theorem getVolume_percentage (c : VolumeController.t) (s : hw) :
  (cached_range c <= 0 -> result (getVolume c) s = 0) /\
  (read_native c s = None -> result (getVolume c) s = 0) /\
  (forall native,
     1 <= cached_range c <= 2 ^ 42 -> read_native c s = Some native ->
     cached_min c <= native <= cached_min c + cached_range c ->
     let q := result (getVolume c) s in
     let e := Spec.percentage (cached_min c) (cached_range c) native in
     e = Spec.rounded_percentage (cached_min c) (cached_range c) native /\
     e - 1 <= q <= e /\
     ((200 * (native - cached_min c) + cached_range c)
        mod (2 * cached_range c) <> 0 -> q = e)) /\
  (forall native,
     1 <= cached_range c <= 2 ^ 42 -> read_native c s = Some native ->
     native < cached_min c \/ cached_min c + cached_range c < native ->
     - (1000000 * cached_range c) <= native - cached_min c
       <= 1000000 * cached_range c ->
     result (getVolume c) s
     = Spec.percentage (cached_min c) (cached_range c) native) /\
  0 <= result (getVolume c) s <= 100 /\
  after (getVolume c) s = s.
Proof.
  split; [|split; [|split; [|split; [|split]]]].
  - intros H. rewrite result_getVolume.
    destruct (Z.leb_spec (cached_range c) 0); [reflexivity | lia].
  - intros H. rewrite result_getVolume, H.
    destruct (cached_range c <=? 0); reflexivity.
  - intros native Hr Hread Hn q e.
    assert (q = percent_of (cached_min c) (cached_range c) native) as ->.
    { unfold q. rewrite result_getVolume, Hread.
      destruct (Z.leb_spec (cached_range c) 0); [lia | reflexivity]. }
    split.
    + unfold e. rewrite spec_percentage_within by lia.
      rewrite spec_rounded_percentage_eq by lia. reflexivity.
    + apply percent_of_spec; assumption.
  - intros native Hr Hread Hn Hfar. rewrite result_getVolume, Hread.
    destruct (Z.leb_spec (cached_range c) 0); [lia|].
    apply percent_of_spec_outside; assumption.
  - apply result_getVolume_range.
  - apply after_getVolume.
Qed.

End SpecificationClaims.

(** * Scaling a percentage by the balance *)

Section ScalingFacts.
Import Machine Double.

(** A percentage scaled by a fraction of [0, 1] and rounded is a percentage
    no larger. *)
Lemma scaled_within (volume : Z) (bn : Q) :
  0 <= volume <= 100 ->
  (0 <= bn <= 1)%Q -> (bn == 0 \/ (1 # 128) <= bn)%Q ->
  0 <= round_half_away (fmul (of_Z volume) bn) <= volume.
Proof.
  intros Hv [B0 B1] Bn.
  pose proof (of_Z_bounds volume (proj1 Hv)) as [V1 V2].
  assert (0 <= inject_Z volume <= 100)%Q as [Hv0 Hv1].
  { split; [change 0%Q with (inject_Z 0) | change 100%Q with (inject_Z 100)];
      rewrite <- Zle_Qle; lia. }
  set (V := of_Z volume) in *. unfold eps in *.
  assert (0 <= V * bn)%Q as P0 by (apply Qmult_le_0_compat; lra).
  assert (V * bn <= (inject_Z volume * (1 + (1 # 9007199254740992))) * 1)%Q
    as P1.
  { apply mul_le_mono; lra. }
  assert (V * bn == 0 \/ (1 # 2 ^ 70) <= V * bn)%Q as Hn.
  { destruct (Z.eq_dec volume 0) as [->|Hz].
    - left. subst V. rewrite of_Z_zero. ring.
    - destruct Bn as [Bz|Bp].
      + left. rewrite Bz. ring.
      + right. assert (1 <= inject_Z volume)%Q by (apply inject_Z_ge1; lia).
        apply Qle_trans with ((1 - (1 # 9007199254740992)) * (1 # 128))%Q;
          [discriminate|].
        apply mul_le_mono; lra. }
  pose proof (rnd_bounds _ Hn) as [X1 X2]. fold (fmul V bn) in X1, X2.
  unfold eps in *.
  apply round_half_away_near.
  - change (inject_Z 0) with 0%Q. lra.
  - lra.
  - lra.
Qed.

(** [1.0 - abs(balance) / 100.0], the fraction of [AMVolume::setVolume]. *)
Lemma volume_fraction_range (a : Z) :
  0 <= a <= 100 ->
  let bn := fsub 1%Q (fdiv (of_Z a) 100%Q) in
  ((0 <= bn <= 1) /\ (bn == 0 \/ (1 # 128) <= bn))%Q.
Proof.
  intros Ha.
  assert (all_below 101
            (fun a =>
               let bn := fsub 1%Q (fdiv (of_Z a) 100%Q) in
               Qle_bool 0 bn && Qle_bool bn 1
               && (Qeq_bool bn 0 || Qle_bool (1 # 128) bn)) = true) as H
    by (vm_compute; reflexivity).
  pose proof (all_below_spec _ _ H a ltac:(lia)) as Hb. cbv beta zeta in Hb.
  apply andb_prop in Hb as [Hb H3]. apply andb_prop in Hb as [H1 H2].
  apply Qle_bool_iff in H1, H2. cbv zeta. split; [split; assumption|].
  apply orb_prop in H3 as [H3|H3].
  - left. apply Qeq_bool_iff. exact H3.
  - right. apply Qle_bool_iff. exact H3.
Qed.

(** At full volume the other side gets [100 - |balance|]. *)
Lemma other_side_abs (volume b : Z) :
  SetBalance.other_side volume (Z.abs b) = SetBalance.other_side volume b.
Proof. unfold SetBalance.other_side. rewrite Z.abs_idemp. reflexivity. Qed.

Lemma other_side_full_volume (b : Z) :
  -100 <= b <= 100 -> SetBalance.other_side 100 b = 100 - Z.abs b.
Proof.
  intros Hb.
  assert (all_below 101
            (fun a => SetBalance.other_side 100 a =? 100 - a) = true) as H
    by (vm_compute; reflexivity).
  pose proof (all_below_spec _ _ H (Z.abs b) ltac:(lia)) as Ha.
  cbv beta in Ha. apply Z.eqb_eq in Ha.
  rewrite other_side_abs in Ha. exact Ha.
Qed.

Lemma other_side_within (volume b : Z) :
  0 <= volume <= 100 -> -100 <= b <= 100 ->
  0 <= SetBalance.other_side volume b <= volume.
Proof.
  intros Hv Hb. unfold SetBalance.other_side.
  pose proof (balanceFraction_range (Z.abs b) ltac:(lia)) as [B Bn].
  apply scaled_within; assumption.
Qed.

Lemma other_side_centre (volume : Z) :
  0 <= volume <= 100 -> SetBalance.other_side volume 0 = volume.
Proof.
  intros Hv.
  assert (all_below 101 (fun v => SetBalance.other_side v 0 =? v) = true) as H
    by (vm_compute; reflexivity).
  pose proof (all_below_spec _ _ H volume ltac:(lia)) as Ha.
  cbv beta in Ha. apply Z.eqb_eq in Ha. exact Ha.
Qed.

End ScalingFacts.

(** * Calls in a row on faithful hardware *)

Section ControllerComposition.
Context {alsa : Alsa}.
Import Machine Double VolumeController.

Lemma read_native_same (c : VolumeController.t) (s s' : hw) :
  Spec.same_channel_state (channel c) s s' ->
  read_native c s' = read_native c s.
Proof.
  intros H.
  destruct c as [[e|] ch mn mx r | [e|] ch mn mx r | e ch]; cbn in *;
    try reflexivity; apply (H e).
Qed.

Lemma read_own_write (c : VolumeController.t) (x : Z) (s : hw) :
  Hardware.stores_writes -> 0 < cached_range c -> mixer_elem c <> None ->
  read_native c (write_native c x s) = Some x.
Proof.
  intros Hst Hr He.
  destruct c as [[e|] ch mn mx r | [e|] ch mn mx r | e ch]; cbn in *;
    try congruence; try lia.
  - apply (Hst e ch x s).
  - apply (Hst e ch x s).
Qed.

Lemma getVolume_after_setVolume (c : VolumeController.t) (v : Z) (s : hw) :
  Hardware.stores_writes -> Hardware.fine_range c -> mixer_elem c <> None ->
  result (getVolume c) (after (setVolume c v) s) = Machine.clamp v 0 100.
Proof.
  intros Hst (Hr & Hr' & Hmin & Hmax) He.
  rewrite result_getVolume, after_setVolume.
  replace (cached_range c <=? 0) with false by (symmetry; apply Z.leb_gt; lia).
  rewrite read_own_write by (assumption || lia).
  rewrite native_of_clamped.
  apply percent_of_native_of_exact; try assumption; try lia.
  apply clamp_range. lia.
Qed.

Lemma getVolume_after_other (c1 c2 : VolumeController.t) (v : Z) (s : hw) :
  Spec.writes_are_local -> channel c1 <> channel c2 ->
  result (getVolume c1) (after (setVolume c2 v) s) = result (getVolume c1) s.
Proof.
  intros Hloc Hch. rewrite !result_getVolume.
  rewrite (read_native_same c1 s (after (setVolume c2 v) s)); [reflexivity|].
  apply setVolume_frame; assumption.
Qed.

(** What [create] caches does not depend on the channel. *)
Lemma create_alike (e : snd_mixer_elem_t)
  (ch ch' : snd_mixer_selem_channel_id_t) :
  variant_of (create (Some e) ch) = variant_of (create (Some e) ch') /\
  cached_min (create (Some e) ch) = cached_min (create (Some e) ch') /\
  cached_range (create (Some e) ch) = cached_range (create (Some e) ch') /\
  mixer_elem (create (Some e) ch) = Some e /\
  channel (create (Some e) ch) = ch.
Proof.
  unfold create, new_VolumeControllerDb, new_VolumeControllerLinear,
    new_VolumeControllerDummy.
  destruct (snd_mixer_selem_get_playback_dB_range e) as [[a b]|];
    destruct (snd_mixer_selem_get_playback_volume_range e) as [[a' b']|];
    repeat match goal with |- context [?x >? ?y] => destruct (x >? y) end;
    cbn; repeat split; reflexivity.
Qed.

Lemma fine_range_alike (e : snd_mixer_elem_t)
  (ch ch' : snd_mixer_selem_channel_id_t) :
  Hardware.fine_range (create (Some e) ch) ->
  Hardware.fine_range (create (Some e) ch').
Proof.
  unfold Hardware.fine_range, Hardware.range_fits.
  destruct (create_alike e ch ch') as (_ & -> & -> & _). tauto.
Qed.

End ControllerComposition.

Section ChannelComposition.
Context {alsa : Alsa}.
Import Machine Double AMVolume.

Lemma created_elem (e : snd_mixer_elem_t) (ch : snd_mixer_selem_channel_id_t) :
  VolumeController.mixer_elem (VolumeController.create (Some e) ch) <> None.
Proof.
  destruct (create_alike e ch ch) as (_ & _ & _ & -> & _). discriminate.
Qed.

(** The hardware after the left and then the right controller of a channel
    were set, on faithful hardware and a fine range: left and right read
    what they were set to, and the mono controller reads one of the two or
    what it read before. *)
Lemma readings_after_stereo_write (card : Z) (e : snd_mixer_elem_t)
  (l r : Z) (s : hw) :
  let v := new_AMVolume card e in
  let s' := after (VolumeController.setVolume (rightVolumeController v) r)
              (after (VolumeController.setVolume (leftVolumeController v) l) s) in
  Hardware.faithful -> Hardware.fine_range (leftVolumeController v) ->
  0 <= l <= 100 -> 0 <= r <= 100 ->
  result (VolumeController.getVolume (leftVolumeController v)) s' = l /\
  result (VolumeController.getVolume (rightVolumeController v)) s' = r /\
  (result (VolumeController.getVolume (monoVolumeController v)) s' = l \/
   result (VolumeController.getVolume (monoVolumeController v)) s' = r \/
   result (VolumeController.getVolume (monoVolumeController v)) s'
   = result (VolumeController.getVolume (monoVolumeController v)) s).
Proof.
  intros v s' (Hst & Hloc & Hlr) Hfine Hl Hr. subst v s'. unfold new_AMVolume in *.
  cbn [leftVolumeController rightVolumeController monoVolumeController] in *.
  set (lc := VolumeController.create (Some e) SND_MIXER_SCHN_FRONT_LEFT) in *.
  set (rc := VolumeController.create (Some e) SND_MIXER_SCHN_FRONT_RIGHT) in *.
  set (mc := VolumeController.create (Some e) SND_MIXER_SCHN_MONO) in *.
  assert (Hardware.fine_range rc) as Hfr by (apply (fine_range_alike e _ _ Hfine)).
  assert (VolumeController.channel lc = SND_MIXER_SCHN_FRONT_LEFT) as Cl
    by apply (create_alike e _ SND_MIXER_SCHN_MONO).
  assert (VolumeController.channel rc = SND_MIXER_SCHN_FRONT_RIGHT) as Cr
    by apply (create_alike e _ SND_MIXER_SCHN_MONO).
  assert (VolumeController.channel mc = SND_MIXER_SCHN_MONO) as Cm
    by apply (create_alike e _ SND_MIXER_SCHN_MONO).
  assert (result (VolumeController.getVolume lc)
            (after (VolumeController.setVolume rc r)
               (after (VolumeController.setVolume lc l) s)) = l) as HL.
  { rewrite getVolume_after_other by (assumption || congruence).
    rewrite getVolume_after_setVolume
      by (assumption || apply created_elem).
    apply clamp_id. exact Hl. }
  assert (result (VolumeController.getVolume rc)
            (after (VolumeController.setVolume rc r)
               (after (VolumeController.setVolume lc l) s)) = r) as HR.
  { rewrite getVolume_after_setVolume
      by (assumption || apply created_elem).
    apply clamp_id. exact Hr. }
  split; [exact HL|]. split; [exact HR|].
  destruct (Z.eq_dec SND_MIXER_SCHN_MONO SND_MIXER_SCHN_FRONT_LEFT) as [E|NL].
  - left. unfold mc. rewrite E. exact HL.
  - destruct (Z.eq_dec SND_MIXER_SCHN_MONO SND_MIXER_SCHN_FRONT_RIGHT)
      as [E|NR].
    + right. left. unfold mc. rewrite E. exact HR.
    + right. right.
      rewrite !getVolume_after_other
        by (assumption || (rewrite ?Cm, ?Cl, ?Cr; assumption)).
      reflexivity.
Qed.

(** The same after the mono controller was set. *)
Lemma readings_after_mono_write (card : Z) (e : snd_mixer_elem_t)
  (p : Z) (s : hw) :
  let v := new_AMVolume card e in
  let s' := after (VolumeController.setVolume (monoVolumeController v) p) s in
  Hardware.faithful -> Hardware.fine_range (leftVolumeController v) ->
  0 <= p <= 100 ->
  result (VolumeController.getVolume (monoVolumeController v)) s' = p /\
  (result (VolumeController.getVolume (leftVolumeController v)) s' = p \/
   result (VolumeController.getVolume (leftVolumeController v)) s'
   = result (VolumeController.getVolume (leftVolumeController v)) s) /\
  (result (VolumeController.getVolume (rightVolumeController v)) s' = p \/
   result (VolumeController.getVolume (rightVolumeController v)) s'
   = result (VolumeController.getVolume (rightVolumeController v)) s).
Proof.
  intros v s' (Hst & Hloc & Hlr) Hfine Hp. subst v s'. unfold new_AMVolume in *.
  cbn [leftVolumeController rightVolumeController monoVolumeController] in *.
  set (lc := VolumeController.create (Some e) SND_MIXER_SCHN_FRONT_LEFT) in *.
  set (rc := VolumeController.create (Some e) SND_MIXER_SCHN_FRONT_RIGHT) in *.
  set (mc := VolumeController.create (Some e) SND_MIXER_SCHN_MONO) in *.
  assert (Hardware.fine_range mc) as Hfm by (apply (fine_range_alike e _ _ Hfine)).
  assert (VolumeController.channel lc = SND_MIXER_SCHN_FRONT_LEFT) as Cl
    by apply (create_alike e _ SND_MIXER_SCHN_MONO).
  assert (VolumeController.channel rc = SND_MIXER_SCHN_FRONT_RIGHT) as Cr
    by apply (create_alike e _ SND_MIXER_SCHN_MONO).
  assert (VolumeController.channel mc = SND_MIXER_SCHN_MONO) as Cm
    by apply (create_alike e _ SND_MIXER_SCHN_MONO).
  assert (result (VolumeController.getVolume mc)
            (after (VolumeController.setVolume mc p) s) = p) as HM.
  { rewrite getVolume_after_setVolume
      by (assumption || apply created_elem).
    apply clamp_id. exact Hp. }
  split; [exact HM|]. split.
  - destruct (Z.eq_dec SND_MIXER_SCHN_FRONT_LEFT SND_MIXER_SCHN_MONO) as [E|N].
    + left. unfold lc. rewrite E. exact HM.
    + right. apply getVolume_after_other;
        [assumption | rewrite Cl, Cm; assumption].
  - destruct (Z.eq_dec SND_MIXER_SCHN_FRONT_RIGHT SND_MIXER_SCHN_MONO) as [E|N].
    + left. unfold rc. rewrite E. exact HM.
    + right. apply getVolume_after_other;
        [assumption | rewrite Cr, Cm; assumption].
Qed.

End ChannelComposition.

Section ChannelReadings.
Context {alsa : Alsa}.
Import Machine Double AMVolume.

Lemma result_getBalance_range (v : AMVolume.t) (s : hw) :
  -100 <= result (getBalance v) s <= 100.
Proof.
  rewrite result_getBalance.
  pose proof (result_getVolume_range (leftVolumeController v) s).
  pose proof (result_getVolume_range (rightVolumeController v) s).
  destruct (hasLeft v && hasRight v); lia.
Qed.

(** [setVolume] on a stereo channel, with the percentages it hands to the
    two controllers. *)
Lemma after_setVolume_stereo_sides (v : AMVolume.t) (volume : Z) (s : hw) :
  hasLeft v && hasRight v = true ->
  let p := Machine.clamp volume 0 100 in
  let b := result (getBalance v) s in
  let other :=
    round_half_away
      (fmul (of_Z p) (fsub 1%Q (fdiv (of_Z (Z.abs b)) 100%Q))) in
  0 <= other <= p /\
  after (setVolume v volume) s =
  after (VolumeController.setVolume (rightVolumeController v)
           (if b <? 0 then other else p))
    (after (VolumeController.setVolume (leftVolumeController v)
              (if b >? 0 then other else p)) s).
Proof.
  intros Hst p b other.
  pose proof (clamp_range volume 0 100 ltac:(lia)) as Hp. fold p in Hp.
  pose proof (result_getBalance_range v s) as Hb. fold b in Hb.
  pose proof (volume_fraction_range (Z.abs b) ltac:(lia)) as [B Bn].
  cbv zeta in B, Bn.
  pose proof (scaled_within p _ Hp B Bn) as Ho. fold other in Ho.
  split; [exact Ho|].
  unfold after at 1. unfold setVolume. rewrite Hst.
  unfold bind. rewrite run_getBalance. fold b. fold p.
  rewrite (abs_small b Hb).
  pose proof (after_assign v b p
                (fsub 1%Q (fdiv (of_Z (Z.abs b)) 100%Q)) s) as Ha.
  cbv zeta in Ha. unfold after at 1 in Ha. rewrite Ha.
  assert (int_of_Z (lround (fmul (of_Z p)
            (fsub 1%Q (fdiv (of_Z (Z.abs b)) 100%Q)))) = other) as ->.
  { rewrite lround_small; fold other.
    - apply int_of_Z_small. unfold in_int, INT_MIN, INT_MAX. lia.
    - unfold in_long, LONG_MIN, LONG_MAX. lia. }
  reflexivity.
Qed.

Lemma getVolume_after_sides (card : Z) (e : snd_mixer_elem_t)
  (l r : Z) (s : hw) :
  let v := new_AMVolume card e in
  let s' := after (VolumeController.setVolume (rightVolumeController v) r)
              (after (VolumeController.setVolume (leftVolumeController v) l) s) in
  Hardware.faithful -> Hardware.fine_range (leftVolumeController v) ->
  0 <= l <= 100 -> 0 <= r <= 100 ->
  Z.max l r <= result (getVolume v) s'
  <= Z.max (Z.max l r) (result (getVolume v) s).
Proof.
  intros v s' Hf Hfine Hl Hr.
  pose proof (readings_after_stereo_write card e l r s Hf Hfine Hl Hr)
    as (HL & HR & HM).
  cbv zeta in HL, HR, HM. fold v in HL, HR, HM. fold s' in HL, HR, HM.
  rewrite (result_AMVolume_getVolume v s'), HL, HR.
  pose proof (result_AMVolume_getVolume v s) as E.
  pose proof (result_getVolume_range (leftVolumeController v) s).
  pose proof (result_getVolume_range (rightVolumeController v) s).
  pose proof (result_getVolume_range (monoVolumeController v) s).
  destruct HM as [-> | [-> | ->]]; lia.
Qed.

Lemma getVolume_after_AMVolume_setVolume (card : Z) (e : snd_mixer_elem_t)
  (volume : Z) (s : hw) :
  let v := new_AMVolume card e in
  let p := Machine.clamp volume 0 100 in
  Hardware.faithful -> Hardware.fine_range (leftVolumeController v) ->
  p <= result (getVolume v) (after (setVolume v volume) s)
    <= Z.max p (result (getVolume v) s).
Proof.
  intros v p Hf Hfine.
  pose proof (clamp_range volume 0 100 ltac:(lia)) as Hp. fold p in Hp.
  destruct (hasLeft v && hasRight v) eqn:Hst.
  - pose proof (after_setVolume_stereo_sides v volume s Hst) as [Ho Ha].
    cbv zeta in Ho, Ha. fold p in Ho, Ha.
    set (b := result (getBalance v) s) in *.
    set (o := round_half_away _) in *.
    pose proof (getVolume_after_sides card e
                  (if b >? 0 then o else p) (if b <? 0 then o else p) s
                  Hf Hfine) as H.
    cbv zeta in H. fold v in H. rewrite <- Ha in H.
    destruct (Z.ltb_spec b 0), (Z.gtb_spec b 0); lia.
  - rewrite (after_setVolume_mono v volume s Hst). fold p.
    pose proof (readings_after_mono_write card e p s Hf Hfine Hp)
      as (HM & HL & HR).
    cbv zeta in HM, HL, HR. fold v in HM, HL, HR.
    rewrite (result_AMVolume_getVolume v (after _ s)), HM.
    pose proof (result_AMVolume_getVolume v s) as E.
    pose proof (result_getVolume_range (leftVolumeController v) s).
    pose proof (result_getVolume_range (rightVolumeController v) s).
    pose proof (result_getVolume_range (monoVolumeController v) s).
    rewrite E.
    destruct HL as [HL|HL], HR as [HR|HR]; rewrite HL, HR; lia.
Qed.

End ChannelReadings.

Section ChannelCompositionFacts.
Context {alsa : Alsa}.
Import Machine Double AMVolume.

(** [setBalance] keeps the overall volume: on a channel built by the
    constructor of [AMVolume], on faithful hardware and a fine range,
    [getVolume] returns after [setBalance] what it returned before, for
    every balance. *)
Theorem setBalance_keeps_volume (card : Z) (e : snd_mixer_elem_t)
  (balance : Z) (s : hw) :
  let v := new_AMVolume card e in
  Hardware.faithful -> Hardware.fine_range (leftVolumeController v) ->
  result (getVolume v) (after (setBalance v balance) s)
  = result (getVolume v) s.
Proof.
  intros v Hf Hfine.
  destruct (hasLeft v && hasRight v) eqn:Hst.
  2:{ unfold after, setBalance. rewrite stereo_test, Hst. reflexivity. }
  rewrite (after_setBalance_stereo v balance s Hst).
  pose proof (clamp_range balance (-100) 100 ltac:(lia)) as Hb.
  pose proof (result_AMVolume_getVolume_range v s) as HV.
  set (b := Machine.clamp balance (-100) 100) in *.
  set (V := result (getVolume v) s) in *.
  pose proof (other_side_within V b HV Hb) as Ho.
  set (o := SetBalance.other_side V b) in *.
  pose proof (getVolume_after_sides card e
                (if b >? 0 then o else V) (if b <? 0 then o else V) s
                Hf Hfine) as H.
  cbv zeta in H. fold v in H. fold V in H.
  destruct (Z.ltb_spec b 0), (Z.gtb_spec b 0); lia.
Qed.

(** The balance is not stored, it is read off the two sides.  On a stereo
    channel built by the constructor, on faithful hardware and a fine range,
    [getBalance] after [setBalance] returns [other - volume] for a negative
    balance, [volume - other] for a positive one and 0 for 0, where [volume]
    is what [getVolume] returned before the call and [other] is what
    [setBalance] hands to the quieter side, the rounding of the double
    product [volume * ((100.0 - |balance|) / 100.0)].  [other] is
    [volume * (100 - |balance|) / 100] rounded to the nearest integer,
    halves away from zero, or the integer below that when the quotient lies
    half-way between two integers.  The balance read is the balance set
    when the volume is 100, and 0 when the volume is 0. *)
Theorem getBalance_after_setBalance (card : Z) (e : snd_mixer_elem_t)
  (balance : Z) (s : hw) :
  let v := new_AMVolume card e in
  let b := Machine.clamp balance (-100) 100 in
  let volume := result (getVolume v) s in
  let other := SetBalance.other_side volume b in
  Hardware.faithful -> Hardware.fine_range (leftVolumeController v) ->
  hasLeft v && hasRight v = true ->
  result (getBalance v) (after (setBalance v balance) s)
  = (if b <? 0 then other - volume
     else if b >? 0 then volume - other else 0) /\
  Spec.other_side volume b - 1 <= other <= Spec.other_side volume b /\
  ((volume * (100 - Z.abs b)) mod 100 <> 50 ->
   other = Spec.other_side volume b) /\
  (volume = 100 -> result (getBalance v) (after (setBalance v balance) s) = b) /\
  (volume = 0 -> result (getBalance v) (after (setBalance v balance) s) = 0).
Proof.
  intros v b V o Hf Hfine Hst.
  pose proof (clamp_range balance (-100) 100 ltac:(lia)) as Hb. fold b in Hb.
  pose proof (result_AMVolume_getVolume_range v s) as HV. fold V in HV.
  pose proof (other_side_within V b HV Hb) as Ho. fold o in Ho.
  pose proof (other_side_spec V b HV Hb) as [S1 S2]. cbv zeta in S1, S2.
  fold o in S1, S2.
  assert (result (getBalance v) (after (setBalance v balance) s)
          = (if b <? 0 then o - V else if b >? 0 then V - o else 0)) as E.
  { rewrite (after_setBalance_stereo v balance s Hst). fold b V o.
    pose proof (readings_after_stereo_write card e
                  (if b >? 0 then o else V) (if b <? 0 then o else V) s
                  Hf Hfine) as H.
    cbv zeta in H. fold v in H.
    destruct H as (HL & HR & _);
      [destruct (b >? 0); lia | destruct (b <? 0); lia |].
    rewrite result_getBalance, Hst, HL, HR.
    destruct (Z.ltb_spec b 0), (Z.gtb_spec b 0); lia. }
  split; [exact E|]. split; [exact S1|]. split; [exact S2|]. split.
  - intros E100. rewrite E.
    pose proof (other_side_full_volume b Hb) as F.
    unfold o. rewrite E100.
    destruct (Z.ltb_spec b 0), (Z.gtb_spec b 0); lia.
  - intros E0. rewrite E.
    destruct (Z.ltb_spec b 0), (Z.gtb_spec b 0); lia.
Qed.

(** [setVolume] on a stereo channel keeps the louder side the louder one:
    on faithful hardware and a fine range the side that was louder reads the
    volume set (clamped to [0, 100]) and the other side no more; both read
    it when the balance was 0.  The larger of the two readings is the volume
    set. *)
Theorem setVolume_keeps_louder_side (card : Z) (e : snd_mixer_elem_t)
  (volume : Z) (s : hw) :
  let v := new_AMVolume card e in
  let p := Machine.clamp volume 0 100 in
  let b := result (getBalance v) s in
  let s' := after (setVolume v volume) s in
  let left' := result (VolumeController.getVolume (leftVolumeController v)) s' in
  let right' := result (VolumeController.getVolume (rightVolumeController v)) s' in
  Hardware.faithful -> Hardware.fine_range (leftVolumeController v) ->
  hasLeft v && hasRight v = true ->
  (b < 0 -> left' = p /\ 0 <= right' <= p) /\
  (b > 0 -> right' = p /\ 0 <= left' <= p) /\
  (b = 0 -> left' = p /\ right' = p) /\
  Z.max left' right' = p.
Proof.
  intros v p b s' left' right' Hf Hfine Hst.
  pose proof (after_setVolume_stereo_sides v volume s Hst) as [Ho Ha].
  cbv zeta in Ho, Ha. fold p b in Ho, Ha.
  set (o := round_half_away _) in *.
  pose proof (clamp_range volume 0 100 ltac:(lia)) as Hp. fold p in Hp.
  pose proof (readings_after_stereo_write card e
                (if b >? 0 then o else p) (if b <? 0 then o else p) s
                Hf Hfine) as H.
  cbv zeta in H. fold v in H. rewrite <- Ha in H. fold s' in H.
  destruct H as (HL & HR & _);
    [destruct (b >? 0); lia | destruct (b <? 0); lia |].
  fold left' in HL. fold right' in HR.
  destruct (Z.ltb_spec b 0), (Z.gtb_spec b 0); lia.
Qed.

(** [getVolume] after [setVolume], on a channel built by the constructor,
    stereo or not, on faithful hardware and a fine range: at least the volume
    set (clamped to [0, 100]) and no more than the larger of that volume and
    the volume before, since the controller that [setVolume] does not write
    still enters the maximum. *)
Theorem setVolume_then_getVolume (card : Z) (e : snd_mixer_elem_t)
  (volume : Z) (s : hw) :
  let v := new_AMVolume card e in
  let p := Machine.clamp volume 0 100 in
  Hardware.faithful -> Hardware.fine_range (leftVolumeController v) ->
  p <= result (getVolume v) (after (setVolume v volume) s)
    <= Z.max p (result (getVolume v) s).
Proof. apply getVolume_after_AMVolume_setVolume. Qed.

End ChannelCompositionFacts.

Section ResettingTheVolume.
Context {alsa : Alsa}.
Import Machine Double AMVolume.

(** [1.0 - d / 100.0] is no less than [(100 - d) / 100], up to a relative
    [2 ^ -50]. *)
Lemma volume_fraction_lower (d : Z) :
  0 <= d <= 100 ->
  (inject_Z (100 - d) * (1 # 100) * (1 - c8)
   <= fsub 1%Q (fdiv (of_Z d) 100%Q))%Q.
Proof.
  intros Hd.
  assert (all_below 101
            (fun d => Qle_bool (inject_Z (100 - d) * (1 # 100) * (1 - c8))
                        (fsub 1%Q (fdiv (of_Z d) 100%Q))) = true) as H
    by (vm_compute; reflexivity).
  pose proof (all_below_spec _ _ H d ltac:(lia)) as Hb. cbv beta in Hb.
  apply Qle_bool_iff in Hb. exact Hb.
Qed.

(** The quieter side that [setVolume] computes is no more than [d] below
    the volume, [d] being the balance it found. *)
Lemma scaled_from (volume d : Z) :
  0 <= volume <= 100 -> 0 <= d <= 100 ->
  volume - d
  <= round_half_away
       (fmul (of_Z volume) (fsub 1%Q (fdiv (of_Z d) 100%Q))).
Proof.
  intros Hv Hd.
  pose proof (volume_fraction_range d Hd) as [[B0 B1] Bn]. cbv zeta in *.
  pose proof (volume_fraction_lower d Hd) as BL.
  set (bn := fsub 1%Q (fdiv (of_Z d) 100%Q)) in *.
  pose proof (scaled_within volume bn Hv (conj B0 B1) Bn) as [R0 _].
  destruct (Z.le_gt_cases volume d) as [Hle|Hgt]; [lia|].
  pose proof (of_Z_bounds volume (proj1 Hv)) as [V1 _].
  assert (1 <= inject_Z volume <= 100)%Q as [Hv0 Hv1].
  { split; [change 1%Q with (inject_Z 1) | change 100%Q with (inject_Z 100)];
      rewrite <- Zle_Qle; lia. }
  assert (0 <= inject_Z d <= 100)%Q as [Hd0 Hd1].
  { split; [change 0%Q with (inject_Z 0) | change 100%Q with (inject_Z 100)];
      rewrite <- Zle_Qle; lia. }
  assert (inject_Z (100 - d) == 100 - inject_Z d)%Q as E100.
  { unfold Z.sub. rewrite inject_Z_plus, inject_Z_opp. reflexivity. }
  rewrite E100 in BL.
  set (V := of_Z volume) in *. set (v' := inject_Z volume) in *.
  set (d' := inject_Z d) in *. unfold eps, c8 in *.
  assert (1 <= 100 - d')%Q as Hd2.
  { assert (inject_Z (d + 1) <= inject_Z 100)%Q as H
      by (rewrite <- Zle_Qle; lia).
    rewrite inject_Z_plus in H. fold d' in H.
    change (inject_Z 1) with 1%Q in H. change (inject_Z 100) with 100%Q in H.
    lra. }
  assert ((v' * (1 - (1 # 9007199254740992)))
          * ((100 - d') * (1 # 100) * (1 - (1 # 1125899906842624)))
          <= V * bn)%Q as P.
  { apply mul_le_mono; lra. }
  assert (0 <= d' * (100 - v'))%Q as N by (apply Qmult_le_0_compat; lra).
  assert (0 <= v' * (100 - d') <= 10000)%Q as [M0 M1].
  { split; [apply Qmult_le_0_compat; lra|].
    apply Qle_trans with (100 * 100)%Q; [|discriminate].
    apply mul_le_mono; lra. }
  assert ((1 # 2 ^ 70) <= V * bn)%Q as Hn.
  { apply Qle_trans with
      ((1 * (1 - (1 # 9007199254740992)))
       * (1 * (1 # 100) * (1 - (1 # 1125899906842624))))%Q; [discriminate|].
    apply Qle_trans with
      ((v' * (1 - (1 # 9007199254740992)))
       * ((100 - d') * (1 # 100) * (1 - (1 # 1125899906842624))))%Q;
      [|exact P].
    apply mul_le_mono; try lra; try discriminate. }
  pose proof (rnd_bounds _ (or_intror Hn)) as [X1 _].
  fold (fmul V bn) in X1. unfold eps in X1.
  pose proof (round_half_away_error (fmul V bn)) as [K1 _].
  set (k := round_half_away (fmul V bn)) in *.
  assert (inject_Z (volume - d - 1) < inject_Z k)%Q as H.
  { unfold Z.sub. rewrite !inject_Z_plus, !inject_Z_opp. fold v' d'.
    change (inject_Z 1) with 1%Q.
    set (m := (v' * (100 - d'))%Q) in *.
    assert ((v' * (1 - (1 # 9007199254740992)))
            * ((100 - d') * (1 # 100) * (1 - (1 # 1125899906842624)))
            == m * ((1 - (1 # 9007199254740992)) * (1 # 100)
                    * (1 - (1 # 1125899906842624))))%Q as Em
      by (unfold m; ring).
    rewrite Em in P.
    assert (100 * (v' - d') <= m)%Q as Hm by (unfold m; lra).
    assert (0 <= V * bn)%Q by lra.
    lra. }
  rewrite <- Zlt_Qlt in H. lia.
Qed.

(** To set the volume that [getVolume] returns is not neutral on a stereo
    channel, but it never lowers a side: on faithful hardware and a fine
    range both sides read afterwards at least what they read before, and
    [getVolume] returns the same volume. *)
Theorem resetting_volume_never_lowers (card : Z) (e : snd_mixer_elem_t)
  (s : hw) :
  let v := new_AMVolume card e in
  let volume := result (getVolume v) s in
  let s' := after (setVolume v volume) s in
  Hardware.faithful -> Hardware.fine_range (leftVolumeController v) ->
  hasLeft v && hasRight v = true ->
  result (VolumeController.getVolume (leftVolumeController v)) s
  <= result (VolumeController.getVolume (leftVolumeController v)) s' /\
  result (VolumeController.getVolume (rightVolumeController v)) s
  <= result (VolumeController.getVolume (rightVolumeController v)) s' /\
  result (getVolume v) s' = volume.
Proof.
  intros v V s' Hf Hfine Hst.
  pose proof (result_AMVolume_getVolume_range v s) as HV. fold V in HV.
  pose proof (result_AMVolume_getVolume v s) as EV. fold V in EV.
  pose proof (result_getVolume_range (leftVolumeController v) s) as HL.
  pose proof (result_getVolume_range (rightVolumeController v) s) as HR.
  pose proof (result_getBalance v s) as Eb. rewrite Hst in Eb.
  set (L := result (VolumeController.getVolume (leftVolumeController v)) s) in *.
  set (R := result (VolumeController.getVolume (rightVolumeController v)) s) in *.
  pose proof (after_setVolume_stereo_sides v V s Hst) as [Ho Ha].
  cbv zeta in Ho, Ha. rewrite (clamp_id V 0 100 HV) in Ho, Ha.
  fold s' in Ha. rewrite Eb in Ho, Ha.
  pose proof (scaled_from V (Z.abs (R - L)) HV ltac:(lia)) as Hs.
  set (o := round_half_away _) in *.
  pose proof (readings_after_stereo_write card e
                (if R - L >? 0 then o else V) (if R - L <? 0 then o else V) s
                Hf Hfine) as H.
  cbv zeta in H. fold v in H. rewrite <- Ha in H.
  destruct H as (HL' & HR' & _);
    [destruct (R - L >? 0); lia | destruct (R - L <? 0); lia |].
  pose proof (getVolume_after_AMVolume_setVolume card e V s Hf Hfine) as B.
  cbv zeta in B. fold v V s' in B. rewrite (clamp_id V 0 100 HV) in B.
  rewrite HL', HR'.
  split; [|split].
  - destruct (Z.gtb_spec (R - L) 0); lia.
  - destruct (Z.ltb_spec (R - L) 0); lia.
  - lia.
Qed.

End ResettingTheVolume.

Section BalanceTheorems.
Context {alsa : Alsa}.
Import Machine Double AMVolume.

Lemma other_side_hard_pan_right (volume : Z) : SetBalance.other_side volume 100 = 0.
Proof.
  unfold SetBalance.other_side. change (Z.abs 100) with 100.
  replace (SetBalance.balanceNorm 100) with 0%Q by (vm_compute; reflexivity).
  unfold fmul. rewrite rnd_zero by ring. reflexivity.
Qed.

(** After a balance of 100 (or more) on a stereo channel the left
    controller reads 0, on hardware that reads back what is written to the
    left channel and on which the write to the right channel, the second of
    the two, leaves the left one. *)
Theorem setBalance_hard_right (v : AMVolume.t) (balance : Z) (s : hw) :
  hasLeft v && hasRight v = true -> 100 <= balance ->
  Spec.channel_reads_back (leftVolumeController v) ->
  Spec.writes_are_local ->
  VolumeController.channel (leftVolumeController v)
  <> VolumeController.channel (rightVolumeController v) ->
  result (VolumeController.getVolume (leftVolumeController v))
    (after (setBalance v balance) s) = 0.
Proof.
  intros Hst Hb Hrb Hloc Hch.
  rewrite (after_setBalance_stereo v balance s Hst).
  assert (Machine.clamp balance (-100) 100 = 100) as ->.
  { unfold Machine.clamp. destruct (Z.ltb_spec balance (-100)); [lia|].
    destruct (Z.ltb_spec 100 balance); lia. }
  change (100 <? 0) with false. change (100 >? 0) with true. cbv iota.
  rewrite other_side_hard_pan_right.
  rewrite getVolume_after_other by assumption.
  apply zero_reads_zero. exact Hrb.
Qed.

End BalanceTheorems.

(** * The factory, the registry and the mixers kept open *)

Section FactoryFacts.
Context {alsa : Alsa}.
Import Machine VolumeController.

(** A Decibel or Linear controller made by [create] caches the minimum that
    alsa-lib reports for its scale and the difference of maximum and minimum,
    a [long], as range; the maximum is above the minimum, and when the
    difference is a [long] the range is strictly positive. *)
Theorem create_caches_range (e : snd_mixer_elem_t)
  (ch : snd_mixer_selem_channel_id_t) :
  let c := create (Some e) ch in
  variant_of c <> Unsupported ->
  exists lo hi,
    (variant_of c = Decibel /\
     snd_mixer_selem_get_playback_dB_range e = Some (lo, hi) \/
     variant_of c = Linear /\
     snd_mixer_selem_get_playback_volume_range e = Some (lo, hi)) /\
    lo < hi /\
    cached_min c = lo /\
    cached_range c = long_sub hi lo /\
    (in_long (hi - lo) -> cached_range c = hi - lo /\ 0 < cached_range c).
Proof.
  intros c Hv. subst c. revert Hv. unfold create.
  destruct (snd_mixer_selem_get_playback_dB_range e) as [[a b]|] eqn:Ed.
  - destruct (Z.gtb_spec b a) as [Hab|Hab].
    + unfold new_VolumeControllerDb. rewrite Ed. cbn. intros _.
      exists a, b. split; [left; split; reflexivity|].
      repeat split; try lia.
      * unfold long_sub. apply long_of_Z_small. assumption.
      * unfold long_sub. rewrite long_of_Z_small by assumption. lia.
    + destruct (snd_mixer_selem_get_playback_volume_range e) as [[a' b']|] eqn:El.
      * destruct (Z.gtb_spec b' a') as [Hab'|Hab'].
        -- unfold new_VolumeControllerLinear. rewrite El. cbn. intros _.
           exists a', b'. split; [right; split; reflexivity|].
           repeat split; try lia.
           ++ unfold long_sub. apply long_of_Z_small. assumption.
           ++ unfold long_sub. rewrite long_of_Z_small by assumption. lia.
        -- cbn. congruence.
      * cbn. congruence.
  - destruct (snd_mixer_selem_get_playback_volume_range e) as [[a' b']|] eqn:El.
    + destruct (Z.gtb_spec b' a') as [Hab'|Hab'].
      * unfold new_VolumeControllerLinear. rewrite El. cbn. intros _.
        exists a', b'. split; [right; split; reflexivity|].
        repeat split; try lia.
        -- unfold long_sub. apply long_of_Z_small. assumption.
        -- unfold long_sub. rewrite long_of_Z_small by assumption. lia.
      * cbn. congruence.
    + cbn. congruence.
Qed.

End FactoryFacts.

Section RegistryFacts.
Context {alsa : Alsa}.
Import AMixer Lifetime.

Lemma add_elems_card (card : Z) (elems : list snd_mixer_elem_t)
  (acc : list AMVolume.t) (v : AMVolume.t) :
  In v (add_elems card elems acc) -> In v acc \/ AMVolume.card v = card.
Proof.
  rewrite add_elems_spec, in_app_iff, in_map_iff.
  intros [H|(e & <- & _)]; [left; exact H | right; reflexivity].
Qed.

Lemma add_card_mixers (d : device) (m : AMixer.t) :
  mixers (add_card d m) = mixers m ++ (if loaded d then [dev_card d] else []).
Proof.
  unfold add_card, loaded.
  destruct (dev_open d); cbn [andb]; [|rewrite app_nil_r; reflexivity].
  destruct (dev_attach d && dev_register d && dev_load d);
    [reflexivity | rewrite app_nil_r; reflexivity].
Qed.

Lemma enumerate_mixers (cards : list snd_card_next_result) (m : AMixer.t) :
  mixers (enumerate cards m)
  = mixers m ++ map dev_card (filter loaded (presented cards)).
Proof.
  revert m. induction cards as [|[|d] rest IH]; intros m;
    cbn [enumerate presented filter map].
  - rewrite app_nil_r. reflexivity.
  - rewrite app_nil_r. reflexivity.
  - rewrite IH, add_card_mixers, <- app_assoc.
    destruct (loaded d); reflexivity.
Qed.

(** The mixers the constructor keeps open are those of the cards that
    opened, attached, registered and loaded, in the order of enumeration, and
    every channel of the registry is on a card whose mixer is kept open. *)
Theorem channels_have_open_mixer (cards : list snd_card_next_result) :
  mixers (new_AMixer cards)
  = map dev_card (filter loaded (presented cards)) /\
  forall v, In v (channels (new_AMixer cards)) ->
            In (AMVolume.card v) (mixers (new_AMixer cards)).
Proof.
  split.
  - unfold new_AMixer. rewrite enumerate_mixers. reflexivity.
  - intros v. unfold channels, new_AMixer.
    rewrite enumerate_spec, enumerate_mixers. cbn [channelsList mixers app].
    unfold registry_spec. rewrite in_flat_map.
    intros (d & Hd & Hv). unfold channels_of_device in Hv.
    destruct (loaded d) eqn:L; [|contradiction].
    apply in_map_iff in Hv as (e & <- & _). cbn [AMVolume.card AMVolume.new_AMVolume].
    apply in_map_iff. exists d. split; [reflexivity|].
    apply filter_In. split; assumption.
Qed.

Lemma opened_app (a b : list mixer_call) : opened (a ++ b) = opened a ++ opened b.
Proof.
  induction a as [|[c|c] a IH]; cbn [app opened]; [reflexivity| |exact IH].
  rewrite IH. reflexivity.
Qed.

Lemma closed_app (a b : list mixer_call) : closed (a ++ b) = closed a ++ closed b.
Proof.
  induction a as [|[c|c] a IH]; cbn [app closed]; [reflexivity|exact IH|].
  rewrite IH. reflexivity.
Qed.

Lemma opened_closes (l : list Z) : opened (map snd_mixer_close l) = [].
Proof. induction l as [|c l IH]; [reflexivity | exact IH]. Qed.

Lemma closed_closes (l : list Z) : closed (map snd_mixer_close l) = l.
Proof.
  induction l as [|c l IH]; [reflexivity|]. cbn [map closed]. rewrite IH.
  reflexivity.
Qed.

Lemma add_card_calls_balance (d : device) :
  opened (add_card_calls d)
  = closed (add_card_calls d) ++ (if loaded d then [dev_card d] else []).
Proof.
  unfold add_card_calls, loaded.
  destruct (dev_open d); cbn [andb]; [|reflexivity].
  destruct (dev_attach d && dev_register d && dev_load d); reflexivity.
Qed.

Lemma new_AMixer_calls_balance (cards : list snd_card_next_result) :
  Permutation (opened (new_AMixer_calls cards))
    (closed (new_AMixer_calls cards)
     ++ map dev_card (filter loaded (presented cards))).
Proof.
  induction cards as [|[|d] rest IH];
    cbn [new_AMixer_calls presented filter map]; try apply Permutation_refl.
  rewrite opened_app, closed_app, add_card_calls_balance.
  rewrite <- !app_assoc. apply Permutation_app_head.
  destruct (loaded d); cbn [map app].
  - apply Permutation_cons_app. exact IH.
  - exact IH.
Qed.

(** No mixer leaks and none is closed twice.  The mixers the constructor
    opens are those it closes at once, for a card that does not load,
    together with those it keeps in [mixers]; the destructor closes these
    and clears [mixers], so that over the lifetime of the object the mixers
    opened and the mixers closed are the same, each as often. *)
Theorem mixers_closed_once (cards : list snd_card_next_result) :
  let m := new_AMixer cards in
  let calls := new_AMixer_calls cards ++ fst (delete_AMixer m) in
  Permutation (opened (new_AMixer_calls cards))
    (closed (new_AMixer_calls cards) ++ mixers m) /\
  Permutation (opened calls) (closed calls) /\
  mixers (snd (delete_AMixer m)) = [].
Proof.
  intros m calls. subst m calls.
  assert (mixers (new_AMixer cards)
          = map dev_card (filter loaded (presented cards))) as E.
  { unfold new_AMixer. rewrite enumerate_mixers. reflexivity. }
  split; [|split].
  - rewrite E. apply new_AMixer_calls_balance.
  - cbn [delete_AMixer fst].
    rewrite opened_app, closed_app, opened_closes, closed_closes, app_nil_r, E.
    apply new_AMixer_calls_balance.
  - reflexivity.
Qed.

End RegistryFacts.

(** * The sample program *)

Section SampleFacts.
Context {alsa : Alsa}.
Import Machine AMixer Sample.
Local Open Scope string_scope.

Lemma call_run {T : Type} (c : State hw T) (p : process) :
  call c p =
  (result c (hardware p),
   {| hardware := after c (hardware p); alsaMixer := alsaMixer p;
      stdout := stdout p |}).
Proof. unfold call, result, after. destruct (c (hardware p)). reflexivity. Qed.

Lemma find_if_name (l : list AMVolume.t) (p : process) :
  find_if (fun vol => bind (call (AMVolume.getName vol))
                        (fun name => ret (name =? "Speaker"))) l p
  = (find (fun vol => AMVolume.name vol =? "Speaker") l, p).
Proof.
  induction l as [|x rest IH]; [reflexivity|].
  cbn [find_if find]. unfold bind at 1. unfold bind at 1.
  rewrite call_run. unfold AMVolume.getName, result, after, ret. cbn [fst snd].
  replace {| hardware := hardware p; alsaMixer := alsaMixer p;
             stdout := stdout p |} with p by (destruct p; reflexivity).
  destruct (AMVolume.name x =? "Speaker"); [reflexivity | exact IH].
Qed.

Lemma print_channel_run (v : AMVolume.t) (p : process) :
  print_channel v p =
  (tt, {| hardware := hardware p; alsaMixer := alsaMixer p;
          stdout := stdout p ++ [line_of v (hardware p)] |}).
Proof.
  unfold print_channel, bind. rewrite call_run.
  unfold AMVolume.getName at 1 2. unfold result at 1, after at 1, ret at 1 2.
  cbn [fst snd hardware alsaMixer stdout].
  rewrite call_run. cbn [hardware alsaMixer stdout].
  rewrite after_AMVolume_getVolume.
  rewrite call_run. cbn [hardware alsaMixer stdout].
  rewrite after_getBalance.
  reflexivity.
Qed.

(** What the program leaves when it ends, and its exit status. *)
Lemma main_run (cards : list snd_card_next_result) (h : hw) :
  main cards (start h) =
  let m := new_AMixer cards in
  match find (fun vol => AMVolume.name vol =? "Speaker") (channels m) with
  | None =>
      (1, {| hardware := h; alsaMixer := Some m;
             stdout := ["Hello, World!"] |})
  | Some v =>
      let volume := result (AMVolume.getVolume v) h in
      let h' := after (AMVolume.setVolume v (int_sub volume 2)) h in
      (0, {| hardware := h'; alsaMixer := Some m;
             stdout := ["Hello, World!"; line_of v h; line_of v h'] |})
  end.
Proof.
  cbv zeta. unfold main, bind.
  unfold println at 1. unfold start. cbn [hardware alsaMixer stdout app].
  unfold alsaInstance. cbn [hardware alsaMixer stdout].
  rewrite find_if_name.
  destruct (find _ (channels (new_AMixer cards))) as [v|]; [|reflexivity].
  rewrite print_channel_run. cbn [hardware alsaMixer stdout app].
  rewrite call_run. cbn [hardware alsaMixer stdout].
  rewrite after_AMVolume_getVolume.
  rewrite call_run. cbn [hardware alsaMixer stdout].
  rewrite print_channel_run. cbn [hardware alsaMixer stdout app].
  reflexivity.
Qed.

End SampleFacts.

Section SampleTheorems.
Context {alsa : Alsa}.
Import Machine AMixer Sample.
Local Open Scope string_scope.

Lemma registry_member (cards : list snd_card_next_result) (v : AMVolume.t) :
  In v (channels (new_AMixer cards)) <->
  exists d e,
    In d (presented cards) /\ loaded d = true /\
    In e (dev_elems d) /\ eligible e = true /\
    v = AMVolume.new_AMVolume (dev_card d) e.
Proof.
  unfold channels, new_AMixer. rewrite enumerate_spec. cbn [channelsList app].
  unfold registry_spec. rewrite in_flat_map. split.
  - intros (d & Hd & Hv). unfold channels_of_device in Hv.
    destruct (loaded d) eqn:L; [|contradiction].
    apply in_map_iff in Hv as (e & <- & He). apply filter_In in He as [He Hel].
    exists d, e. repeat split; assumption.
  - intros (d & e & Hd & L & He & Hel & ->). exists d. split; [exact Hd|].
    unfold channels_of_device. rewrite L. apply in_map.
    apply filter_In. split; assumption.
Qed.

(** The program ends with status 1 exactly when no element that makes it
    into the registry is named "Speaker"; it has then written nothing to
    the hardware and printed its greeting only. *)
Theorem main_exit_status (cards : list snd_card_next_result) (h : hw) :
  let status := result (main cards) (start h) in
  let p := after (main cards) (start h) in
  (status = 1 <->
   forall d e,
     In d (presented cards) -> loaded d = true ->
     In e (dev_elems d) -> eligible e = true ->
     snd_mixer_selem_get_name e <> "Speaker") /\
  (status = 1 -> hardware p = h /\ stdout p = ["Hello, World!"]) /\
  (status = 0 \/ status = 1).
Proof.
  intros status p. subst status p. unfold result, after.
  rewrite main_run. cbv zeta.
  destruct (find _ (channels (new_AMixer cards))) as [v|] eqn:F;
    cbn [fst snd hardware stdout].
  - apply find_some in F as [Hin Hname]. apply String.eqb_eq in Hname.
    apply registry_member in Hin as (d & e & Hd & L & He & Hel & ->).
    split; [|split; [discriminate | left; reflexivity]].
    split; [discriminate|]. intros H. exfalso.
    apply (H d e Hd L He Hel). exact Hname.
  - split; [|split; [split; reflexivity | right; reflexivity]].
    split; [|reflexivity]. intros _ d e Hd L He Hel Hname.
    assert ((AMVolume.name (AMVolume.new_AMVolume (dev_card d) e)
             =? "Speaker") = false) as N.
    { apply (find_none _ _ F). apply registry_member.
      exists d, e. repeat split; assumption. }
    cbn [AMVolume.name AMVolume.new_AMVolume] in N.
    rewrite Hname, String.eqb_refl in N. discriminate.
Qed.

Lemma find_first (l pre post : list AMVolume.t) (v : AMVolume.t) :
  l = (pre ++ v :: post)%list ->
  (forall u, In u pre -> AMVolume.name u <> "Speaker") ->
  AMVolume.name v = "Speaker" ->
  find (fun vol => AMVolume.name vol =? "Speaker") l = Some v.
Proof.
  intros -> Hpre Hv. induction pre as [|u pre IH]; cbn [app find].
  - rewrite Hv. reflexivity.
  - destruct (AMVolume.name u =? "Speaker") eqn:E.
    + apply String.eqb_eq in E. exfalso. apply (Hpre u); [left; reflexivity | exact E].
    + apply IH. intros w Hw. apply Hpre. right. exact Hw.
Qed.

Lemma main_run_first (cards : list snd_card_next_result)
  (h : hw) (pre post : list AMVolume.t) (v : AMVolume.t) :
  channels (new_AMixer cards) = (pre ++ v :: post)%list ->
  (forall u, In u pre -> AMVolume.name u <> "Speaker") ->
  AMVolume.name v = "Speaker" ->
  let volume := result (AMVolume.getVolume v) h in
  let h' := after (AMVolume.setVolume v (volume - 2)) h in
  main cards (start h) =
  (0, {| hardware := h'; alsaMixer := Some (new_AMixer cards);
         stdout := ["Hello, World!"; line_of v h; line_of v h'] |}).
Proof.
  intros Hl Hpre Hv volume h'. rewrite main_run. cbv zeta.
  rewrite (find_first _ pre post v Hl Hpre Hv).
  pose proof (result_AMVolume_getVolume_range v h) as HV. fold volume in HV.
  fold volume.
  replace (int_sub volume 2) with (volume - 2)
    by (symmetry; apply int_of_Z_small; unfold in_int, INT_MIN, INT_MAX; lia).
  reflexivity.
Qed.

(** Otherwise the program acts on the first channel named "Speaker": it
    sets its volume to the one it reads less 2, prints the channel before
    and after, and ends with status 0. *)
Theorem main_lowers_first_speaker (cards : list snd_card_next_result)
  (h : hw) (pre post : list AMVolume.t) (v : AMVolume.t) :
  channels (new_AMixer cards) = (pre ++ v :: post)%list ->
  (forall u, In u pre -> AMVolume.name u <> "Speaker") ->
  AMVolume.name v = "Speaker" ->
  let volume := result (AMVolume.getVolume v) h in
  let h' := after (AMVolume.setVolume v (volume - 2)) h in
  result (main cards) (start h) = 0 /\
  hardware (after (main cards) (start h)) = h' /\
  stdout (after (main cards) (start h))
  = ["Hello, World!"; line_of v h; line_of v h'].
Proof.
  intros Hl Hpre Hv volume h'.
  pose proof (main_run_first cards h pre post v Hl Hpre Hv) as R.
  cbv zeta in R. fold volume in R. fold h' in R.
  unfold result, after. rewrite R. repeat split.
Qed.

(** On faithful hardware and a fine range the program never raises the
    volume of that channel and lowers it by at most 2. *)
Theorem main_never_raises_volume (cards : list snd_card_next_result)
  (h : hw) (pre post : list AMVolume.t) (v : AMVolume.t) :
  channels (new_AMixer cards) = (pre ++ v :: post)%list ->
  (forall u, In u pre -> AMVolume.name u <> "Speaker") ->
  AMVolume.name v = "Speaker" ->
  Hardware.faithful ->
  Hardware.fine_range (AMVolume.leftVolumeController v) ->
  let volume := result (AMVolume.getVolume v) h in
  let h' := hardware (after (main cards) (start h)) in
  Z.max 0 (volume - 2) <= result (AMVolume.getVolume v) h' <= volume.
Proof.
  intros Hl Hpre Hv Hf Hfine volume h'.
  pose proof (main_run_first cards h pre post v Hl Hpre Hv) as R.
  cbv zeta in R. subst h'. unfold after. rewrite R. cbn [snd hardware].
  fold volume.
  assert (In v (channels (new_AMixer cards))) as Hin
    by (rewrite Hl; apply in_elt).
  apply registry_member in Hin as (d & e & _ & _ & _ & _ & E).
  pose proof (result_AMVolume_getVolume_range v h) as HV. fold volume in HV.
  subst v.
  pose proof (getVolume_after_AMVolume_setVolume (dev_card d) e (volume - 2) h
                Hf Hfine) as B.
  cbv zeta in B. fold volume in B.
  unfold Machine.clamp in B.
  destruct (Z.ltb_spec (volume - 2) 0), (Z.ltb_spec 100 (volume - 2)); lia.
Qed.

End SampleTheorems.

(** * The claims on the simulated card: witnesses and counterexamples *)

Section OnTheSimulatedCard.
Import Machine Double Sim.

(** ** The simulated card is faithful hardware *)

Lemma sim_writes_are_local : Spec.writes_are_local.
Proof.
  intros e ch x dir s ch' Hne.
  split; intros e'; cbn; unfold Sim.store; split; try reflexivity;
    destruct (Z.eqb_spec ch' ch); congruence.
Qed.

Lemma sim_channel_reads_back (c : VolumeController.t) :
  Spec.channel_reads_back c.
Proof.
  intros x s n H.
  destruct c as [[e|] ch mn mx r | [e|] ch mn mx r | e ch]; cbn in H;
    try discriminate; unfold Sim.store in H; rewrite Z.eqb_refl in H;
    congruence.
Qed.

Lemma sim_stores_writes : Hardware.stores_writes.
Proof.
  intros e ch x s. split; [intros dir|]; cbn; unfold Sim.store;
    rewrite Z.eqb_refl; reflexivity.
Qed.

Lemma sim_faithful : Hardware.faithful.
Proof.
  split; [exact sim_stores_writes|]. split; [exact sim_writes_are_local|].
  discriminate.
Qed.

Lemma sim_speaker_range : Hardware.range_fits speaker_left.
Proof. vm_compute. repeat split; discriminate. Qed.

Lemma sim_speaker_fine : Hardware.fine_range speaker_left.
Proof. vm_compute. repeat split; discriminate. Qed.

Lemma sim_beep_range : Hardware.range_fits beep_mono.
Proof. vm_compute. repeat split; discriminate. Qed.

(** ** The claims *)

(** Counterexample to claim C1 as stated.  "Beep" has the linear range
    0 .. 3.  [setVolume 50]: 50 / 100.0 = 0.5, 0.5 * 3 = 1.5, [lround] gives
    2, the native value written is 2.  [getVolume] reads 2 back:
    2 / 3 * 100 = 66.67, [lround] gives 67, which is 17 away from 50. *)
Lemma roundtrip_off_by_17_on_coarse_range :
  VolumeController.variant_of beep_mono = VolumeController.Linear /\
  VolumeController.cached_range beep_mono = 3 /\
  Spec.reads_back_written beep_mono 50 Sim.silent /\
  VolumeController.read_native beep_mono
    (after (VolumeController.setVolume beep_mono 50) Sim.silent) = Some 2 /\
  result (VolumeController.getVolume beep_mono)
    (after (VolumeController.setVolume beep_mono 50) Sim.silent) = 67 /\
  ~ (50 - 1 <= result (VolumeController.getVolume beep_mono)
                 (after (VolumeController.setVolume beep_mono 50) Sim.silent)
     <= 50 + 1).
Proof.
  assert (result (VolumeController.getVolume beep_mono)
            (after (VolumeController.setVolume beep_mono 50) Sim.silent) = 67)
    as E by (vm_compute; reflexivity).
  repeat split; try (vm_compute; reflexivity).
  rewrite E. lia.
Qed.

(** Claim C1, amended, on the left channel of "Speaker" at 50 percent. *)
Lemma roundtrip_within_one_witness :
  50 - 1 <= result (VolumeController.getVolume speaker_left)
              (after (VolumeController.setVolume speaker_left 50) Sim.silent)
  <= 50 + 1.
Proof.
  apply (roundtrip_within_one speaker_left 50 Sim.silent).
  - vm_compute. split; discriminate.
  - lia.
  - vm_compute. reflexivity.
Defined.

(** Counterexample to claim C2 as stated.  "Mic" has the linear range
    0 .. 25.  [setVolume 58]: 58 / 100.0 is the double just below 0.58, its
    product with 25 is the double 14.499999999999998, [lround] gives 14 and
    the native value written is 14.  The specification's
    [min + round (fraction * range)] is 0 + round (14.5) = 15. *)
Lemma setVolume_writes_below_the_half :
  VolumeController.variant_of mic_left = VolumeController.Linear /\
  VolumeController.cached_min mic_left = 0 /\
  VolumeController.cached_range mic_left = 25 /\
  Sim.volume_reg (after (VolumeController.setVolume mic_left 58) Sim.silent)
    SND_MIXER_SCHN_FRONT_LEFT = Some 14 /\
  Spec.native 0 25 58 = 15 /\
  after (VolumeController.setVolume mic_left 58) Sim.silent
  <> VolumeController.write_native mic_left (Spec.native 0 25 58) Sim.silent.
Proof.
  repeat split; try (vm_compute; reflexivity).
  intros E.
  apply (f_equal (fun st => Sim.volume_reg st SND_MIXER_SCHN_FRONT_LEFT)) in E.
  vm_compute in E. discriminate.
Qed.

(** Claim C2, amended, on the left channel of "Speaker" at 50 percent:
    50 * 5100 / 100 is an integer, and the native value written is the
    specification's. *)
Lemma setVolume_writes_native_witness :
  VolumeController.native_of
    (VolumeController.cached_min speaker_left)
    (VolumeController.cached_range speaker_left) 50
  = Spec.native
      (VolumeController.cached_min speaker_left)
      (VolumeController.cached_range speaker_left) 50.
Proof.
  destruct (setVolume_writes_native speaker_left 50 Sim.silent)
    as (_ & _ & _ & H & _).
  destruct (H sim_speaker_range) as [_ E].
  apply E. vm_compute. discriminate.
Defined.

(** Counterexample to claim C3 as stated.  "Headphone" has the linear
    range 0 .. 40 and the hardware reports the native value 23.  23 / 40.0
    is the double just below 0.575, its product with 100 is the double
    57.49999999999999, and [getVolume] returns 57; the specification's
    [round ((native - min) / range * 100)] is round (57.5) = 58.  "PCM" has
    the linear range 0 .. 100 and the hardware reports the native value
    4294967296: the rounding is the [long] 4294967296, which clamped to
    [0,100] is 100; [static_cast<int>] makes it 0 first, and [getVolume]
    returns 0. *)
Lemma getVolume_differs_from_the_formula :
  (VolumeController.variant_of headphone_left = VolumeController.Linear /\
   VolumeController.cached_min headphone_left = 0 /\
   VolumeController.cached_range headphone_left = 40 /\
   VolumeController.read_native headphone_left (Sim.all_at 23) = Some 23 /\
   Spec.rounded_percentage 0 40 23 = 58 /\
   Spec.percentage 0 40 23 = 58 /\
   result (VolumeController.getVolume headphone_left) (Sim.all_at 23) = 57) /\
  (VolumeController.variant_of pcm_left = VolumeController.Linear /\
   VolumeController.cached_min pcm_left = 0 /\
   VolumeController.cached_range pcm_left = 100 /\
   VolumeController.read_native pcm_left (Sim.all_at 4294967296)
   = Some 4294967296 /\
   Spec.rounded_percentage 0 100 4294967296 = 4294967296 /\
   Spec.percentage 0 100 4294967296 = 100 /\
   result (VolumeController.getVolume pcm_left) (Sim.all_at 4294967296) = 0).
Proof. repeat split; vm_compute; reflexivity. Qed.

(** Claim C3, amended, on "Speaker" reading -2550 ([min] = -5100,
    range 5100): the result is the specification's percentage, 50. *)
Lemma getVolume_percentage_witness :
  result (VolumeController.getVolume speaker_left) (Sim.all_at (-2550))
  = Spec.percentage (-5100) 5100 (-2550).
Proof.
  destruct (getVolume_percentage speaker_left (Sim.all_at (-2550)))
    as (_ & _ & H & _).
  destruct (H (-2550)) as (_ & _ & E).
  - vm_compute. split; discriminate.
  - reflexivity.
  - vm_compute. split; discriminate.
  - apply E. vm_compute. discriminate.
Defined.

(** Counterexample to claim C4 as stated.  Both sides of "Speaker" are at
    -3825, which reads as 25 percent.  [setBalance (-42)]:
    (100.0 - 42) / 100.0 is the double just below 0.58, its product with 25
    is the double 14.499999999999998, [lround] gives 14, and the right
    controller is set to 14 percent, the native value -4386.  The
    specification's [round (volume * (100 - |balance|) / 100)] is
    round (14.5) = 15, the native value -4335. *)
Lemma setBalance_sets_below_the_half :
  AMVolume.hasLeft speaker_volume && AMVolume.hasRight speaker_volume = true /\
  result (AMVolume.getVolume speaker_volume) (Sim.stereo_at (-3825)) = 25 /\
  Spec.other_side 25 (-42) = 15 /\
  result (VolumeController.getVolume
            (AMVolume.rightVolumeController speaker_volume))
    (after (AMVolume.setBalance speaker_volume (-42)) (Sim.stereo_at (-3825)))
  = 14 /\
  Sim.dB_reg
    (after (AMVolume.setBalance speaker_volume (-42)) (Sim.stereo_at (-3825)))
    SND_MIXER_SCHN_FRONT_RIGHT = Some (-4386) /\
  Sim.dB_reg
    (after (VolumeController.setVolume
              (AMVolume.rightVolumeController speaker_volume)
              (Spec.other_side 25 (-42)))
       (after (VolumeController.setVolume
                 (AMVolume.leftVolumeController speaker_volume) 25)
          (Sim.stereo_at (-3825))))
    SND_MIXER_SCHN_FRONT_RIGHT = Some (-4335).
Proof. repeat split; vm_compute; reflexivity. Qed.

(** Claim C4, amended, on "Speaker": after [setBalance (-100)] the right
    controller reads 0. *)
Lemma setBalance_rebalances_witness :
  result (VolumeController.getVolume
            (AMVolume.rightVolumeController speaker_volume))
    (after (AMVolume.setBalance speaker_volume (-100)) (Sim.all_at (-2550)))
  = 0.
Proof.
  destruct (setBalance_rebalances speaker_volume (-100) (Sim.all_at (-2550)))
    as (_ & H & _).
  apply H.
  - reflexivity.
  - lia.
  - apply sim_channel_reads_back.
Defined.

(** Counterexample to claim C10 as stated.  The mono identifier is the left
    one.  "Master" is a mono channel: [setVolume 75] writes -1500 to the
    mono controller's channel, which is the channel of the left controller;
    the register of the left channel was empty and holds -1500, and the
    left controller, which read 0, reads 75.  "Speaker" is a stereo
    channel at 50 percent: [setVolume 75] writes the left and the right
    controller, and the mono controller, which read 50, reads 75. *)
Lemma mono_controller_shares_the_left_channel :
  SND_MIXER_SCHN_MONO = SND_MIXER_SCHN_FRONT_LEFT /\
  (AMVolume.hasLeft master_volume && AMVolume.hasRight master_volume = false /\
   let s := Sim.silent in
   let s' := after (AMVolume.setVolume master_volume 75) s in
   Sim.dB_reg s SND_MIXER_SCHN_FRONT_LEFT = None /\
   Sim.dB_reg s' SND_MIXER_SCHN_FRONT_LEFT = Some (-1500) /\
   result (VolumeController.getVolume
             (AMVolume.leftVolumeController master_volume)) s = 0 /\
   result (VolumeController.getVolume
             (AMVolume.leftVolumeController master_volume)) s' = 75 /\
   ~ Spec.same_channel_state SND_MIXER_SCHN_FRONT_LEFT s s') /\
  (AMVolume.hasLeft speaker_volume && AMVolume.hasRight speaker_volume = true /\
   let s := Sim.stereo_at (-2550) in
   let s' := after (AMVolume.setVolume speaker_volume 75) s in
   result (VolumeController.getVolume
             (AMVolume.monoVolumeController speaker_volume)) s = 50 /\
   result (VolumeController.getVolume
             (AMVolume.monoVolumeController speaker_volume)) s' = 75 /\
   ~ Spec.same_channel_state SND_MIXER_SCHN_MONO s s').
Proof.
  split; [reflexivity|]. split.
  - repeat split; try (vm_compute; reflexivity).
    intros H. destruct (H master) as [E _]. vm_compute in E. discriminate.
  - repeat split; try (vm_compute; reflexivity).
    intros H. destruct (H speaker) as [E _]. vm_compute in E. discriminate.
Qed.

(** Claim C10, amended, on the simulated card: [setVolume 75] on the mono
    "Beep" leaves the right channel, and on the stereo "Speaker" the
    channel 2 (the front centre of alsa-lib). *)
Lemma writes_only_designated_controllers_witness :
  Spec.same_channel_state SND_MIXER_SCHN_FRONT_RIGHT Sim.silent
    (after (AMVolume.setVolume beep_volume 75) Sim.silent) /\
  Spec.same_channel_state (2 : snd_mixer_selem_channel_id_t)
    (Sim.all_at (-2550))
    (after (AMVolume.setVolume speaker_volume 75) (Sim.all_at (-2550))).
Proof.
  split.
  - destruct (writes_only_designated_controllers beep_volume 75 0 Sim.silent
                SND_MIXER_SCHN_FRONT_RIGHT sim_writes_are_local) as [Hm _].
    destruct (Hm eq_refl) as [_ H]. apply H. vm_compute. discriminate.
  - destruct (writes_only_designated_controllers speaker_volume 75 0
                (Sim.all_at (-2550)) (2 : snd_mixer_selem_channel_id_t)
                sim_writes_are_local)
      as (_ & Hst & _).
    destruct (Hst eq_refl) as (_ & _ & H).
    apply H; vm_compute; discriminate.
Defined.

(** The specification's first scenario: on the range -5100 .. 0,
    [setVolume 50] writes -2550, and [getVolume] reading -2550 returns 50. *)
Example scenario_decibel_half :
  Sim.dB_reg (after (VolumeController.setVolume speaker_left 50) Sim.silent)
    SND_MIXER_SCHN_FRONT_LEFT = Some (-2550) /\
  result (VolumeController.getVolume speaker_left) (Sim.all_at (-2550)) = 50.
Proof. split; vm_compute; reflexivity. Qed.

(** The specification's second scenario: a mono channel on the range
    -6000 .. 0; [setVolume 75] sets the mono channel to -1500 and leaves the
    right channel, and [getVolume] then returns 75.  The mono channel being
    the left one, the register of the left channel holds -1500. *)
Example scenario_mono_three_quarters :
  AMVolume.hasLeft master_volume && AMVolume.hasRight master_volume = false /\
  let s := after (AMVolume.setVolume master_volume 75) Sim.silent in
  Sim.dB_reg s SND_MIXER_SCHN_MONO = Some (-1500) /\
  Sim.dB_reg s SND_MIXER_SCHN_FRONT_LEFT = Some (-1500) /\
  Sim.dB_reg s SND_MIXER_SCHN_FRONT_RIGHT = None /\
  result (AMVolume.getVolume master_volume) s = 75.
Proof. repeat split; vm_compute; reflexivity. Qed.

Lemma unsupported_controller_is_inert_witness :
  after (VolumeController.setVolume switch_left 40) (Sim.all_at 7)
  = Sim.all_at 7 /\
  result (VolumeController.getVolume switch_left) (Sim.all_at 7) = 0.
Proof.
  apply (unsupported_controller_is_inert switch_left 40 (Sim.all_at 7)).
  vm_compute. discriminate.
Defined.

Lemma native_offset_accuracy_witness :
  (inject_Z 58 * inject_Z 25 * (1 - c8) - 50
   <= 100 * inject_Z (lround
                        (fmul (VolumeController.volumeNorm 58) (of_Z 25))) /\
   100 * inject_Z (lround
                     (fmul (VolumeController.volumeNorm 58) (of_Z 25)))
   <= inject_Z 58 * inject_Z 25 * (1 + c8) + 50)%Q.
Proof.
  apply (native_offset_accuracy 58 25); lia.
Defined.

(** Fractions are doubles.  58 / 100.0 is the double just below 0.58, and
    its product with 25 is the double 14.499999999999998, which [lround]
    takes to 14; in the same way 25 * ((100.0 - 42) / 100.0) gives 14 and
    23 / 40.0 * 100.0 gives 57.  In the rationals the three products are
    halves: 14.5, 14.5 and 57.5. *)
Example double_products_below_a_half :
  VolumeController.native_of 0 25 58 = 14 /\
  58 * 25 = 100 * 14 + 50 /\
  SetBalance.other_side 25 (-42) = 14 /\
  25 * (100 - Z.abs (-42)) = 100 * 14 + 50 /\
  VolumeController.percent_of 0 40 23 = 57 /\
  100 * 23 = 40 * 57 + 20.
Proof. repeat split; vm_compute; reflexivity. Qed.

(** The bound 34 of claim C1 cannot be lowered: on a range of 33 steps,
    50 percent is written as 17 and read back as 52. *)
Example roundtrip_fails_at_range_33 :
  VolumeController.native_of 0 33 50 = 17 /\
  VolumeController.percent_of 0 33 17 = 52.
Proof. split; vm_compute; reflexivity. Qed.


(** ** Witnesses of the further properties *)

(** 50 percent of the range -5100 .. 0 is no half-way case: the native
    value written is -5100 + (50 * 5100 + 50) / 100. *)
Lemma setVolume_writes_nearest_native_witness :
  VolumeController.native_of
    (VolumeController.cached_min speaker_left)
    (VolumeController.cached_range speaker_left) 50
  = VolumeController.cached_min speaker_left
    + (Machine.clamp 50 0 100 * VolumeController.cached_range speaker_left
       + 50) / 100.
Proof.
  destruct (setVolume_writes_nearest_native speaker_left 50 Sim.silent
              sim_speaker_range) as (_ & _ & H).
  apply H. vm_compute. discriminate.
Defined.

Lemma setVolume_stays_within_range_witness :
  VolumeController.cached_min speaker_left
  <= VolumeController.native_of
       (VolumeController.cached_min speaker_left)
       (VolumeController.cached_range speaker_left) 250
  <= VolumeController.cached_min speaker_left
     + VolumeController.cached_range speaker_left.
Proof.
  destruct (setVolume_stays_within_range speaker_left 250 Sim.silent
              sim_speaker_range) as (_ & H & _).
  exact H.
Defined.

Lemma setVolume_is_monotone_witness :
  VolumeController.native_of
    (VolumeController.cached_min speaker_left)
    (VolumeController.cached_range speaker_left) 20
  <= VolumeController.native_of
       (VolumeController.cached_min speaker_left)
       (VolumeController.cached_range speaker_left) 70.
Proof.
  destruct (setVolume_is_monotone speaker_left 20 70 Sim.silent
              sim_speaker_range ltac:(lia)) as (_ & _ & H).
  exact H.
Defined.

Lemma getVolume_returns_nearest_percentage_witness :
  result (VolumeController.getVolume speaker_left) (Sim.all_at (-5100)) = 0.
Proof.
  destruct (getVolume_returns_nearest_percentage speaker_left
              (Sim.all_at (-5100)) (-5100) sim_speaker_range eq_refl)
    as (_ & _ & H & _).
  - vm_compute. split; discriminate.
  - apply H. reflexivity.
Defined.

Lemma getVolume_is_monotone_witness :
  result (VolumeController.getVolume speaker_left) (Sim.all_at (-3000))
  <= result (VolumeController.getVolume speaker_left) (Sim.all_at (-2000)).
Proof.
  apply (getVolume_is_monotone speaker_left (Sim.all_at (-3000))
           (Sim.all_at (-2000)) (-3000) (-2000) sim_speaker_range);
    try reflexivity; vm_compute; discriminate.
Defined.

(** The muted "Speaker": alsa-lib reports -9999999, [getVolume] returns 0. *)
Lemma getVolume_clamps_out_of_range_witness :
  result (VolumeController.getVolume speaker_left) (Sim.all_at (-9999999)) = 0.
Proof.
  destruct (getVolume_clamps_out_of_range speaker_left (Sim.all_at (-9999999))
              (-9999999) sim_speaker_range eq_refl) as (H & _).
  apply H; vm_compute; discriminate.
Defined.

Lemma roundtrip_exact_on_fine_range_witness :
  result (VolumeController.getVolume speaker_left)
    (after (VolumeController.setVolume speaker_left 37) Sim.silent)
  = Machine.clamp 37 0 100.
Proof.
  apply (roundtrip_exact_on_fine_range speaker_left 37 Sim.silent
           sim_speaker_fine).
  vm_compute. reflexivity.
Defined.

(** "Beep" has 3 steps and holds the native value 2: [getVolume] returns
    67, and [setVolume 67] writes 2 again. *)
Lemma getVolume_then_setVolume_rewrites_witness :
  after (VolumeController.setVolume beep_mono
           (result (VolumeController.getVolume beep_mono) (Sim.all_at 2)))
    (Sim.all_at 2)
  = VolumeController.write_native beep_mono 2 (Sim.all_at 2).
Proof.
  apply (getVolume_then_setVolume_rewrites beep_mono (Sim.all_at 2) 2
           sim_beep_range).
  - vm_compute. discriminate.
  - reflexivity.
  - vm_compute. split; discriminate.
Defined.

Lemma roundtrip_needs_34_steps_witness :
  exists p,
    0 <= p <= 100 /\
    forall s,
      Spec.reads_back_written beep_mono p s ->
      ~ (p - 1 <= result (VolumeController.getVolume beep_mono)
                    (after (VolumeController.setVolume beep_mono p) s)
         <= p + 1).
Proof.
  apply (roundtrip_needs_34_steps beep_mono).
  vm_compute. split; discriminate.
Defined.

Lemma setBalance_keeps_volume_witness :
  result (AMVolume.getVolume speaker_volume)
    (after (AMVolume.setBalance speaker_volume (-40)) (Sim.all_at (-2550)))
  = result (AMVolume.getVolume speaker_volume) (Sim.all_at (-2550)).
Proof.
  apply (setBalance_keeps_volume (alsa := Sim.alsa) 0 speaker (-40) (Sim.all_at (-2550))
           sim_faithful sim_speaker_fine).
Defined.

(** At full volume the balance set is the balance read. *)
Lemma getBalance_after_setBalance_witness :
  result (AMVolume.getBalance speaker_volume)
    (after (AMVolume.setBalance speaker_volume (-40)) (Sim.all_at 0))
  = Machine.clamp (-40) (-100) 100.
Proof.
  destruct (getBalance_after_setBalance (alsa := Sim.alsa) 0 speaker (-40)
              (Sim.all_at 0) sim_faithful sim_speaker_fine eq_refl)
    as (_ & _ & _ & H & _).
  apply H. vm_compute. reflexivity.
Defined.

(** From a centred "Speaker", [setVolume 30] sets both sides to 30. *)
Lemma setVolume_keeps_louder_side_witness :
  result (VolumeController.getVolume
            (AMVolume.leftVolumeController speaker_volume))
    (after (AMVolume.setVolume speaker_volume 30) (Sim.all_at (-2550)))
  = Machine.clamp 30 0 100 /\
  result (VolumeController.getVolume
            (AMVolume.rightVolumeController speaker_volume))
    (after (AMVolume.setVolume speaker_volume 30) (Sim.all_at (-2550)))
  = Machine.clamp 30 0 100.
Proof.
  destruct (setVolume_keeps_louder_side (alsa := Sim.alsa) 0 speaker 30 (Sim.all_at (-2550))
              sim_faithful sim_speaker_fine eq_refl) as (_ & _ & H & _).
  apply H. vm_compute. reflexivity.
Defined.

Lemma setVolume_then_getVolume_witness :
  Machine.clamp 30 0 100
  <= result (AMVolume.getVolume speaker_volume)
       (after (AMVolume.setVolume speaker_volume 30) (Sim.all_at (-2550)))
  <= Z.max (Machine.clamp 30 0 100)
       (result (AMVolume.getVolume speaker_volume) (Sim.all_at (-2550))).
Proof.
  apply (setVolume_then_getVolume (alsa := Sim.alsa) 0 speaker 30 (Sim.all_at (-2550))
           sim_faithful sim_speaker_fine).
Defined.

(** "Speaker" with the left side at 50 and the right side at 25 percent:
    [setVolume 50] leaves the left side and raises the right one to 38. *)
Lemma resetting_volume_never_lowers_witness :
  result (VolumeController.getVolume
            (AMVolume.rightVolumeController speaker_volume))
    (Sim.sides_at (-2550) (-3825))
  <= result (VolumeController.getVolume
               (AMVolume.rightVolumeController speaker_volume))
       (after (AMVolume.setVolume speaker_volume
                 (result (AMVolume.getVolume speaker_volume)
                    (Sim.sides_at (-2550) (-3825))))
          (Sim.sides_at (-2550) (-3825))).
Proof.
  destruct (resetting_volume_never_lowers (alsa := Sim.alsa) 0 speaker
              (Sim.sides_at (-2550) (-3825)) sim_faithful sim_speaker_fine
              eq_refl) as (_ & H & _).
  exact H.
Defined.

Example resetting_volume_raises_quieter_side :
  let s := Sim.sides_at (-2550) (-3825) in
  let s' := after (AMVolume.setVolume speaker_volume 50) s in
  result (AMVolume.getVolume speaker_volume) s = 50 /\
  result (AMVolume.getBalance speaker_volume) s = -25 /\
  result (AMVolume.getVolume speaker_volume) s' = 50 /\
  result (AMVolume.getBalance speaker_volume) s' = -12.
Proof. repeat split; vm_compute; reflexivity. Qed.

Lemma setBalance_hard_right_witness :
  result (VolumeController.getVolume
            (AMVolume.leftVolumeController speaker_volume))
    (after (AMVolume.setBalance speaker_volume 100) (Sim.all_at (-2550)))
  = 0.
Proof.
  apply (setBalance_hard_right speaker_volume 100 (Sim.all_at (-2550))).
  - reflexivity.
  - lia.
  - apply sim_channel_reads_back.
  - exact sim_writes_are_local.
  - vm_compute. discriminate.
Defined.

Lemma create_caches_range_witness :
  exists lo hi,
    (VolumeController.variant_of speaker_left = VolumeController.Decibel /\
     snd_mixer_selem_get_playback_dB_range speaker = Some (lo, hi) \/
     VolumeController.variant_of speaker_left = VolumeController.Linear /\
     snd_mixer_selem_get_playback_volume_range speaker = Some (lo, hi)) /\
    lo < hi /\
    VolumeController.cached_min speaker_left = lo /\
    VolumeController.cached_range speaker_left = long_sub hi lo /\
    (in_long (hi - lo) ->
     VolumeController.cached_range speaker_left = hi - lo /\
     0 < VolumeController.cached_range speaker_left).
Proof.
  apply (create_caches_range (alsa := Sim.alsa) speaker
           SND_MIXER_SCHN_FRONT_LEFT).
  vm_compute. discriminate.
Defined.

(** The sample program on the two cards, "Speaker" centred at -2550. *)
Lemma main_lowers_first_speaker_witness :
  result (Sample.main Sim.cards) (Sample.start (Sim.stereo_at (-2550))) = 0.
Proof.
  destruct (main_lowers_first_speaker Sim.cards (Sim.stereo_at (-2550))
              [master_on_card1] [pcm_on_card1; beep_on_card1]
              speaker_on_card1) as (H & _).
  - vm_compute. reflexivity.
  - intros u [<-|[]]. vm_compute. discriminate.
  - reflexivity.
  - exact H.
Defined.

Lemma main_never_raises_volume_witness :
  Z.max 0 (result (AMVolume.getVolume speaker_on_card1) (Sim.stereo_at (-2550)) - 2)
  <= result (AMVolume.getVolume speaker_on_card1)
       (Sample.hardware
          (after (Sample.main Sim.cards) (Sample.start (Sim.stereo_at (-2550)))))
  <= result (AMVolume.getVolume speaker_on_card1) (Sim.stereo_at (-2550)).
Proof.
  apply (main_never_raises_volume Sim.cards (Sim.stereo_at (-2550))
           [master_on_card1] [pcm_on_card1; beep_on_card1]
           speaker_on_card1).
  - vm_compute. reflexivity.
  - intros u [<-|[]]. vm_compute. discriminate.
  - reflexivity.
  - exact sim_faithful.
  - exact sim_speaker_fine.
Defined.

(** What the program prints there, and the hardware it leaves: both sides
    of "Speaker" two percent lower. *)
Example main_on_the_simulated_card :
  let p := after (Sample.main Sim.cards) (Sample.start (Sim.stereo_at (-2550))) in
  Sample.stdout p
  = ["Hello, World!"%string;
     "Name: 'Speaker' volume: 50 balance: 0"%string;
     "Name: 'Speaker' volume: 48 balance: 0"%string] /\
  Sim.dB_reg (Sample.hardware p) SND_MIXER_SCHN_FRONT_LEFT = Some (-2652) /\
  Sim.dB_reg (Sample.hardware p) SND_MIXER_SCHN_FRONT_RIGHT = Some (-2652).
Proof. repeat split; vm_compute; reflexivity. Qed.

(** The mixers on the two cards: the first is opened and closed at once,
    the second is kept and closed by the destructor. *)
Example mixers_on_the_simulated_card :
  AMixer.mixers (AMixer.new_AMixer Sim.cards) = [1] /\
  Lifetime.new_AMixer_calls Sim.cards
  = [Lifetime.snd_mixer_open 0; Lifetime.snd_mixer_close 0;
     Lifetime.snd_mixer_open 1] /\
  fst (Lifetime.delete_AMixer (AMixer.new_AMixer Sim.cards))
  = [Lifetime.snd_mixer_close 1].
Proof. repeat split; vm_compute; reflexivity. Qed.

End OnTheSimulatedCard.
